(** * QR WiFi sticker generator: a shallow embedding and its properties

    The development follows the page component of the generator
    (the portrait sticker variant, with the background-bounds helper of the
    extended variant):

    - [JsString]: [sanitizeNumericDot], [escapeWifi], [generateValue];
    - [Double]: the rounding of binary64 arithmetic, to 53 bits;
    - [JsNum]: the numbers of the layout arithmetic (rationals rounded as
      binary64 rounds them, the two infinities and NaN);
    - [Canvas2D]: the 2D context as far as the sticker uses it, with
      [setFont], [fitTextSize], [drawCenteredText];
    - [Sticker]: [makeStickerCanvas] and [buildWifiStickerPng] with its
      packing loop;
    - [Rotation]: [rotateCanvas90CWTo] on bitmaps;
    - [Bounds]: [getBackgroundBoundsFromImage];
    - [Page]: [safeFilename], the state of the form with [canAdd],
      [handleAdd] and the handlers of its inputs, and [handleDownload];
    - [Attention]: [buildAttentionStickerPng] and [handlePrintRedQr];
    - [Landscape]: the sizing of [drawVerticalTwoLine] in the landscape
      variant.

    Definitions come first, the theorems about them follow. *)

From Stdlib Require Import ZArith NArith QArith Qround Qreduction Qpower.
From Stdlib Require Import Lqa String Ascii Bool Lia List.
From Equations Require Import Equations.
Import ListNotations.

Local Open Scope Z_scope.

(* ===================================================================== *)
(** * Strings *)
(* ===================================================================== *)

Module JsString.

(** A string is its sequence of UTF-16 code units. *)
Definition jsstring := list N.

(** String literals of the source. *)
Definition lit (s : string) : jsstring :=
  map N_of_ascii (list_ascii_of_string s).

Definition DOT : N := 46%N.
Definition BACKSLASH : N := 92%N.

(** [LineTerminator]: LF, CR, LS, PS. The regular expression atom [.]
    matches every code unit but these. *)
Definition isLineTerminator (c : N) : bool :=
  existsb (N.eqb c) [10; 13; 8232; 8233]%N.

(** [WhiteSpace] and [LineTerminator], what [String.prototype.trim]
    strips. *)
Definition isTrimmed (c : N) : bool :=
  existsb (N.eqb c)
    [9; 11; 12; 32; 160; 5760; 8192; 8193; 8194; 8195; 8196; 8197; 8198;
     8199; 8200; 8201; 8202; 8239; 8287; 12288; 65279]%N
  || isLineTerminator c.

Fixpoint dropWhile (p : N -> bool) (s : jsstring) : jsstring :=
  match s with
  | [] => []
  | c :: s' => if p c then dropWhile p s' else s
  end.

Definition trim (s : jsstring) : jsstring :=
  rev (dropWhile isTrimmed (rev (dropWhile isTrimmed s))).

(** [s.replace(/[cls]/g, f)] for a class of single code units: every
    code unit of the class is replaced by what [f] returns for it. *)
Definition replaceClass (cls : N -> bool) (f : N -> jsstring)
    (s : jsstring) : jsstring :=
  flat_map (fun c => if cls c then f c else [c]) s.

Definition isDigit (c : N) : bool := ((48 <=? c) && (c <=? 57))%N.

(** The class of the first replace: neither a digit nor a dot. *)
Definition notDigitOrDot (c : N) : bool :=
  negb (isDigit c || (c =? DOT)%N).

(** The match of a greedy run of [.] and a closing dot at the head of
    [s], with backtracking:
    the run first tries to take one more code unit, and only when the
    rest cannot be matched that way it stops, which needs a dot here. The
    result is what the run took and what follows the closing dot. *)
Fixpoint greedyToDot (s : jsstring) : option (jsstring * jsstring) :=
  match s with
  | [] => None
  | c :: s' =>
      if isLineTerminator c then None
      else match greedyToDot s' with
           | Some (taken, rest) => Some (c :: taken, rest)
           | None => if (c =? DOT)%N then Some ([], s') else None
           end
  end.

Lemma greedyToDot_shorter s taken rest :
  greedyToDot s = Some (taken, rest) -> (length rest < length s)%nat.
Proof.
  revert taken rest. induction s as [|c s IH]; intros taken rest; simpl.
  - discriminate.
  - destruct (isLineTerminator c); [discriminate|].
    destruct (greedyToDot s) as [[t r]|] eqn:E.
    + intros H; inversion H; subst. specialize (IH _ _ eq_refl). lia.
    + destruct (c =? DOT)%N; [|discriminate].
      intros H; inversion H; subst. lia.
Qed.

Definition inspect {A} (a : A) : {b : A | a = b} := exist _ a eq_refl.

(** The second replace of [sanitizeNumericDot], global, whose pattern is
    a group (a dot, then any run of [.]) followed by a dot, and whose
    replacement is the group: at the leftmost dot from which the pattern
    matches, the match is replaced by the match without its closing dot,
    and the search goes on behind the match. *)
Equations? dropClosingDots (s : jsstring) : jsstring by wf (length s) lt :=
  dropClosingDots [] := [];
  dropClosingDots (c :: s') with (c =? DOT)%N := {
    | false := c :: dropClosingDots s'
    | true with inspect (greedyToDot s') := {
        | exist _ (Some (taken, rest)) _ := c :: taken ++ dropClosingDots rest
        | exist _ None _ := c :: dropClosingDots s' } }.
Proof.
  all: simpl; try lia.
  apply greedyToDot_shorter in e. lia.
Qed.

(** const sanitizeNumericDot = (value) => ... *)
Definition sanitizeNumericDot (value : jsstring) : jsstring :=
  let raw := value in
  let cleaned := replaceClass notDigitOrDot (fun _ => []) raw in
  dropClosingDots cleaned.

(** The class of [escapeWifi]: backslash, semicolon, comma, colon and
    double quote. *)
Definition isWifiSpecial (c : N) : bool :=
  existsb (N.eqb c) [92; 59; 44; 58; 34]%N.

(** const escapeWifi = (value) => ... *)
Definition escapeWifi (value : jsstring) : jsstring :=
  replaceClass isWifiSpecial (fun m => [BACKSLASH; m]) value.

(** A stored entry of the list of networks, as [handleAdd] builds it. *)
Record Item := {
  ssid : jsstring;
  password : jsstring;
  isOpen : bool;
  networkType : jsstring
}.

(** [item?.field], or the empty string when it is missing. *)
Definition field (f : Item -> jsstring) (item : option Item) : jsstring :=
  match item with
  | Some it => f it
  | None => []
  end.

Definition itemIsOpen (item : option Item) : bool :=
  match item with
  | Some it => isOpen it
  | None => false
  end.

(** const generateValue = (item) => ... *)
Definition generateValue (item : option Item) : jsstring :=
  let cleanedSsid := trim (field ssid item) in
  let escapedSsid := escapeWifi cleanedSsid in
  if itemIsOpen item then lit "WIFI:T:nopass;S:" ++ escapedSsid ++ lit ";;"
  else
    let cleanedPassword := trim (field password item) in
    let escapedPassword := escapeWifi cleanedPassword in
    lit "WIFI:T:WPA;S:" ++ escapedSsid ++ lit ";P:" ++ escapedPassword
      ++ lit ";;".

(** What the payload format asks of an escaped field: every special code
    unit is preceded by one inserted backslash, the others are kept. *)
Inductive Escaped : jsstring -> jsstring -> Prop :=
| Escaped_nil : Escaped [] []
| Escaped_special c s t :
    In c [92; 59; 44; 58; 34]%N -> Escaped s t ->
    Escaped (c :: s) (BACKSLASH :: c :: t)
| Escaped_plain c s t :
    ~ In c [92; 59; 44; 58; 34]%N -> Escaped s t ->
    Escaped (c :: s) (c :: t).

Definition countDots (s : jsstring) : nat :=
  length (filter (N.eqb DOT) s).

End JsString.

Import JsString.

(* ===================================================================== *)
(** * The rounding of the arithmetic *)
(* ===================================================================== *)

Module Double.

(** The numbers of JavaScript are binary64 numbers: every operation
    gives the number of 53 bits that is nearest to the exact result, the
    even one of two that are equally near. A finite number is kept here
    as the rational it stands for. The range of the exponent is not
    modelled: the sizes and the colours of the page stay far from
    overflow, and from the subnormal numbers. *)

(** The exponent of a positive rational: [2 ^ mag x <= x < 2 ^ (mag x + 1)]. *)
Definition mag (x : Q) : Z :=
  let e0 := Z.log2 (Qnum x) - Z.log2 (Zpos (Qden x)) in
  if Qle_bool (2 ^ e0) x then e0 else e0 - 1.

(** To the nearest integer, a half to the even one. *)
Definition rne (q : Q) : Z :=
  let f := Qfloor q in
  match (q - inject_Z f ?= 1 # 2)%Q with
  | Lt => f
  | Gt => f + 1
  | Eq => if Z.even f then f else f + 1
  end.

(** A positive number rounded to 53 bits: to the nearest multiple of
    [2 ^ (mag x - 52)]. *)
Definition roundPos (x : Q) : Q :=
  (inject_Z (rne (x * 2 ^ (52 - mag x))) * 2 ^ (mag x - 52))%Q.

(** The binary64 number nearest to [x], as a reduced fraction. *)
Definition round53 (x : Q) : Q :=
  match (x ?= 0)%Q with
  | Eq => 0%Q
  | Gt => Qred (roundPos x)
  | Lt => Qred (- roundPos (- x))
  end.

(** [x + y], [x - y], [x * y] and [x / y] on finite numbers. *)
Definition fadd (x y : Q) : Q := round53 (x + y).
Definition fsub (x y : Q) : Q := round53 (x - y).
Definition fmul (x y : Q) : Q := round53 (x * y).
Definition fdiv (x y : Q) : Q := round53 (x / y).

(** [Math.sqrt(x)] for [0 <= x], correctly rounded. The number is scaled
    by a power of four so that the integer part [r] of its root has 54
    bits; the root is then rounded to the even or to the odd side of
    [r]. *)
Definition sqrt53 (x : Q) : Q :=
  match (x ?= 0)%Q with
  | Gt =>
      let k := 53 - mag x / 2 in
      let scaled := (x * 2 ^ (2 * k))%Q in
      let r := Z.sqrt (Qfloor scaled) in
      let h := r / 2 in
      let m :=
        if Z.even r then h
        else if Qeq_bool scaled (inject_Z (r * r))
             then (if Z.even h then h else h + 1)
             else h + 1 in
      Qred (inject_Z m * 2 ^ (1 - k))%Q
  | _ => 0%Q
  end.

(** The largest relative error of a rounding, [2 ^ -53]. *)
Definition eps : Q := 1 # 9007199254740992.

(** The numbers of 53 bits. *)
Definition representable (x : Q) : Prop :=
  exists m e,
    Z.abs m <= 9007199254740992 /\ (x == inject_Z m * 2 ^ e)%Q.

End Double.

Import Double.

(* ===================================================================== *)
(** * Numbers of the layout arithmetic *)
(* ===================================================================== *)

Module JsNum.

(** A number is a rational, an infinity or NaN. The results of the
    arithmetic are rounded as [Double] has it; signed zeros are not told
    apart (a zero divisor counts as positive zero, which is what image
    dimensions give). *)
Inductive num :=
| Fin (q : Q)
| PInf
| NInf
| NaN.

Definition ofZ (z : Z) : num := Fin (inject_Z z).

Definition nsign (a : num) : Z :=
  match a with
  | Fin q => Z.sgn (Qnum q)
  | PInf => 1
  | NInf => -1
  | NaN => 0
  end.

Definition ofSign (s : Z) : num :=
  match s with
  | Z0 => NaN
  | Zpos _ => PInf
  | Zneg _ => NInf
  end.

Definition nopp (a : num) : num :=
  match a with
  | Fin q => Fin (- q)
  | PInf => NInf
  | NInf => PInf
  | NaN => NaN
  end.

Definition nadd (a b : num) : num :=
  match a, b with
  | NaN, _ | _, NaN => NaN
  | Fin x, Fin y => Fin (fadd x y)
  | PInf, NInf | NInf, PInf => NaN
  | PInf, _ | _, PInf => PInf
  | NInf, _ | _, NInf => NInf
  end.

Definition nsub (a b : num) : num := nadd a (nopp b).

Definition nmul (a b : num) : num :=
  match a, b with
  | NaN, _ | _, NaN => NaN
  | Fin x, Fin y => Fin (fmul x y)
  | _, _ => ofSign (nsign a * nsign b)
  end.

Definition ndiv (a b : num) : num :=
  match a, b with
  | NaN, _ | _, NaN => NaN
  | Fin x, Fin y =>
      if Qeq_bool y 0 then ofSign (Z.sgn (Qnum x)) else Fin (fdiv x y)
  | Fin _, _ => Fin 0
  | _, Fin y => ofSign (nsign a * (if Qle_bool 0 y then 1 else -1))
  | _, _ => NaN
  end.

(** [a <= b]; every comparison with NaN is false. *)
Definition nle (a b : num) : bool :=
  match a, b with
  | NaN, _ | _, NaN => false
  | Fin x, Fin y => Qle_bool x y
  | NInf, _ => true
  | _, PInf => true
  | _, _ => false
  end.

(** [a >= b] *)
Definition nge (a b : num) : bool := nle b a.

(** [Math.min(a, b)] and [Math.max(a, b)] *)
Definition nmin (a b : num) : num :=
  match a, b with
  | NaN, _ | _, NaN => NaN
  | _, _ => if nle a b then a else b
  end.

Definition nmax (a b : num) : num :=
  match a, b with
  | NaN, _ | _, NaN => NaN
  | _, _ => if nle a b then b else a
  end.

(** [Math.round(a)]: to the nearest integer, halves upwards. *)
Definition nround (a : num) : num :=
  match a with
  | Fin q => Fin (inject_Z (Qfloor (q + (1 # 2))))
  | _ => a
  end.

End JsNum.

Import JsNum.

Declare Scope num_scope.
Delimit Scope num_scope with num.
Bind Scope num_scope with num.
Notation "a + b" := (nadd a b) : num_scope.
Notation "a - b" := (nsub a b) : num_scope.
Notation "a * b" := (nmul a b) : num_scope.
Notation "a / b" := (ndiv a b) : num_scope.
Notation "a <=? b" := (nle a b) : num_scope.
Notation "a >=? b" := (nge a b) (at level 70) : num_scope.
Coercion ofZ : Z >-> num.

(* ===================================================================== *)
(** * The 2D context, as far as the sticker uses it *)
(* ===================================================================== *)

Module Canvas2D.

(** [ctx.font], as [setFont] writes it: the weight and the size in
    pixels, the family being fixed. *)
Record Font := { weight : Z; sizePx : Z }.

(** A decoded image: what the layout reads of it. *)
Record Image := { img_width : Z; img_height : Z }.

(** The calls that paint, with the context state they are made in. The
    canvas ignores a call with an argument that is not finite. *)
Inductive DrawCall :=
| FillRect (fillStyle : string) (x y w h : num)
| DrawImage (img : Image) (x y w h : num) (smoothing : bool) (alpha : Q)
| FillText (text : jsstring) (font : Font) (align baseline : string)
    (x y : num).

Record Ctx := {
  font : Font;
  fillStyle : string;
  textAlign : string;
  textBaseline : string;
  imageSmoothingEnabled : bool;
  globalAlpha : Q;
  calls : list DrawCall
}.

(** The context of a fresh canvas. *)
Definition freshCtx : Ctx :=
  {| font := {| weight := 400; sizePx := 10 |};
     fillStyle := "#000000";
     textAlign := "start";
     textBaseline := "alphabetic";
     imageSmoothingEnabled := true;
     globalAlpha := 1;
     calls := [] |}.

Definition withFont (ctx : Ctx) (f : Font) : Ctx :=
  {| font := f; fillStyle := fillStyle ctx; textAlign := textAlign ctx;
     textBaseline := textBaseline ctx;
     imageSmoothingEnabled := imageSmoothingEnabled ctx;
     globalAlpha := globalAlpha ctx; calls := calls ctx |}.

Definition withFillStyle (ctx : Ctx) (s : string) : Ctx :=
  {| font := font ctx; fillStyle := s; textAlign := textAlign ctx;
     textBaseline := textBaseline ctx;
     imageSmoothingEnabled := imageSmoothingEnabled ctx;
     globalAlpha := globalAlpha ctx; calls := calls ctx |}.

Definition withTextAlign (ctx : Ctx) (s : string) : Ctx :=
  {| font := font ctx; fillStyle := fillStyle ctx; textAlign := s;
     textBaseline := textBaseline ctx;
     imageSmoothingEnabled := imageSmoothingEnabled ctx;
     globalAlpha := globalAlpha ctx; calls := calls ctx |}.

Definition withTextBaseline (ctx : Ctx) (s : string) : Ctx :=
  {| font := font ctx; fillStyle := fillStyle ctx; textAlign := textAlign ctx;
     textBaseline := s;
     imageSmoothingEnabled := imageSmoothingEnabled ctx;
     globalAlpha := globalAlpha ctx; calls := calls ctx |}.

Definition withSmoothing (ctx : Ctx) (b : bool) : Ctx :=
  {| font := font ctx; fillStyle := fillStyle ctx; textAlign := textAlign ctx;
     textBaseline := textBaseline ctx;
     imageSmoothingEnabled := b;
     globalAlpha := globalAlpha ctx; calls := calls ctx |}.

Definition withAlpha (ctx : Ctx) (a : Q) : Ctx :=
  {| font := font ctx; fillStyle := fillStyle ctx; textAlign := textAlign ctx;
     textBaseline := textBaseline ctx;
     imageSmoothingEnabled := imageSmoothingEnabled ctx;
     globalAlpha := a; calls := calls ctx |}.

Definition record (ctx : Ctx) (c : DrawCall) : Ctx :=
  {| font := font ctx; fillStyle := fillStyle ctx; textAlign := textAlign ctx;
     textBaseline := textBaseline ctx;
     imageSmoothingEnabled := imageSmoothingEnabled ctx;
     globalAlpha := globalAlpha ctx; calls := calls ctx ++ [c] |}.

Definition fillRect (ctx : Ctx) (x y w h : num) : Ctx :=
  record ctx (FillRect (fillStyle ctx) x y w h).

Definition drawImage (ctx : Ctx) (img : Image) (x y w h : num) : Ctx :=
  record ctx
    (DrawImage img x y w h (imageSmoothingEnabled ctx) (globalAlpha ctx)).

Definition fillText (ctx : Ctx) (text : jsstring) (x y : num) : Ctx :=
  record ctx
    (FillText text (font ctx) (textAlign ctx) (textBaseline ctx) x y).

(** const setFont = (ctx, { weight = 700, sizePx = 48 } = {}) => ... *)
Definition setFont (ctx : Ctx) (weight sizePx : Z) : Ctx :=
  withFont ctx {| weight := weight; sizePx := sizePx |}.

(** The contexts that differ in the font at most. *)
Definition sameButFont (ctx ctx' : Ctx) : Prop :=
  fillStyle ctx' = fillStyle ctx /\
  textAlign ctx' = textAlign ctx /\
  textBaseline ctx' = textBaseline ctx /\
  imageSmoothingEnabled ctx' = imageSmoothingEnabled ctx /\
  globalAlpha ctx' = globalAlpha ctx /\
  calls ctx' = calls ctx.

Section Measured.

(** [ctx.measureText(text).width] in the font of the context: the text
    metrics of the browser, a fixed function. *)
Variable measureText : Font -> jsstring -> Q.

Section FitLoop.

Variables (text : jsstring) (maxWidth : Q) (weight minPx : Z).

(** The [while] loop of [fitTextSize], entered with the current
    [sizePx]. *)
Equations? fitLoop (ctx : Ctx) (sizePx : Z) : Ctx * Z
  by wf (Z.to_nat (sizePx - minPx)) lt :=
  fitLoop ctx sizePx with inspect (sizePx >? minPx) := {
    | exist _ false _ := (ctx, minPx)
    | exist _ true _ :=
        let ctx' := setFont ctx weight sizePx in
        if Qle_bool (measureText (font ctx') text) maxWidth
        then (ctx', sizePx)
        else fitLoop ctx' (sizePx - 2) }.
Proof. lia. Qed.

End FitLoop.

(** Whether the text is within [maxWidth] at the size [sizePx]. *)
Definition fitsAt (text : jsstring) (maxWidth : Q) (weight sizePx : Z)
    : bool :=
  Qle_bool (measureText {| weight := weight; sizePx := sizePx |} text)
    maxWidth.

(** const fitTextSize = (ctx, { text, maxWidth, weight = 800, startPx,
    minPx }) => ... *)
Definition fitTextSize (ctx : Ctx) (text : jsstring) (maxWidth : Q)
    (weight startPx minPx : Z) : Ctx * Z :=
  fitLoop text maxWidth weight minPx ctx startPx.

(** const drawCenteredText = (ctx, { text, centerX, y, maxWidth, weight,
    startPx, minPx }) => ... *)
Definition drawCenteredText (ctx : Ctx) (text : jsstring)
    (centerX y : num) (maxWidth : Q) (weight startPx minPx : Z)
    : Ctx * Z :=
  let '(ctx, sizePx) := fitTextSize ctx text maxWidth weight startPx minPx in
  let ctx := setFont ctx weight sizePx in
  let ctx := withTextAlign ctx "center" in
  let ctx := withTextBaseline ctx "top" in
  let ctx := fillText ctx text centerX y in
  (ctx, sizePx).

End Measured.

End Canvas2D.

Import Canvas2D.

(* ===================================================================== *)
(** * The sticker *)
(* ===================================================================== *)

Module Sticker.

(** const LABEL_OUT_PX = { w: 1000, h: 600 } *)
Definition LABEL_OUT_PX_w : Z := 1000.
Definition LABEL_OUT_PX_h : Z := 600.

Definition ROTATE_CONTENT_FOR_HORIZONTAL_LABEL : bool := true.

(** const makeStickerCanvas = () => ...: the width and the height of the
    base canvas. *)
Definition makeStickerCanvas : Z * Z :=
  if negb ROTATE_CONTENT_FOR_HORIZONTAL_LABEL
  then (LABEL_OUT_PX_w, LABEL_OUT_PX_h)
  else (LABEL_OUT_PX_h, LABEL_OUT_PX_w).

(** The three images that a sticker loads, in the order of the array
    of [Promise.all]. *)
Inductive Slot := LogoSlot | WifiSlot | QrSlot.

(** What the page finds around it when it builds a sticker: whether the
    base canvas and the canvas of the rotation give a 2D context, what
    [loadImage] resolves to for the logo, the footer icon and the QR
    code ([None] when the image fails to load), and the order in time
    in which the three loads settle. *)
Record Env := {
  has2d : bool;
  rotate2d : bool;
  logoLoad : option Image;
  wifiLoad : option Image;
  qrLoad : option Image;
  settleOrder : list Slot
}.

(** The PNG that [toDataURL] encodes: the canvas it is taken from, and
    the calls that painted the base canvas. *)
Record Png := {
  png_width : Z;
  png_height : Z;
  png_rotated : bool;
  png_calls : list DrawCall
}.

(** How the promise of [buildWifiStickerPng] settles. *)
Inductive Outcome :=
| Resolved (value : option Png)
| Rejected (message : jsstring).

(** The variables of the packing loop. *)
Record Pack := {
  qrSize : Z;
  gapQrText : Z;
  passStartPx : Z;
  ssidStartPx : Z;
  netStartPx : Z
}.

Definition initPack : Pack :=
  {| qrSize := 440; gapQrText := 38;
     passStartPx := 88; ssidStartPx := 56; netStartPx := 74 |}.

(** The invariant of the packing loop: the sizes stay on the steps of
    their descents, and a later stage of the shrinking is only entered
    when the earlier ones are through. *)
Definition packInv (st : Pack) : Prop :=
  356 <= qrSize st <= 440 /\ qrSize st mod 12 = 8 /\
  26 <= gapQrText st <= 38 /\ gapQrText st mod 4 = 2 /\
  60 <= passStartPx st <= 88 /\
  40 <= ssidStartPx st <= 56 /\
  52 <= netStartPx st <= 74 /\
  (gapQrText st < 38 -> qrSize st <= 360) /\
  (passStartPx st < 88 \/ ssidStartPx st < 56 \/ netStartPx st < 74 ->
   qrSize st <= 360 /\ gapQrText st <= 26).

Definition padX : Z := 55.
Definition padTop : Z := 55.
Definition padBottom : Z := 55.
Definition gapLogoQr : Z := 22.
Definition gapPassSsid : Z := 6.
Definition gapSsidNet : Z := 4.
Definition gapNetFooter : Z := 14.

Definition labelW : Z := fst makeStickerCanvas.
Definition labelH : Z := snd makeStickerCanvas.
Definition maxTextW : Z := labelW - padX * 2.

(** The three fitted sizes. *)
Record Fitted := { passPx : Z; ssidPx : Z; netPx : Z }.

(** How the loop is left. [end_i] is the value of [i] then, [end_break]
    tells whether it was left by [break]. *)
Record LoopEnd := {
  end_ctx : Ctx;
  end_pack : Pack;
  end_i : Z;
  end_break : bool
}.

(** The iterations that were run. *)
Definition iterations (e : LoopEnd) : Z :=
  if end_break e then end_i e + 1 else end_i e.

(** The end of an iteration that did not fit:
    first reduce QR size, then reduce gap between QR and text, then
    shrink fonts. *)
Definition shrink (st : Pack) : Pack :=
  if qrSize st >? 360 then
    {| qrSize := qrSize st - 12; gapQrText := gapQrText st;
       passStartPx := passStartPx st; ssidStartPx := ssidStartPx st;
       netStartPx := netStartPx st |}
  else if gapQrText st >? 26 then
    {| qrSize := qrSize st; gapQrText := gapQrText st - 4;
       passStartPx := passStartPx st; ssidStartPx := ssidStartPx st;
       netStartPx := netStartPx st |}
  else
    {| qrSize := qrSize st; gapQrText := gapQrText st;
       passStartPx := Z.max 60 (passStartPx st - 4);
       ssidStartPx := Z.max 40 (ssidStartPx st - 3);
       netStartPx := Z.max 52 (netStartPx st - 3) |}.

(** The iterations the loop has left at [i]. *)
Definition remaining (i : Z) : nat := Z.to_nat (18 - i).
Arguments remaining : simpl never.

Section Build.

Variable measureText : Font -> jsstring -> Q.

Section Pack.

Variables (passText ssidText netText : jsstring).
(** The heights of the scaled logo and footer icon. *)
Variables (logoH wifiH : num).

(** Determine fitted font sizes at current start sizes. *)
Definition fitAll (ctx : Ctx) (st : Pack) : Ctx * Fitted :=
  let r1 := fitTextSize measureText ctx passText (inject_Z maxTextW)
              900 (passStartPx st) 42 in
  let r2 := fitTextSize measureText (fst r1) ssidText
              (inject_Z maxTextW) 800 (ssidStartPx st) 28 in
  let r3 := fitTextSize measureText (fst r2) netText
              (inject_Z maxTextW) 900 (netStartPx st) 34 in
  (fst r3, {| passPx := snd r1; ssidPx := snd r2; netPx := snd r3 |}).

(** The test [fits && required <= availH] of an iteration. *)
Definition layoutFits (st : Pack) (f : Fitted) : bool :=
  let availH := (labelH - padTop - padBottom)%num in
  let footerTop := (labelH - padBottom - wifiH)%num in
  let netTop := (footerTop - gapNetFooter - (netPx f))%num in
  let ssidTop := (netTop - gapSsidNet - (ssidPx f))%num in
  let passTop := (ssidTop - gapPassSsid - (passPx f))%num in
  let qrTop := (padTop + logoH + gapLogoQr)%num in
  let fits :=
    (passTop >=? qrTop + (qrSize st) + (gapQrText st))%num
    && (qrTop + (qrSize st) <=?
          footerTop - gapNetFooter
          - ((passPx f) + (ssidPx f) + (netPx f) + gapPassSsid
             + gapSsidNet))%num in
  let required :=
    ((qrTop - padTop) + (qrSize st) + (gapQrText st)
     + (footerTop - passTop) + wifiH)%num in
  fits && (required <=? availH)%num.

(** for (let i = 0; i < 18; i += 1) ..., entered with the current
    [i]. *)
Equations? packLoop (i : Z) (ctx : Ctx) (st : Pack) : LoopEnd
  by wf (remaining i) lt :=
  packLoop i ctx st with inspect (i <? 18) := {
    | exist _ false _ :=
        {| end_ctx := ctx; end_pack := st; end_i := i;
           end_break := false |}
    | exist _ true _ :=
        let r := fitAll ctx st in
        if layoutFits st (snd r)
        then {| end_ctx := fst r; end_pack := st; end_i := i;
                end_break := true |}
        else packLoop (i + 1) (fst r) (shrink st) }.
Proof. unfold remaining. lia. Qed.

End Pack.

Definition loadOf (env : Env) (slot : Slot) : option Image :=
  match slot with
  | LogoSlot => logoLoad env
  | WifiSlot => wifiLoad env
  | QrSlot => qrLoad env
  end.

Definition failed (env : Env) (slot : Slot) : bool :=
  match loadOf env slot with
  | Some _ => false
  | None => true
  end.

(** The load that fails first, when one fails: the first in the order
    in which the loads settle; a load that this order leaves out
    settles behind the others, in the order of the array. *)
Definition firstFailure (env : Env) : Slot :=
  match filter (failed env) (settleOrder env) with
  | slot :: _ => slot
  | [] =>
      if failed env LogoSlot then LogoSlot
      else if failed env WifiSlot then WifiSlot
      else QrSlot
  end.

Definition srcOf (qrDataUrl : jsstring) (slot : Slot) : jsstring :=
  match slot with
  | LogoSlot => lit "/logo-red7-dark.png"
  | WifiSlot => lit "/wifi-footer%20copy.svg"
  | QrSlot => qrDataUrl
  end.

(** The images of [Promise.all], or the message of its rejection, which
    is that of the load that fails first. *)
Definition loadAll (env : Env) (qrDataUrl : jsstring)
    : (Image * Image * Image) + jsstring :=
  match logoLoad env, wifiLoad env, qrLoad env with
  | Some logoImg, Some wifiImg, Some qrImg =>
      inl (logoImg, wifiImg, qrImg)
  | _, _, _ =>
      inr (lit "No se pudo cargar la imagen: "
             ++ srcOf qrDataUrl (firstFailure env))
  end.

Definition wifiTargetH : Z := 56.
Definition logoTargetH : Z := 92.

Definition wifiScale (wifiImg : Image) : num :=
  (wifiTargetH / (img_height wifiImg))%num.
Definition wifiW (wifiImg : Image) : num :=
  nround ((img_width wifiImg) * wifiScale wifiImg)%num.
Definition wifiH (wifiImg : Image) : num :=
  nround ((img_height wifiImg) * wifiScale wifiImg)%num.

Definition logoMaxW : Z := labelW - padX * 2.
Definition logoScale (logoImg : Image) : num :=
  nmin (logoMaxW / (img_width logoImg))%num
       (logoTargetH / (img_height logoImg))%num.
Definition logoW (logoImg : Image) : num :=
  nround ((img_width logoImg) * logoScale logoImg)%num.
Definition logoH (logoImg : Image) : num :=
  nround ((img_height logoImg) * logoScale logoImg)%num.

Definition passTextOf (item : option Item) : jsstring :=
  if itemIsOpen item then lit "OPEN" else field password item.

(** The packing loop of [buildWifiStickerPng], from its initial
    values. *)
Definition pack (item : option Item) (logoImg wifiImg : Image)
    (ctx : Ctx) : LoopEnd :=
  packLoop (passTextOf item) (field ssid item) (field networkType item)
    (logoH logoImg) (wifiH wifiImg) 0 ctx initPack.

(** What [buildWifiStickerPng] does behind the loop: it paints the logo
    and the QR code from the top, the three lines of text and the
    footer icon from the bottom. *)
Definition paint (item : option Item) (logoImg wifiImg qrImg : Image)
    (ctx : Ctx) (st : Pack) : Ctx :=
  let passText := passTextOf item in
  let ssidText := field ssid item in
  let netText := field networkType item in
  let centerX := (labelW / 2)%num in
  let maxW := inject_Z maxTextW in
  let wifiW := wifiW wifiImg in
  let wifiH := wifiH wifiImg in
  let logoW := logoW logoImg in
  let logoH := logoH logoImg in
  let qrSize := qrSize st in
  let y := padTop in
  let ctx := withSmoothing ctx true in
  let ctx := drawImage ctx logoImg (nround (centerX - logoW / 2))%num y
               logoW logoH in
  let y := (y + (logoH + gapLogoQr))%num in
  let ctx := withSmoothing ctx false in
  let ctx := drawImage ctx qrImg (nround (centerX - qrSize / 2))%num y
               qrSize qrSize in
  let footerY := (labelH - padBottom - wifiH)%num in
  let rn := fitTextSize measureText ctx netText maxW 900
              (netStartPx st) 34 in
  let rs := fitTextSize measureText (fst rn) ssidText maxW 800
              (ssidStartPx st) 28 in
  let rp := fitTextSize measureText (fst rs) passText maxW 900
              (passStartPx st) 42 in
  let ctx := fst rp in
  let netTop := (footerY - gapNetFooter - (snd rn))%num in
  let ssidTop := (netTop - gapSsidNet - (snd rs))%num in
  let passTop := (ssidTop - gapPassSsid - (snd rp))%num in
  let minTextTop := (y + qrSize + (gapQrText st))%num in
  let shiftUp := nmax 0 (minTextTop - passTop)%num in
  let ctx := fst (drawCenteredText measureText ctx passText centerX
                    (passTop + shiftUp)%num maxW 900 (passStartPx st) 42) in
  let ctx := fst (drawCenteredText measureText ctx ssidText centerX
                    (ssidTop + shiftUp)%num maxW 800 (ssidStartPx st) 28) in
  let ctx := fst (drawCenteredText measureText ctx netText centerX
                    (netTop + shiftUp)%num maxW 900 (netStartPx st) 34) in
  let ctx := withAlpha ctx (3 # 4)%Q in
  let ctx := withSmoothing ctx true in
  let ctx := drawImage ctx wifiImg (nround (centerX - wifiW / 2))%num
               footerY wifiW wifiH in
  withAlpha ctx 1.

(** The end of [buildWifiStickerPng]: the PNG of the rotated canvas,
    or of the base canvas when the rotation gets no context. *)
Definition encode (env : Env) (ctx : Ctx) : Png :=
  if negb ROTATE_CONTENT_FOR_HORIZONTAL_LABEL then
    {| png_width := labelW; png_height := labelH; png_rotated := false;
       png_calls := calls ctx |}
  else if rotate2d env then
    {| png_width := LABEL_OUT_PX_w; png_height := LABEL_OUT_PX_h;
       png_rotated := true; png_calls := calls ctx |}
  else
    {| png_width := labelW; png_height := labelH; png_rotated := false;
       png_calls := calls ctx |}.

(** The context of the base canvas once the label is filled with
    white. *)
Definition whiteLabel : Ctx :=
  let ctx := freshCtx in
  let ctx := withFillStyle ctx "#ffffff" in
  let ctx := fillRect ctx 0 0 labelW labelH in
  withFillStyle ctx "#000000".

(** const buildWifiStickerPng = async (item, qrDataUrl) => ... *)
Definition buildWifiStickerPng (env : Env) (item : option Item)
    (qrDataUrl : jsstring) : Outcome :=
  if negb (has2d env) then Resolved None
  else
    let ctx := whiteLabel in
    match loadAll env qrDataUrl with
    | inr message => Rejected message
    | inl (logoImg, wifiImg, qrImg) =>
        let e := pack item logoImg wifiImg ctx in
        let ctx := paint item logoImg wifiImg qrImg (end_ctx e)
                     (end_pack e) in
        Resolved (Some (encode env ctx))
    end.

(** The sizes the sticker is painted with: of the QR code, and of the
    three lines of text. *)
Definition resolvedSizes (item : option Item) (logoImg wifiImg : Image)
    : Z * Fitted :=
  let e := pack item logoImg wifiImg whiteLabel in
  let st := end_pack e in
  (qrSize st,
   snd (fitAll (passTextOf item) (field ssid item)
          (field networkType item) (end_ctx e) st)).

(** The calls that paint the QR code (without smoothing) and a line of
    text, whatever their position. *)
Definition paintsQr (qrImg : Image) (size : Z) (cs : list DrawCall)
    : Prop :=
  exists x y alpha, In (DrawImage qrImg x y size size false alpha) cs.

Definition paintsText (text : jsstring) (weight size : Z)
    (cs : list DrawCall) : Prop :=
  exists x y,
    In (FillText text {| weight := weight; sizePx := size |}
          "center" "top" x y) cs.

End Build.

End Sticker.

Import Sticker.

(* ===================================================================== *)
(** * Bitmaps *)
(* ===================================================================== *)

Module Pixels.

(** A pixel: four bytes. *)
Record Rgba := { red : Z; green : Z; blue : Z; alpha : Z }.

Definition transparent : Rgba :=
  {| red := 0; green := 0; blue := 0; alpha := 0 |}.

(** The content of a canvas: its size and its pixels, [bmp_at x y] for
    column [x] and row [y]. *)
Record Bitmap := {
  bmp_width : Z;
  bmp_height : Z;
  bmp_at : Z -> Z -> Rgba
}.

Definition inside (w h x y : Z) : bool :=
  (0 <=? x) && (x <? w) && (0 <=? y) && (y <? h).

(** The pixel of a canvas at a position, transparent outside of it. *)
Definition pixelAt (c : Bitmap) (x y : Z) : Rgba :=
  if inside (bmp_width c) (bmp_height c) x y then bmp_at c x y
  else transparent.

(** What a call returns, or the exception it throws. *)
Inductive Result (A : Type) :=
| Ok (a : A)
| Throw (name : string).
Arguments Ok {A} a.
Arguments Throw {A} name.

End Pixels.

Import Pixels.

(* ===================================================================== *)
(** * The rotation of the composed sticker *)
(* ===================================================================== *)

Module Rotation.

(** The current transformation of a context: the point [(x, y)] of the
    drawing goes to [(ma x + mc y + me, mb x + md y + mf)] on the
    canvas. *)
Record Matrix := { ma : Z; mb : Z; mc : Z; md : Z; me : Z; mf : Z }.

Definition identity : Matrix :=
  {| ma := 1; mb := 0; mc := 0; md := 1; me := 0; mf := 0 |}.

(** The angles the page rotates by. [Math.PI / 2] stands for the exact
    quarter turn: its cosine is taken as 0 and its sine as 1. *)
Inductive Angle := HalfPi | MinusHalfPi.

Definition cosine (t : Angle) : Z := 0.
Definition sine (t : Angle) : Z :=
  match t with
  | HalfPi => 1
  | MinusHalfPi => -1
  end.

(** ctx.translate(tx, ty) *)
Definition translate (m : Matrix) (tx ty : Z) : Matrix :=
  {| ma := ma m; mb := mb m; mc := mc m; md := md m;
     me := ma m * tx + mc m * ty + me m;
     mf := mb m * tx + md m * ty + mf m |}.

(** ctx.rotate(angle) *)
Definition rotate (m : Matrix) (t : Angle) : Matrix :=
  {| ma := ma m * cosine t + mc m * sine t;
     mb := mb m * cosine t + md m * sine t;
     mc := - ma m * sine t + mc m * cosine t;
     md := - mb m * sine t + md m * cosine t;
     me := me m; mf := mf m |}.

(** The pixel of the drawing whose image covers the pixel [(X, Y)] of
    the canvas: the centre of [(X, Y)] taken back through the
    transformation, in halves of a pixel. The transformations built from
    translations and quarter turns have determinant 1, so the linear
    part is inverted by its adjugate. *)
Definition sourceOf (m : Matrix) (X Y : Z) : Z * Z :=
  let det := ma m * md m - mb m * mc m in
  let dx := 2 * X + 1 - 2 * me m in
  let dy := 2 * Y + 1 - 2 * mf m in
  let ux := det * (md m * dx - mc m * dy) in
  let uy := det * (- mb m * dx + ma m * dy) in
  (ux / 2, uy / 2).

(** ctx.drawImage(srcCanvas, 0, 0) on a canvas of [outW] by [outH] that
    is still transparent, where compositing leaves the pixel of the
    source; what falls outside of the canvas is clipped, what the source
    does not cover stays transparent. *)
Definition drawImage (m : Matrix) (srcCanvas : Bitmap) (outW outH : Z)
    : Bitmap :=
  {| bmp_width := outW;
     bmp_height := outH;
     bmp_at := fun X Y =>
       if inside outW outH X Y
       then let p := sourceOf m X Y in pixelAt srcCanvas (fst p) (snd p)
       else transparent |}.

Definition drawable (srcCanvas : Bitmap) : bool :=
  negb ((bmp_width srcCanvas =? 0) || (bmp_height srcCanvas =? 0)).

(** const rotateCanvas90CWTo = (srcCanvas, outW, outH) => ...; [has2d]
    tells whether the new canvas gives a 2D context. *)
Definition rotateCanvas90CWTo (has2d : bool) (srcCanvas : Bitmap)
    (outW outH : Z) : Result (option Bitmap) :=
  if negb has2d then Ok None
  else
    let m := identity in
    let m := translate m outW 0 in
    let m := rotate m HalfPi in
    if drawable srcCanvas then Ok (Some (drawImage m srcCanvas outW outH))
    else Throw "InvalidStateError".

(** Modelled from the spec: the rotation by 90 degrees counter-clockwise
    that the round trip of the testable properties names. The page has
    no such function; it is written here as the mirror image of
    [rotateCanvas90CWTo], with the same calls. *)
Definition rotateCanvas90CCWTo (has2d : bool) (srcCanvas : Bitmap)
    (outW outH : Z) : Result (option Bitmap) :=
  if negb has2d then Ok None
  else
    let m := identity in
    let m := translate m 0 outH in
    let m := rotate m MinusHalfPi in
    if drawable srcCanvas then Ok (Some (drawImage m srcCanvas outW outH))
    else Throw "InvalidStateError".

End Rotation.

(* ===================================================================== *)
(** * The bounds of the content of an image *)
(* ===================================================================== *)

Module Bounds.

(** A decoded image. [img_raster] is the image as [drawImage] paints it
    on the canvas of the function, [img_readable] tells whether the
    pixels of that canvas may be read back ([getImageData] throws on a
    canvas tainted by an image of another origin). *)
Record Img := {
  naturalWidth : Z;
  naturalHeight : Z;
  width : Z;
  height : Z;
  img_raster : Z -> Z -> Rgba;
  img_readable : bool
}.

(** The options, with their defaults. *)
Record Options := {
  alphaThreshold : Z;
  tolerance : Z;
  sampleSize : Z;
  lumaDelta : Z
}.

Definition defaults : Options :=
  {| alphaThreshold := 10; tolerance := 24; sampleSize := 12;
     lumaDelta := 10 |}.

(** The rectangle the function returns. *)
Record Box := { box_x : Z; box_y : Z; box_w : Z; box_h : Z }.

(** [a || b] on numbers *)
Definition orElse (a b : Z) : Z := if a =? 0 then b else a.

(** const clamp = (n, min, max) => Math.max(min, Math.min(max, n)) *)
Definition clamp (n min max : Z) : Z := Z.max min (Z.min max n).

(** A component of a pixel as the canvas holds it, in a byte. *)
Definition byte (z : Z) : Z := Z.max 0 (Z.min 255 z).

Definition bytes (p : Rgba) : list Z :=
  [byte (red p); byte (green p); byte (blue p); byte (alpha p)].

(** [ctx.getImageData(sx, sy, sw, sh).data]: the pixels of the rectangle
    row by row, four bytes each. *)
Definition getImageData (c : Bitmap) (sx sy sw sh : Z) : list Z :=
  flat_map
    (fun k => bytes (pixelAt c (sx + Z.of_nat k mod sw)
                               (sy + Z.of_nat k / sw)))
    (seq 0 (Z.to_nat (sw * sh))).

(** [d[i]] *)
Definition at_ (d : list Z) (i : Z) : Z := nth (Z.to_nat i) d 0.

(** The sums over the corners: integers far below [2 ^ 53], which
    binary64 adds without rounding. *)
Record Sums := { sumR : Z; sumG : Z; sumB : Z; count : Z }.

(** for (let i = 0; i < d.length; i += 4) ... over the data of one
    corner, whose length is a multiple of four. *)
Fixpoint sample (alphaThreshold : Z) (d : list Z) (acc : Sums) : Sums :=
  match d with
  | r :: g :: b :: a :: d' =>
      if a <=? alphaThreshold then sample alphaThreshold d' acc
      else sample alphaThreshold d'
             {| sumR := sumR acc + r; sumG := sumG acc + g;
                sumB := sumB acc + b; count := count acc + 1 |}
  | _ => acc
  end.

(** The estimate of the background. *)
Record Background := { bgR : Q; bgG : Q; bgB : Q; bgL : Q }.

(** [0.2126 * r + 0.7152 * g + 0.0722 * b]; the three factors are the
    binary64 numbers that the literals stand for. *)
Definition lumaOf (r g b : Q) : Q :=
  fadd (fadd (fmul (round53 (2126 # 10000)) r)
             (fmul (round53 (7152 # 10000)) g))
       (fmul (round53 (722 # 10000)) b).

(** [Math.sqrt(dr * dr + dg * dg + db * db)] *)
Definition distOf (dr dg db : Q) : Q :=
  sqrt53 (fadd (fadd (fmul dr dr) (fmul dg dg)) (fmul db db)).

Definition Qmax (a b : Q) : Q := if Qle_bool a b then b else a.

(** Whether the scan counts a pixel as content: it is not skipped as
    transparent, nor as close to the background, nor as an almost
    background bright pixel. *)
Definition isContent (o : Options) (bg : Background) (r g b a : Z)
    : bool :=
  if a <=? alphaThreshold o then false
  else
    let dr := fsub (inject_Z r) (bgR bg) in
    let dg := fsub (inject_Z g) (bgG bg) in
    let db := fsub (inject_Z b) (bgB bg) in
    let dist := distOf dr dg db in
    let luma := lumaOf (inject_Z r) (inject_Z g) (inject_Z b) in
    if Qle_bool dist (inject_Z (tolerance o))
       && Qle_bool (fsub (bgL bg) (inject_Z (lumaDelta o))) luma
    then false
    else if Qle_bool
              (fsub (bgL bg) (Qmax 3 (fdiv (inject_Z (lumaDelta o)) 2)))
              luma
            && Qle_bool dist (fmul (inject_Z (tolerance o)) 2)
    then false
    else true.

(** The extremes of the scan. *)
Record Extent := { minX : Z; minY : Z; maxX : Z; maxY : Z }.

Definition extend (e : Extent) (x y : Z) : Extent :=
  {| minX := if x <? minX e then x else minX e;
     minY := if y <? minY e then y else minY e;
     maxX := if x >? maxX e then x else maxX e;
     maxY := if y >? maxY e then y else maxY e |}.

Definition range (n : Z) : list Z := map Z.of_nat (seq 0 (Z.to_nat n)).

(** The body of the two loops of the scan, at column [x] of row [y]. *)
Definition scanPixel (o : Options) (bg : Background) (data : list Z)
    (w y : Z) (e : Extent) (x : Z) : Extent :=
  let row := y * w * 4 in
  let i := row + x * 4 in
  if isContent o bg (at_ data i) (at_ data (i + 1)) (at_ data (i + 2))
       (at_ data (i + 3))
  then extend e x y
  else e.

Definition scanRow (o : Options) (bg : Background) (data : list Z)
    (w : Z) (e : Extent) (y : Z) : Extent :=
  fold_left (scanPixel o bg data w y) (range w) e.

Definition scan (o : Options) (bg : Background) (data : list Z)
    (w h : Z) : Extent :=
  fold_left (scanRow o bg data w) (range h)
    {| minX := w; minY := h; maxX := -1; maxY := -1 |}.

Definition canvasWidth (img : Img) : Z :=
  Z.max 1 (orElse (orElse (naturalWidth img) (width img)) 1).
Definition canvasHeight (img : Img) : Z :=
  Z.max 1 (orElse (orElse (naturalHeight img) (height img)) 1).

(** The canvas of the function behind [ctx.drawImage(img, 0, 0, w, h)]. *)
Definition canvasOf (img : Img) : Bitmap :=
  {| bmp_width := canvasWidth img; bmp_height := canvasHeight img;
     bmp_at := img_raster img |}.

(** const read = (sx, sy, sw, sh) => ...: the data, or null when
    [getImageData] throws. *)
Definition read (img : Img) (sx sy sw sh : Z) : option (list Z) :=
  if img_readable img && negb ((sw =? 0) || (sh =? 0))
  then Some (getImageData (canvasOf img) sx sy sw sh)
  else None.

Definition cornerRects (w h s : Z) : list (Z * Z) :=
  [(0, 0); (w - s, 0); (0, h - s); (w - s, h - s)].

(** Estimate background from 4 corners. *)
Definition sampleCorners (img : Img) (o : Options) : Sums :=
  let w := canvasWidth img in
  let h := canvasHeight img in
  let s := clamp (sampleSize o) 1 (Z.min w h) in
  fold_left
    (fun acc p =>
       match read img (fst p) (snd p) s s with
       | None => acc
       | Some d => sample (alphaThreshold o) d acc
       end)
    (cornerRects w h s)
    {| sumR := 0; sumG := 0; sumB := 0; count := 0 |}.

Definition backgroundOf (t : Sums) : Background :=
  let r := fdiv (inject_Z (sumR t)) (inject_Z (count t)) in
  let g := fdiv (inject_Z (sumG t)) (inject_Z (count t)) in
  let b := fdiv (inject_Z (sumB t)) (inject_Z (count t)) in
  {| bgR := r; bgG := g; bgB := b; bgL := lumaOf r g b |}.

(** const getBackgroundBoundsFromImage = (img, { alphaThreshold = 10,
    tolerance = 24, sampleSize = 12, lumaDelta = 10 } = {}) => ...;
    [has2d] tells whether the canvas gives a 2D context. *)
Definition getBackgroundBoundsFromImage (has2d : bool) (img : Img)
    (o : Options) : Box :=
  let w := canvasWidth img in
  let h := canvasHeight img in
  let whole := {| box_x := 0; box_y := 0; box_w := w; box_h := h |} in
  if negb has2d then whole
  else
    let t := sampleCorners img o in
    if count t <=? 0 then whole
    else
      let bg := backgroundOf t in
      match read img 0 0 w h with
      | None => whole
      | Some data =>
          let e := scan o bg data w h in
          if (maxX e <? minX e) || (maxY e <? minY e) then whole
          else {| box_x := minX e; box_y := minY e;
                  box_w := maxX e - minX e + 1;
                  box_h := maxY e - minY e + 1 |}
      end.

(** Whether the pixel at [(x, y)] of the image counts as content,
    against the background estimated from its corners. *)
Definition contentAt (img : Img) (o : Options) (x y : Z) : bool :=
  let p := img_raster img x y in
  isContent o (backgroundOf (sampleCorners img o))
    (byte (red p)) (byte (green p)) (byte (blue p)) (byte (alpha p)).

(** The whole image. *)
Definition whole (img : Img) : Box :=
  {| box_x := 0; box_y := 0; box_w := canvasWidth img;
     box_h := canvasHeight img |}.

(** A box is tight around the content of the image: it holds every
    pixel of the content, and each of its four sides touches one. *)
Definition tightBox (img : Img) (o : Options) (b : Box) : Prop :=
  let w := canvasWidth img in
  let h := canvasHeight img in
  (forall x y, 0 <= x < w -> 0 <= y < h -> contentAt img o x y = true ->
     box_x b <= x < box_x b + box_w b /\
     box_y b <= y < box_y b + box_h b) /\
  (exists y, (0 <= box_x b < w /\ 0 <= y < h) /\
     contentAt img o (box_x b) y = true) /\
  (exists y, (0 <= box_x b + box_w b - 1 < w /\ 0 <= y < h) /\
     contentAt img o (box_x b + box_w b - 1) y = true) /\
  (exists x, (0 <= x < w /\ 0 <= box_y b < h) /\
     contentAt img o x (box_y b) = true) /\
  (exists x, (0 <= x < w /\ 0 <= box_y b + box_h b - 1 < h) /\
     contentAt img o x (box_y b + box_h b - 1) = true).

(** The positions of the scan, in its order. *)
Definition coords (w h : Z) : list (Z * Z) :=
  flat_map (fun y => map (fun x => (x, y)) (range w)) (range h).

Definition white : Rgba :=
  {| red := 255; green := 255; blue := 255; alpha := 255 |}.
Definition black : Rgba :=
  {| red := 0; green := 0; blue := 0; alpha := 255 |}.

(** The synthetic image of the scenario: [w] by [h], white, with a black
    square of side 10 whose corner is at [(x0, y0)]. *)
Definition squareOnWhite (w h x0 y0 : Z) : Img :=
  {| naturalWidth := w; naturalHeight := h; width := w; height := h;
     img_raster := fun x y =>
       if inside 10 10 (x - x0) (y - y0) then black else white;
     img_readable := true |}.

(** The columns (or the rows) of a square of side 10 that a sampled
    corner of side 12 holds, when the square is [m] pixels from the
    edge. *)
Definition cornerOverlap (m : Z) : Z := Z.min 10 (Z.max 0 (12 - m)).

(** The centred square at the margins [x0] and [y0]: whether the
    corners are sampled, the black of the square counts as content, and
    the white around it counts as content just when a corner holds more
    than 15 pixels of the square. *)
Definition squareSampled (x0 y0 : Z) : bool :=
  let img := squareOnWhite (2 * x0 + 10) (2 * y0 + 10) x0 y0 in
  let t := sampleCorners img defaults in
  let bg := backgroundOf t in
  (0 <? count t)
  && isContent defaults bg 0 0 0 255
  && Bool.eqb (isContent defaults bg 255 255 255 255)
       (negb (cornerOverlap x0 * cornerOverlap y0 <=? 15)).

End Bounds.

(* ===================================================================== *)
(** * Sample inputs *)
(* ===================================================================== *)

Module Samples.

(** Text metrics in which every code unit is [7/10] of the font size
    wide. *)
Definition proportional (f : Font) (text : jsstring) : Q :=
  ((7 # 10) * inject_Z (sizePx f) * inject_Z (Z.of_nat (length text)))%Q.

Definition clientNetwork : Item :=
  {| ssid := lit "Red_Cliente_23"; password := lit "hunter2";
     isOpen := false; networkType := lit "5.0" |}.

Definition logo : Image := {| img_width := 400; img_height := 120 |}.
Definition footerIcon : Image := {| img_width := 64; img_height := 64 |}.
Definition qrCode : Image := {| img_width := 512; img_height := 512 |}.

(** A footer icon without natural dimensions, as an SVG file without
    width and height gives: the image loads, and reports 0 by 0. *)
Definition footerIconNoSize : Image := {| img_width := 0; img_height := 0 |}.

Definition browser (wifiImg : Image) : Env :=
  {| has2d := true; rotate2d := true; logoLoad := Some logo;
     wifiLoad := Some wifiImg; qrLoad := Some qrCode;
     settleOrder := [LogoSlot; WifiSlot; QrSlot] |}.

Definition noContext : Env :=
  {| has2d := false; rotate2d := true; logoLoad := Some logo;
     wifiLoad := Some footerIcon; qrLoad := Some qrCode;
     settleOrder := [LogoSlot; WifiSlot; QrSlot] |}.

Definition gradient (w h : Z) : Bitmap :=
  {| bmp_width := w; bmp_height := h;
     bmp_at := fun x y =>
       {| red := x; green := y; blue := x + y; alpha := 255 |} |}.

Definition grey (v : Z) : Rgba :=
  {| red := v; green := v; blue := v; alpha := 255 |}.

(** An image of 34 by 34 pixels of the grey 15, with a square of side 10
    of the grey 5 in its middle. *)
Definition greySquare : Bounds.Img :=
  {| Bounds.naturalWidth := 34; Bounds.naturalHeight := 34;
     Bounds.width := 34; Bounds.height := 34;
     Bounds.img_raster := fun x y =>
       if inside 10 10 (x - 12) (y - 12) then grey 5 else grey 15;
     Bounds.img_readable := true |}.

End Samples.

(* ===================================================================== *)
(** * The form of the page and its downloads *)
(* ===================================================================== *)

Module Page.

(** The class of [safeFilename] without its negation: with the flag that
    ignores case, the letters of both cases, the digits, the hyphen and
    the underscore. *)
Definition isSafeChar (c : N) : bool :=
  ((97 <=? c) && (c <=? 122) || (65 <=? c) && (c <=? 90)
   || (48 <=? c) && (c <=? 57) || (c =? 45) || (c =? 95))%N.

(** const safeFilename = (value) => ...; [None] stands for a value that
    is null or undefined. *)
Definition safeFilename (value : option jsstring) : jsstring :=
  let trimmed := trim (match value with Some v => v | None => [] end) in
  let base := match trimmed with [] => lit "qr" | _ => trimmed end in
  replaceClass (fun c => negb (isSafeChar c)) (fun _ => lit "_") base.

(** The state of the page. *)
Record Form := {
  f_ssid : jsstring;
  f_password : jsstring;
  f_isOpen : bool;
  f_networkType : jsstring;
  f_error : jsstring;
  f_qrs : list Item;
  f_printIndex : option nat
}.

(** The state the page starts in. *)
Definition initialForm : Form :=
  {| f_ssid := []; f_password := []; f_isOpen := false;
     f_networkType := lit "5.0"; f_error := []; f_qrs := [];
     f_printIndex := None |}.

(** const canAdd = useMemo(() => ...) *)
Definition canAdd (st : Form) : bool :=
  let cleanedSsid := trim (f_ssid st) in
  match cleanedSsid with
  | [] => false
  | _ =>
      if f_isOpen st then true
      else (0 <? length (trim (f_password st)))%nat
  end.

Definition errorNoSsid : jsstring := lit "Ingresa el SSID.".
Definition errorNoPassword : jsstring :=
  lit "Ingresa la contrase" ++ [241%N] ++ lit "a o marca Red abierta.".

(** [a || b] on strings *)
Definition orString (a b : jsstring) : jsstring :=
  match a with [] => b | _ => a end.

(** const handleAdd = () => ... *)
Definition handleAdd (st : Form) : Form :=
  let cleanedSsid := trim (f_ssid st) in
  let cleanedPassword := trim (f_password st) in
  let cleanedNetworkType := orString (trim (f_networkType st)) (lit "5.0") in
  let finalNetworkType :=
    orString (sanitizeNumericDot cleanedNetworkType) cleanedNetworkType in
  match cleanedSsid with
  | [] =>
      {| f_ssid := f_ssid st; f_password := f_password st;
         f_isOpen := f_isOpen st; f_networkType := f_networkType st;
         f_error := errorNoSsid; f_qrs := f_qrs st;
         f_printIndex := f_printIndex st |}
  | _ =>
      if negb (f_isOpen st)
         && match cleanedPassword with [] => true | _ => false end
      then
        {| f_ssid := f_ssid st; f_password := f_password st;
           f_isOpen := f_isOpen st; f_networkType := f_networkType st;
           f_error := errorNoPassword; f_qrs := f_qrs st;
           f_printIndex := f_printIndex st |}
      else
        {| f_ssid := []; f_password := []; f_isOpen := false;
           f_networkType := lit "5.0"; f_error := [];
           f_qrs := f_qrs st ++
                    [{| ssid := cleanedSsid; password := cleanedPassword;
                        isOpen := f_isOpen st;
                        networkType := finalNetworkType |}];
           f_printIndex := f_printIndex st |}
  end.

(** [l.filter((value, idx) => keep(value, idx))] *)
Definition filterIdx {A} (keep : A -> nat -> bool) (l : list A) : list A :=
  map fst
    (filter (fun p => keep (fst p) (snd p)) (combine l (seq 0 (length l)))).

(** [prev.filter((_, idx) => idx !== i)] *)
Definition removeAt {A} (i : nat) (l : list A) : list A :=
  filterIdx (fun _ idx => negb (idx =? i)%nat) l.

(** What the user does on the page: the four inputs, and the buttons that
    add an entry and that remove the entry at an index. *)
Inductive Action :=
| SetSsid (value : jsstring)
| SetPassword (value : jsstring)
| ToggleOpen
| SetNetworkType (value : jsstring)
| Add
| Remove (i : nat).

(** The handlers of the inputs and of the buttons. *)
Definition act (st : Form) (a : Action) : Form :=
  match a with
  | SetSsid value =>
      {| f_ssid := value; f_password := f_password st;
         f_isOpen := f_isOpen st; f_networkType := f_networkType st;
         f_error := []; f_qrs := f_qrs st;
         f_printIndex := f_printIndex st |}
  | SetPassword value =>
      {| f_ssid := f_ssid st; f_password := value;
         f_isOpen := f_isOpen st; f_networkType := f_networkType st;
         f_error := []; f_qrs := f_qrs st;
         f_printIndex := f_printIndex st |}
  | ToggleOpen =>
      {| f_ssid := f_ssid st; f_password := f_password st;
         f_isOpen := negb (f_isOpen st); f_networkType := f_networkType st;
         f_error := []; f_qrs := f_qrs st;
         f_printIndex := f_printIndex st |}
  | SetNetworkType value =>
      {| f_ssid := f_ssid st; f_password := f_password st;
         f_isOpen := f_isOpen st;
         f_networkType := sanitizeNumericDot value;
         f_error := []; f_qrs := f_qrs st;
         f_printIndex := f_printIndex st |}
  | Add => handleAdd st
  | Remove i =>
      {| f_ssid := f_ssid st; f_password := f_password st;
         f_isOpen := f_isOpen st; f_networkType := f_networkType st;
         f_error := f_error st; f_qrs := removeAt i (f_qrs st);
         f_printIndex := f_printIndex st |}
  end.

Definition run (actions : list Action) : Form :=
  fold_left act actions initialForm.

(** What holds of an entry of the list. *)
Definition wellStored (it : Item) : Prop :=
  ssid it <> [] /\
  trim (ssid it) = ssid it /\
  trim (password it) = password it /\
  (isOpen it = false -> password it <> []) /\
  networkType it <> [] /\
  Forall (fun c => isDigit c || (c =? DOT)%N = true) (networkType it).

(** What a download link points to: an address (the data of the bare QR
    code, or a file of the site), or the data of a sticker. *)
Inductive Href :=
| Url (src : jsstring)
| StickerPng (png : Png).

(** The link that [handleDownload] clicks. *)
Record Download := { href : Href; download : jsstring }.

(** [!value] on what [capturePrintCanvasPng] returns: null and the empty
    string are falsy. *)
Definition falsy (value : option jsstring) : bool :=
  match value with
  | None | Some [] => true
  | Some (_ :: _) => false
  end.

(** The body of [handleDownload], behind its timer: [capture] is what
    [capturePrintCanvasPng] returns, null when the hidden canvas cannot be
    read. The result is the link that is clicked, if any. *)
Definition handleDownload (measureText : Font -> jsstring -> Q)
    (env : Env) (capture : option jsstring) (qrs : list Item)
    (index : nat) : option Download :=
  match capture, nth_error qrs index with
  | Some qrDataUrl, Some item =>
      if falsy capture then None
      else
        let sticker :=
          match buildWifiStickerPng measureText env (Some item) qrDataUrl
          with
          | Resolved value => value
          | Rejected _ => None
          end in
        let name := safeFilename (Some (ssid item)) ++ lit ".png" in
        match sticker with
        | None => Some {| href := Url qrDataUrl; download := name |}
        | Some png => Some {| href := StickerPng png; download := name |}
        end
  | _, _ => None
  end.

End Page.

(* ===================================================================== *)
(** * The sticker of the customer service *)
(* ===================================================================== *)

Module Attention.

Definition line1 : jsstring :=
  [161%N] ++ lit "Atenci" ++ [243%N] ++ lit "n al cliente".
Definition line2 : jsstring := lit "por WhatsApp!".

Definition padX : Z := 55.
Definition padTop : Z := 65.
Definition qrMaxSize : Z := 520.

(** The side that the QR code is scaled to, with the header ending at
    [y]. *)
Definition target (y : Z) : Z :=
  let availH := labelH - y - 55 in
  Z.max 260 (Z.min qrMaxSize (Z.min (labelW - padX * 2) availH)).

(** const buildAttentionStickerPng = async () => ... of the portrait
    variant; [red7Load] is what [loadImage] resolves to for the QR code
    of the customer service, [None] when it fails to load. *)
Definition buildAttentionStickerPng (measureText : Font -> jsstring -> Q)
    (env : Env) (red7Load : option Image) : Outcome :=
  let centerX := (labelW / 2)%num in
  let maxTextW := labelW - padX * 2 in
  if negb (has2d env) then Resolved None
  else
    let ctx := whiteLabel in
    match red7Load with
    | None =>
        Rejected (lit "No se pudo cargar la imagen: " ++ lit "/Red7QR.png")
    | Some qrImg =>
        let y := padTop in
        let d1 := drawCenteredText measureText ctx line1 centerX y
                    (inject_Z maxTextW) 900 54 34 in
        let y := y + snd d1 + 10 in
        let d2 := drawCenteredText measureText (fst d1) line2 centerX y
                    (inject_Z maxTextW) 900 54 34 in
        let y := y + snd d2 + 26 in
        let scale :=
          nmin (target y / img_width qrImg)%num
               (target y / img_height qrImg)%num in
        let qrW := nround (img_width qrImg * scale)%num in
        let qrH := nround (img_height qrImg * scale)%num in
        let qrX := nround (centerX - qrW / 2)%num in
        let qrY := nround y in
        let ctx := withSmoothing (fst d2) false in
        let ctx := drawImage ctx qrImg qrX qrY qrW qrH in
        Resolved (Some (encode env ctx))
    end.

(** const handlePrintRedQr = () => ...: the link that is clicked. *)
Definition handlePrintRedQr (measureText : Font -> jsstring -> Q)
    (env : Env) (red7Load : option Image) : Page.Download :=
  let sticker :=
    match buildAttentionStickerPng measureText env red7Load with
    | Resolved value => value
    | Rejected _ => None
    end in
  {| Page.href :=
       match sticker with
       | Some png => Page.StickerPng png
       | None => Page.Url (lit "/Red7QR.png")
       end;
     Page.download := lit "atencion-whatsapp.png" |}.

End Attention.

(* ===================================================================== *)
(** * The vertical lines of the landscape variant *)
(* ===================================================================== *)

Module Landscape.

(** The [for] loop of [drawVerticalTwoLine], with [fuel] iterations
    left: the stack of the two lines is brought within [maxStackPx],
    the first line shrinking first. *)
Fixpoint stackLoop (fuel : nat) (lineGap maxStackPx floor t1Px t2Px : Z)
    : Z * Z :=
  match fuel with
  | O => (t1Px, t2Px)
  | S fuel' =>
      let total := t1Px + lineGap + t2Px in
      if total <=? maxStackPx then (t1Px, t2Px)
      else
        let t1Px := if t1Px >? floor then t1Px - 2 else t1Px in
        if t1Px + lineGap + t2Px <=? maxStackPx then (t1Px, t2Px)
        else
          let t2Px := if t2Px >? floor then t2Px - 2 else t2Px in
          if (t1Px <=? floor) && (t2Px <=? floor) then (t1Px, t2Px)
          else stackLoop fuel' lineGap maxStackPx floor t1Px t2Px
  end.

(** The sizes that [drawVerticalTwoLine] draws its two lines with:
    each line is fitted to the length of the band, then the stack to its
    thickness when [maxStackPx] is a finite number ([None] otherwise). *)
Definition twoLineSizes (measureText : Font -> jsstring -> Q) (ctx : Ctx)
    (t1 t2 : jsstring) (maxLen : Q) (weight startPx minPx lineGap : Z)
    (maxStackPx : option Z) : Z * Z :=
  let r1 := fitTextSize measureText ctx t1 maxLen weight startPx minPx in
  let r2 := fitTextSize measureText (fst r1) t2 maxLen weight startPx
              minPx in
  match maxStackPx with
  | Some m =>
      let floor := Z.max 18 minPx in
      stackLoop 60 lineGap m floor (snd r1) (snd r2)
  | None => (snd r1, snd r2)
  end.

Definition labelW : Z := LABEL_OUT_PX_w.
Definition labelH : Z := LABEL_OUT_PX_h.
Definition padX : Z := 30.
Definition padY : Z := 40.
Definition gapAttentionQr : Z := 2.
Definition gapQrToSeparator : Z := 8.
Definition separatorW : Z := 2.
Definition gapSeparatorToContact : Z := 10.
Definition attentionBandW : Z := 260.
Definition innerH : Z := labelH - padY * 2.
Definition qrSize : Z := innerH.
Definition contactBandW : Z :=
  Z.max 120
    (labelW - padX * 2 - attentionBandW - qrSize - gapAttentionQr
     - gapQrToSeparator - separatorW - gapSeparatorToContact).

Definition contactLine1 : jsstring :=
  lit "Ll" ++ [225%N] ++ lit "manos:".
Definition contactLine2 : jsstring := lit "(664) 954 6020".

(** The sizes of the two lines of the first band, drawn with the
    defaults of [drawVerticalTwoLine]. *)
Definition attentionSizes (measureText : Font -> jsstring -> Q) (ctx : Ctx)
    : Z * Z :=
  twoLineSizes measureText ctx Attention.line1 Attention.line2
    (inject_Z innerH) 900 72 42 18 (Some (attentionBandW - 16)).

(** The sizes of the two lines of the last band, the telephone
    number. *)
Definition contactSizes (measureText : Font -> jsstring -> Q) (ctx : Ctx)
    : Z * Z :=
  twoLineSizes measureText ctx contactLine1 contactLine2
    (inject_Z innerH) 900 62 30 12 (Some (contactBandW - 10)).

End Landscape.

(* ===================================================================== *)
(** * Properties of the rounding *)
(* ===================================================================== *)

Section PowerFacts.

Local Open Scope Q_scope.

Lemma two_nonzero : ~ 2 == 0.
Proof. discriminate. Qed.

Lemma pow2_pos e : 0 < 2 ^ e.
Proof. apply Qpower_0_lt. reflexivity. Qed.

Lemma pow2_add a b : 2 ^ (a + b) == 2 ^ a * 2 ^ b.
Proof. apply Qpower_plus, two_nonzero. Qed.

Lemma pow2_succ e : 2 ^ (e + 1) == 2 * 2 ^ e.
Proof. rewrite pow2_add. change (2 ^ 1) with 2. ring. Qed.

Lemma pow2_inv a : 2 ^ a * 2 ^ (- a) == 1.
Proof. rewrite <- pow2_add, Z.add_opp_diag_r. reflexivity. Qed.

Lemma pow2_lt a b : (a < b)%Z -> 2 ^ a < 2 ^ b.
Proof. intros H. apply Qpower_lt_compat_l; [exact H|reflexivity]. Qed.

Lemma pow2_le a b : (a <= b)%Z -> 2 ^ a <= 2 ^ b.
Proof. intros H. apply Qpower_le_compat_l; [exact H|discriminate]. Qed.

Lemma pow2_lt_inv a b : 2 ^ a < 2 ^ b -> (a < b)%Z.
Proof. intros H. apply (Qpower_lt_compat_l_inv 2); [exact H|reflexivity]. Qed.

Lemma pow2_Z n : (0 <= n)%Z -> 2 ^ n == inject_Z (2 ^ n).
Proof. intros H. now rewrite Zpower_Qpower. Qed.

End PowerFacts.

Section MagFacts.

Local Open Scope Q_scope.

Lemma Qmake_inject n d : n # d == inject_Z n / inject_Z (Zpos d).
Proof. apply Qmake_Qdiv. Qed.

(** A positive rational lies within a factor of two of the power of two
    that [mag] starts from. *)
Lemma mag_estimate x :
  0 < x ->
  let e0 := (Z.log2 (Qnum x) - Z.log2 (Zpos (Qden x)))%Z in
  2 ^ (e0 - 1) < x /\ x < 2 ^ (e0 + 1).
Proof.
  intros Hx. cbv zeta. destruct x as [n d]. cbn [Qnum Qden].
  assert (Hn : (0 < n)%Z).
  { unfold Qlt in Hx. cbn in Hx. lia. }
  set (a := Z.log2 n). set (b := Z.log2 (Zpos d)).
  assert (Ha0 : (0 <= a)%Z) by apply Z.log2_nonneg.
  assert (Hb0 : (0 <= b)%Z) by apply Z.log2_nonneg.
  destruct (Z.log2_spec n Hn) as [Ha1 Ha2]. fold a in Ha1, Ha2.
  destruct (Z.log2_spec (Zpos d) eq_refl) as [Hb1 Hb2]. fold b in Hb1, Hb2.
  assert (HA : 2 ^ a <= inject_Z n /\ inject_Z n < 2 * 2 ^ a).
  { rewrite (pow2_Z a Ha0). split.
    - now rewrite <- Zle_Qle.
    - change 2 with (inject_Z 2) at 1. rewrite <- inject_Z_mult, <- Zlt_Qlt.
      rewrite <- Z.pow_succ_r by exact Ha0. exact Ha2. }
  assert (HB : 2 ^ b <= inject_Z (Zpos d) /\ inject_Z (Zpos d) < 2 * 2 ^ b).
  { rewrite (pow2_Z b Hb0). split.
    - now rewrite <- Zle_Qle.
    - change 2 with (inject_Z 2) at 1. rewrite <- inject_Z_mult, <- Zlt_Qlt.
      rewrite <- Z.pow_succ_r by exact Hb0. exact Hb2. }
  assert (Hx' : (n # d) * inject_Z (Zpos d) == inject_Z n).
  { rewrite Qmake_inject. field. discriminate. }
  assert (Hlo : 2 ^ (a - b - 1) * (2 * 2 ^ b) == 2 ^ a).
  { replace a with ((a - b - 1) + 1 + b)%Z at 2 by lia.
    rewrite !pow2_add. change (2 ^ 1) with 2. ring. }
  assert (Hhi : 2 ^ (a - b + 1) * 2 ^ b == 2 * 2 ^ a).
  { replace (a - b + 1)%Z with (a + 1 + - b)%Z by lia.
    rewrite !pow2_add. change (2 ^ 1) with 2.
    setoid_replace (2 ^ a * 2 * 2 ^ (- b) * 2 ^ b)
      with (2 * 2 ^ a * (2 ^ b * 2 ^ (- b))) by ring.
    rewrite pow2_inv. ring. }
  pose proof (pow2_pos a) as Pa. pose proof (pow2_pos b) as Pb.
  pose proof (pow2_pos (a - b - 1)) as Plo.
  pose proof (pow2_pos (a - b + 1)) as Phi.
  set (A := 2 ^ a) in *. set (B := 2 ^ b) in *.
  set (L := 2 ^ (a - b - 1)) in *. set (H := 2 ^ (a - b + 1)) in *.
  set (N := inject_Z n) in *. set (D := inject_Z (Zpos d)) in *.
  set (X := n # d) in *.
  destruct HA as [HA1 HA2], HB as [HB1 HB2].
  split; nra.
Qed.

Lemma mag_spec x : 0 < x -> 2 ^ mag x <= x /\ x < 2 ^ (mag x + 1).
Proof.
  intros Hx. destruct (mag_estimate x Hx) as [Hlo Hhi]. unfold mag.
  set (e0 := (Z.log2 (Qnum x) - Z.log2 (Zpos (Qden x)))%Z) in *.
  destruct (Qle_bool (2 ^ e0) x) eqn:E.
  - apply Qle_bool_iff in E. split; assumption.
  - assert (Hlt : x < 2 ^ e0).
    { apply Qnot_le_lt. intros H. apply Qle_bool_iff in H. congruence. }
    replace (e0 - 1 + 1)%Z with e0 by lia. split; [|exact Hlt].
    now apply Qlt_le_weak.
Qed.

Lemma mag_unique x e : 2 ^ e <= x -> x < 2 ^ (e + 1) -> mag x = e.
Proof.
  intros H1 H2.
  assert (Hx : 0 < x) by (pose proof (pow2_pos e); lra).
  destruct (mag_spec x Hx) as [M1 M2].
  assert (A : (mag x < e + 1)%Z) by (apply pow2_lt_inv; lra).
  assert (B : (e < mag x + 1)%Z) by (apply pow2_lt_inv; lra).
  lia.
Qed.

Lemma mag_comp x y : 0 < x -> x == y -> mag x = mag y.
Proof.
  intros Hx E. destruct (mag_spec x Hx) as [M1 M2].
  symmetry. apply mag_unique; rewrite <- E; assumption.
Qed.

Lemma mag_le x y : 0 < x -> x <= y -> (mag x <= mag y)%Z.
Proof.
  intros Hx Hxy. destruct (mag_spec x Hx) as [M1 _].
  destruct (mag_spec y) as [_ M2]; [lra|].
  assert (A : (mag x < mag y + 1)%Z) by (apply pow2_lt_inv; lra).
  lia.
Qed.

End MagFacts.

Section NearestFacts.

Local Open Scope Q_scope.

Lemma compare_cases a b :
  match a ?= b with
  | Eq => a == b
  | Lt => a < b
  | Gt => b < a
  end.
Proof. destruct (Qcompare_spec a b); assumption. Qed.

Lemma rne_comp x y : x == y -> rne x = rne y.
Proof.
  intros E. unfold rne. rewrite (Qfloor_comp x y E).
  assert (C : (x - inject_Z (Qfloor y) ?= 1 # 2)
              = (y - inject_Z (Qfloor y) ?= 1 # 2)) by now rewrite E.
  rewrite C. reflexivity.
Qed.

Lemma floor_bounds q :
  inject_Z (Qfloor q) <= q /\ q < inject_Z (Qfloor q) + 1.
Proof.
  split; [apply Qfloor_le|].
  pose proof (Qlt_floor q) as H. rewrite inject_Z_plus in H. exact H.
Qed.

Lemma rne_Z z : rne (inject_Z z) = z.
Proof.
  unfold rne. rewrite Qfloor_Z.
  assert (C : (inject_Z z - inject_Z z ?= 1 # 2) = Lt).
  { apply Qlt_alt. setoid_replace (inject_Z z - inject_Z z) with 0 by ring.
    reflexivity. }
  now rewrite C.
Qed.

(** The nearest integer is within a half. *)
Lemma rne_near q :
  - (1 # 2) <= inject_Z (rne q) - q /\ inject_Z (rne q) - q <= 1 # 2.
Proof.
  destruct (floor_bounds q) as [F1 F2]. unfold rne.
  pose proof (compare_cases (q - inject_Z (Qfloor q)) (1 # 2)) as C.
  destruct (q - inject_Z (Qfloor q) ?= 1 # 2).
  - destruct (Z.even (Qfloor q)).
    + lra.
    + rewrite inject_Z_plus. change (inject_Z 1) with 1. lra.
  - lra.
  - rewrite inject_Z_plus. change (inject_Z 1) with 1. lra.
Qed.

Lemma rne_mono q q' : q <= q' -> (rne q <= rne q')%Z.
Proof.
  intros H. pose proof (Qfloor_resp_le q q' H) as Hf.
  destruct (floor_bounds q) as [F1 F2]. destruct (floor_bounds q') as [G1 G2].
  assert (Hlo : forall t, (Qfloor t <= rne t <= Qfloor t + 1)%Z).
  { intros t. unfold rne.
    destruct (t - inject_Z (Qfloor t) ?= 1 # 2); [destruct (Z.even _)| |];
      lia. }
  destruct (Z.eq_dec (Qfloor q) (Qfloor q')) as [E|N].
  - unfold rne. rewrite <- E. rewrite <- E in G1, G2.
    pose proof (compare_cases (q - inject_Z (Qfloor q)) (1 # 2)) as C.
    pose proof (compare_cases (q' - inject_Z (Qfloor q)) (1 # 2)) as C'.
    destruct (q - inject_Z (Qfloor q) ?= 1 # 2);
      destruct (q' - inject_Z (Qfloor q) ?= 1 # 2);
      try (destruct (Z.even (Qfloor q))); try lia; exfalso; lra.
  - pose proof (Hlo q). pose proof (Hlo q'). lia.
Qed.

End NearestFacts.

Section RoundFacts.

Local Open Scope Q_scope.

Lemma pow2_52 : 2 ^ 52 == inject_Z 4503599627370496.
Proof. reflexivity. Qed.

Lemma pow2_53 : 2 ^ 53 == inject_Z 9007199254740992.
Proof. reflexivity. Qed.

(** A positive number, scaled by its exponent, has 53 bits before the
    point. *)
Lemma scaled_range x :
  0 < x ->
  2 ^ 52 <= x * 2 ^ (52 - mag x) /\ x * 2 ^ (52 - mag x) < 2 ^ 53.
Proof.
  intros Hx. destruct (mag_spec x Hx) as [M1 M2].
  pose proof (pow2_pos (52 - mag x)) as P.
  assert (E1 : 2 ^ 52 == 2 ^ mag x * 2 ^ (52 - mag x)).
  { rewrite <- pow2_add. now replace (mag x + (52 - mag x))%Z with 52%Z by lia. }
  assert (E2 : 2 ^ 53 == 2 ^ (mag x + 1) * 2 ^ (52 - mag x)).
  { rewrite <- pow2_add.
    now replace (mag x + 1 + (52 - mag x))%Z with 53%Z by lia. }
  rewrite E1, E2. split.
  - apply Qmult_le_compat_r; [exact M1|now apply Qlt_le_weak].
  - apply Qmult_lt_compat_r; assumption.
Qed.

Lemma rne_scaled x :
  0 < x ->
  (4503599627370496 <= rne (x * 2 ^ (52 - mag x)) <= 9007199254740992)%Z.
Proof.
  intros Hx. destruct (scaled_range x Hx) as [S1 S2].
  rewrite pow2_52 in S1. rewrite pow2_53 in S2. split.
  - rewrite <- (rne_Z 4503599627370496). now apply rne_mono.
  - rewrite <- (rne_Z 9007199254740992). apply rne_mono.
    now apply Qlt_le_weak.
Qed.

Lemma ulp_scale e : 2 ^ (52 - e) * 2 ^ (e - 52) == 1.
Proof.
  rewrite <- pow2_add. now replace (52 - e + (e - 52))%Z with 0%Z by lia.
Qed.

(** The rounded number stays in the binade of the number. *)
Lemma roundPos_range x :
  0 < x -> 2 ^ mag x <= roundPos x /\ roundPos x <= 2 ^ (mag x + 1).
Proof.
  intros Hx. destruct (rne_scaled x Hx) as [R1 R2]. unfold roundPos.
  pose proof (pow2_pos (mag x - 52)) as P.
  assert (E1 : 2 ^ mag x == 2 ^ 52 * 2 ^ (mag x - 52)).
  { rewrite <- pow2_add. now replace (52 + (mag x - 52))%Z with (mag x) by lia. }
  assert (E2 : 2 ^ (mag x + 1) == 2 ^ 53 * 2 ^ (mag x - 52)).
  { rewrite <- pow2_add.
    now replace (53 + (mag x - 52))%Z with (mag x + 1)%Z by lia. }
  rewrite E1, E2, pow2_52, pow2_53.
  split; (apply Qmult_le_compat_r; [now rewrite <- Zle_Qle|
                                    now apply Qlt_le_weak]).
Qed.

Lemma roundPos_pos x : 0 < x -> 0 < roundPos x.
Proof.
  intros Hx. destruct (roundPos_range x Hx) as [R _].
  pose proof (pow2_pos (mag x)). lra.
Qed.

Lemma roundPos_comp x y : 0 < x -> x == y -> roundPos x == roundPos y.
Proof.
  intros Hx E. unfold roundPos. rewrite <- (mag_comp x y Hx E).
  rewrite (rne_comp (x * 2 ^ (52 - mag x)) (y * 2 ^ (52 - mag x)));
    [reflexivity|].
  apply Qmult_comp; [exact E|reflexivity].
Qed.

(** The error of the rounding is at most half a unit in the last
    place. *)
Lemma roundPos_near x :
  0 < x ->
  - (2 ^ (mag x - 53)) <= roundPos x - x /\
  roundPos x - x <= 2 ^ (mag x - 53).
Proof.
  intros Hx. unfold roundPos.
  set (t := x * 2 ^ (52 - mag x)).
  pose proof (rne_near t) as [N1 N2].
  pose proof (pow2_pos (mag x - 52)) as P.
  assert (Ex : x == t * 2 ^ (mag x - 52)).
  { unfold t. rewrite <- Qmult_assoc, ulp_scale. ring. }
  assert (Eu : 2 ^ (mag x - 52) == 2 * 2 ^ (mag x - 53)).
  { rewrite <- pow2_succ. now replace (mag x - 53 + 1)%Z with (mag x - 52)%Z by lia. }
  set (u := 2 ^ (mag x - 52)) in *. set (v := 2 ^ (mag x - 53)) in *.
  set (r := inject_Z (rne t)) in *.
  split; nra.
Qed.

Lemma roundPos_mono x y : 0 < x -> x <= y -> roundPos x <= roundPos y.
Proof.
  intros Hx Hxy. assert (Hy : 0 < y) by lra.
  pose proof (mag_le x y Hx Hxy) as Hm.
  destruct (Z.eq_dec (mag x) (mag y)) as [E|N].
  - unfold roundPos. rewrite <- E.
    apply Qmult_le_compat_r; [|apply Qlt_le_weak, pow2_pos].
    rewrite <- Zle_Qle. apply rne_mono.
    apply Qmult_le_compat_r; [exact Hxy|apply Qlt_le_weak, pow2_pos].
  - destruct (roundPos_range x Hx) as [_ R1].
    destruct (roundPos_range y Hy) as [R2 _].
    assert (P : 2 ^ (mag x + 1) <= 2 ^ mag y) by (apply pow2_le; lia).
    lra.
Qed.

End RoundFacts.

Section DoubleFacts.

Local Open Scope Q_scope.

Lemma round53_zero x : x == 0 -> round53 x = 0.
Proof. intros E. unfold round53. now rewrite (proj1 (Qeq_alt x 0) E). Qed.

Lemma round53_pos x : 0 < x -> round53 x = Qred (roundPos x).
Proof. intros H. unfold round53. now rewrite (proj1 (Qgt_alt x 0) H). Qed.

Lemma round53_neg x : x < 0 -> round53 x = Qred (- roundPos (- x)).
Proof. intros H. unfold round53. now rewrite (proj1 (Qlt_alt x 0) H). Qed.

(** The rounding does not depend on the fraction that stands for the
    number. *)
Lemma round53_comp x y : x == y -> round53 x = round53 y.
Proof.
  intros E. destruct (Qlt_le_dec 0 x) as [P|N].
  - rewrite (round53_pos x P), (round53_pos y) by now rewrite <- E.
    apply Qred_complete. now apply roundPos_comp.
  - destruct (Qlt_le_dec x 0) as [P|Z].
    + rewrite (round53_neg x P), (round53_neg y) by now rewrite <- E.
      apply Qred_complete. apply Qopp_comp. apply roundPos_comp; [lra|].
      now rewrite E.
    + rewrite (round53_zero x), (round53_zero y); [reflexivity| |];
        try rewrite <- E; lra.
Qed.

Lemma round53_opp x : round53 (- x) == - round53 x.
Proof.
  destruct (Qlt_le_dec 0 x) as [P|N].
  - rewrite (round53_neg (- x)), (round53_pos x P) by lra.
    rewrite !Qred_correct.
    rewrite (roundPos_comp (- - x) x); [reflexivity|lra|ring].
  - destruct (Qlt_le_dec x 0) as [P|Z].
    + rewrite (round53_pos (- x)), (round53_neg x P) by lra.
      rewrite !Qred_correct. ring.
    + rewrite (round53_zero x), (round53_zero (- x)) by lra. reflexivity.
Qed.

Lemma round53_mono x y : x <= y -> round53 x <= round53 y.
Proof.
  intros H.
  assert (Hsign : forall t, (0 < t -> 0 < round53 t) /\
                            (t < 0 -> round53 t < 0) /\
                            (t == 0 -> round53 t == 0)).
  { intros t. repeat split; intros Ht.
    - rewrite (round53_pos t Ht), Qred_correct. now apply roundPos_pos.
    - rewrite (round53_neg t Ht), Qred_correct.
      pose proof (roundPos_pos (- t)). lra.
    - now rewrite (round53_zero t Ht). }
  destruct (Qlt_le_dec 0 x) as [Px|Nx].
  - rewrite (round53_pos x Px), (round53_pos y) by lra.
    rewrite !Qred_correct. now apply roundPos_mono.
  - destruct (Qlt_le_dec 0 y) as [Py|Ny].
    + destruct (Hsign y) as [Hy _]. specialize (Hy Py).
      destruct (Qlt_le_dec x 0) as [Lx|Zx].
      * destruct (Hsign x) as (_ & Hx & _). specialize (Hx Lx). lra.
      * destruct (Hsign x) as (_ & _ & Hx). rewrite Hx by lra. lra.
    + destruct (Qlt_le_dec y 0) as [Ly|Zy].
      * rewrite (round53_neg x), (round53_neg y Ly) by lra.
        rewrite !Qred_correct.
        pose proof (roundPos_mono (- y) (- x)). lra.
      * destruct (Hsign y) as (_ & _ & Hy). rewrite Hy by lra.
        destruct (Qlt_le_dec x 0) as [Lx|Zx].
        -- destruct (Hsign x) as (_ & Hx & _). specialize (Hx Lx). lra.
        -- destruct (Hsign x) as (_ & _ & Hx). rewrite Hx by lra. lra.
Qed.

Lemma pow2_eps e : 2 ^ (e - 53) == 2 ^ e * eps.
Proof.
  replace (e - 53)%Z with (e + - 53)%Z by lia. rewrite pow2_add.
  reflexivity.
Qed.

(** The relative error of the rounding is at most [2 ^ -53]. *)
Lemma round53_near x :
  0 <= x -> x * (1 - eps) <= round53 x /\ round53 x <= x * (1 + eps).
Proof.
  intros Hx. destruct (Qlt_le_dec 0 x) as [P|N].
  - rewrite (round53_pos x P), Qred_correct.
    destruct (roundPos_near x P) as [N1 N2].
    destruct (mag_spec x P) as [M _].
    rewrite pow2_eps in N1, N2.
    assert (He : 0 < eps) by reflexivity.
    set (m := 2 ^ mag x) in *. set (r := roundPos x) in *.
    split; nra.
  - rewrite (round53_zero x) by lra.
    assert (E : x == 0) by lra. rewrite E. split; discriminate.
Qed.

Lemma roundPos_fixed m e :
  (0 < m <= 9007199254740992)%Z ->
  roundPos (inject_Z m * 2 ^ e) == inject_Z m * 2 ^ e.
Proof.
  intros Hm. set (x := inject_Z m * 2 ^ e).
  assert (Hx : 0 < x).
  { unfold x. apply Qmult_lt_0_compat; [|apply pow2_pos].
    change 0 with (inject_Z 0). rewrite <- Zlt_Qlt. lia. }
  destruct (mag_spec x Hx) as [M1 M2].
  unfold roundPos. fold x.
  (* the scaled number is an integer *)
  assert (Hint : exists k, x * 2 ^ (52 - mag x) == inject_Z k).
  { destruct (Z.eq_dec m 9007199254740992) as [E|N].
    - exists 4503599627370496%Z.
      assert (Ex : x == 2 ^ (53 + e)).
      { unfold x. rewrite E, pow2_add. reflexivity. }
      assert (Em : mag x = (53 + e)%Z).
      { apply mag_unique; rewrite Ex; [apply Qle_refl|apply pow2_lt; lia]. }
      rewrite Em, Ex, <- pow2_add.
      now replace (53 + e + (52 - (53 + e)))%Z with 52%Z by lia.
    - assert (Hlt : x < 2 ^ (53 + e)).
      { unfold x. rewrite pow2_add.
        apply Qmult_lt_compat_r; [apply pow2_pos|].
        rewrite pow2_53, <- Zlt_Qlt. lia. }
      assert (He : (mag x < 53 + e)%Z) by (apply pow2_lt_inv; lra).
      exists (m * 2 ^ (e + 52 - mag x))%Z.
      assert (P : 2 ^ (e + 52 - mag x) == inject_Z (2 ^ (e + 52 - mag x)))
        by (apply pow2_Z; lia).
      rewrite inject_Z_mult, <- P.
      replace (e + 52 - mag x)%Z with (e + (52 - mag x))%Z by lia.
      rewrite pow2_add. unfold x at 1. ring. }
  destruct Hint as [k Hk]. rewrite (rne_comp _ _ Hk), rne_Z, <- Hk.
  rewrite <- Qmult_assoc, ulp_scale. ring.
Qed.

Lemma round53_fixed x : representable x -> round53 x == x.
Proof.
  intros (m & e & Hm & E). rewrite (round53_comp _ _ E).
  destruct (Z.lt_trichotomy m 0) as [L|[Z|G]].
  - rewrite round53_neg.
    2:{ setoid_replace (inject_Z m * 2 ^ e) with (- (inject_Z (- m) * 2 ^ e))
          by (rewrite inject_Z_opp; ring).
        assert (0 < inject_Z (- m) * 2 ^ e).
        { apply Qmult_lt_0_compat; [|apply pow2_pos].
          change 0 with (inject_Z 0). rewrite <- Zlt_Qlt. lia. }
        lra. }
    rewrite Qred_correct.
    rewrite (roundPos_comp _ (inject_Z (- m) * 2 ^ e)).
    + rewrite roundPos_fixed by lia. rewrite E, inject_Z_opp. ring.
    + setoid_replace (- (inject_Z m * 2 ^ e)) with (inject_Z (- m) * 2 ^ e)
        by (rewrite inject_Z_opp; ring).
      apply Qmult_lt_0_compat; [|apply pow2_pos].
      change 0 with (inject_Z 0). rewrite <- Zlt_Qlt. lia.
    + rewrite inject_Z_opp. ring.
  - subst m. rewrite round53_zero by ring. rewrite E. ring.
  - rewrite round53_pos.
    2:{ apply Qmult_lt_0_compat; [|apply pow2_pos].
        change 0 with (inject_Z 0). rewrite <- Zlt_Qlt. lia. }
    rewrite Qred_correct, roundPos_fixed by lia. now rewrite E.
Qed.

(** The integers up to [2 ^ 53] are not rounded. *)
Lemma round53_Z z :
  (Z.abs z <= 9007199254740992)%Z -> round53 (inject_Z z) = inject_Z z.
Proof.
  intros Hz.
  assert (R : round53 (inject_Z z) == inject_Z z).
  { apply round53_fixed. exists z, 0%Z. split; [exact Hz|].
    change (2 ^ 0) with 1. ring. }
  assert (C : forall t, round53 t = Qred (round53 t)).
  { intros t. unfold round53. destruct (t ?= 0); [reflexivity| |];
      symmetry; apply Qred_complete, Qred_correct. }
  rewrite C. rewrite (Qred_complete _ _ R).
  unfold Qred, inject_Z. cbn [Qnum Qden].
  pose proof (Z.ggcd_gcd z 1) as G. pose proof (Z.ggcd_correct_divisors z 1) as D.
  destruct (Z.ggcd z 1) as [g [a b]]. cbn [fst snd] in *.
  rewrite Z.gcd_1_r in G. subst g. destruct D as [Da Db].
  rewrite Z.mul_1_l in Da, Db. subst a. rewrite <- Db. reflexivity.
Qed.

Lemma round53_representable x : representable (round53 x).
Proof.
  assert (Hp : forall t, 0 < t -> representable (roundPos t)).
  { intros t Ht. exists (rne (t * 2 ^ (52 - mag t))), (mag t - 52)%Z.
    split; [|reflexivity]. pose proof (rne_scaled t Ht). lia. }
  destruct (Qlt_le_dec 0 x) as [P|N].
  - destruct (Hp x P) as (m & e & Hm & E). exists m, e. split; [exact Hm|].
    now rewrite (round53_pos x P), Qred_correct.
  - destruct (Qlt_le_dec x 0) as [L|Z].
    + destruct (Hp (- x)) as (m & e & Hm & E); [lra|].
      exists (- m)%Z, e. split; [lia|].
      rewrite (round53_neg x L), Qred_correct, E, inject_Z_opp. ring.
    + exists 0%Z, 0%Z. split; [lia|]. rewrite round53_zero by lra.
      reflexivity.
Qed.

Lemma round53_idem x : round53 (round53 x) == round53 x.
Proof. apply round53_fixed, round53_representable. Qed.

End DoubleFacts.

Section RootFacts.

Local Open Scope Q_scope.

(** The square root is within half a unit in the last place: between
    the squares of the two midpoints around it. *)
Lemma sqrt53_near x :
  0 < x ->
  let r := sqrt53 x in
  let half := 2 ^ (mag x / 2 - 53) in
  half < r /\ (r - half) * (r - half) <= x /\ x <= (r + half) * (r + half).
Proof.
  intros Hx. cbv zeta. unfold sqrt53.
  rewrite (proj1 (Qgt_alt x 0) Hx). cbv zeta.
  destruct (mag_spec x Hx) as [M1 M2].
  set (e := mag x) in *. set (k := (53 - e / 2)%Z).
  set (S := x * 2 ^ (2 * k)).
  (* the scaled number is at least 4 *)
  assert (HS1 : 4 <= S).
  { unfold S. apply Qle_trans with (2 ^ e * 2 ^ (2 * k)).
    - rewrite <- pow2_add. change 4 with (2 ^ 2). apply pow2_le.
      unfold k. pose proof (Z.mul_div_le e 2 eq_refl). lia.
    - apply Qmult_le_compat_r; [exact M1|apply Qlt_le_weak, pow2_pos]. }
  destruct (floor_bounds S) as [F1 F2].
  set (n := Qfloor S) in *.
  assert (Hn : (4 <= n)%Z).
  { assert (H : inject_Z 4 < inject_Z n + inject_Z 1)
      by (change (inject_Z 1) with 1; change (inject_Z 4) with 4; lra).
    rewrite <- inject_Z_plus, <- Zlt_Qlt in H. lia. }
  pose proof (Z.sqrt_spec n ltac:(lia)) as Hr. cbv zeta in Hr.
  set (r := Z.sqrt n) in *.
  assert (Hr0 : (2 <= r)%Z) by nia.
  assert (R1 : inject_Z (r * r) <= S).
  { apply Qle_trans with (inject_Z n); [|exact F1].
    rewrite <- Zle_Qle. lia. }
  assert (R2 : S < inject_Z ((r + 1) * (r + 1))).
  { apply Qlt_le_trans with (inject_Z n + 1); [exact F2|].
    change 1 with (inject_Z 1). rewrite <- inject_Z_plus, <- Zle_Qle. lia. }
  set (h := (r / 2)%Z).
  set (m := if Z.even r then h
            else if Qeq_bool S (inject_Z (r * r))
                 then (if Z.even h then h else (h + 1)%Z)
                 else (h + 1)%Z).
  (* the square of the scaled number lies between the odd neighbours *)
  assert (Hm : (1 <= m)%Z /\
               inject_Z ((2 * m - 1) * (2 * m - 1)) <= S /\
               S <= inject_Z ((2 * m + 1) * (2 * m + 1))).
  { pose proof (Z.div_mod r 2 ltac:(lia)) as Hd. fold h in Hd.
    unfold m. clear m. destruct (Z.even r) eqn:Ev.
    - assert (E : r = (2 * h)%Z).
      { rewrite Zeven_mod in Ev. lia. }
      split; [lia|]. split.
      + apply Qle_trans with (inject_Z (r * r)); [|exact R1].
        rewrite <- Zle_Qle. nia.
      + apply Qlt_le_weak. apply Qlt_le_trans with (1 := R2).
        rewrite <- Zle_Qle. nia.
    - assert (E : r = (2 * h + 1)%Z).
      { rewrite Zeven_mod in Ev.
        pose proof (Z.mod_pos_bound r 2 eq_refl). lia. }
      destruct (Qeq_bool S (inject_Z (r * r))) eqn:Ex.
      + apply Qeq_bool_iff in Ex.
        destruct (Z.even h); (split; [lia|]); rewrite Ex, <- !Zle_Qle; nia.
      + split; [lia|]. split.
        * apply Qle_trans with (inject_Z (r * r)); [|exact R1].
          rewrite <- Zle_Qle. nia.
        * apply Qlt_le_weak. apply Qlt_le_trans with (1 := R2).
          rewrite <- Zle_Qle. nia. }
  clearbody m. destruct Hm as (Hm1 & A1 & A2).
  rewrite Qred_correct.
  (* back to the scale of the number *)
  replace (e / 2 - 53)%Z with (- k)%Z by (unfold k; lia).
  assert (P : 0 < 2 ^ (- k)) by apply pow2_pos.
  assert (E1 : 2 ^ (1 - k) == 2 * 2 ^ (- k)).
  { replace (1 - k)%Z with (- k + 1)%Z by lia. apply pow2_succ. }
  assert (Ex : x == S * (2 ^ (- k) * 2 ^ (- k))).
  { unfold S. rewrite <- (pow2_add (- k) (- k)), <- Qmult_assoc, <- pow2_add.
    replace (2 * k + (- k + - k))%Z with 0%Z by lia. change (2 ^ 0) with 1.
    ring. }
  rewrite E1. set (u := 2 ^ (- k)) in *.
  unfold Z.sub in A1.
  rewrite !inject_Z_mult, !inject_Z_plus, !inject_Z_mult in A1, A2.
  rewrite !inject_Z_opp in A1.
  change (inject_Z 2) with 2 in *. change (inject_Z 1) with 1 in *.
  assert (Hm1' : 1 <= inject_Z m)
    by (change 1 with (inject_Z 1); now rewrite <- Zle_Qle).
  set (M := inject_Z m) in *.
  assert (Hu2 : 0 < u * u) by nra.
  split; [nra|]. rewrite Ex. split.
  - setoid_replace ((M * (2 * u) - u) * (M * (2 * u) - u))
      with ((2 * M - 1) * (2 * M - 1) * (u * u)) by ring.
    apply Qmult_le_compat_r; [exact A1|lra].
  - setoid_replace ((M * (2 * u) + u) * (M * (2 * u) + u))
      with ((2 * M + 1) * (2 * M + 1) * (u * u)) by ring.
    apply Qmult_le_compat_r; [exact A2|lra].
Qed.

End RootFacts.

(** The rounding at work: [0.1 + 0.2] is the binary64 number above 0.3,
    [44 * (490 / 880)] is the one below 24.5, which [Math.round] takes
    to 24, and the root of 2 is the one of 53 bits next to it. *)
Lemma rounding_examples :
  fadd (round53 (1 # 10)) (round53 (2 # 10))
  = (1351079888211149 # 4503599627370496)%Q /\
  fmul 44 (fdiv 490 880) = (6896136929411071 # 281474976710656)%Q /\
  nround (ofZ 44 * (ofZ 490 / ofZ 880))%num = ofZ 24 /\
  sqrt53 2 = (6369051672525773 # 4503599627370496)%Q.
Proof. split; [|split; [|split]]; vm_compute; reflexivity. Qed.

(* ===================================================================== *)
(** * Properties of the strings *)
(* ===================================================================== *)

Section StringFacts.

Lemma isWifiSpecial_In c :
  isWifiSpecial c = true <-> In c [92; 59; 44; 58; 34]%N.
Proof.
  unfold isWifiSpecial. rewrite existsb_exists. split.
  - intros [x [Hx Heq]]. apply N.eqb_eq in Heq. now subst.
  - intros H. exists c. split; [assumption | apply N.eqb_refl].
Qed.

Lemma escapeWifi_Escaped s : Escaped s (escapeWifi s).
Proof.
  induction s as [|c s IH]; [constructor|].
  unfold escapeWifi, replaceClass in *. simpl.
  destruct (isWifiSpecial c) eqn:E; simpl.
  - apply Escaped_special; [now apply isWifiSpecial_In | exact IH].
  - apply Escaped_plain; [|exact IH].
    intros H. apply isWifiSpecial_In in H. congruence.
Qed.

(** The escaped form of a field is unique. *)
Lemma Escaped_functional s t t' : Escaped s t -> Escaped s t' -> t = t'.
Proof.
  intros H. revert t'. induction H; intros t' H'; inversion H'; subst;
    try reflexivity; try contradiction; f_equal; auto.
  f_equal; auto.
Qed.

(** C9. For every stored item [generateValue] is the payload
    [WIFI:T:nopass;S:<ssid>;;] of an open network, and
    [WIFI:T:WPA;S:<ssid>;P:<password>;;] otherwise, where the two fields
    are the trimmed inputs in which every backslash, semicolon, comma,
    colon and double quote is preceded by an inserted backslash, and the
    other code units are unchanged. *)
Theorem generateValue_payload (it : Item) :
  exists s p,
    Escaped (trim (ssid it)) s /\
    Escaped (trim (password it)) p /\
    (forall s', Escaped (trim (ssid it)) s' -> s' = s) /\
    (forall p', Escaped (trim (password it)) p' -> p' = p) /\
    generateValue (Some it) =
      if isOpen it then lit "WIFI:T:nopass;S:" ++ s ++ lit ";;"
      else lit "WIFI:T:WPA;S:" ++ s ++ lit ";P:" ++ p ++ lit ";;".
Proof.
  exists (escapeWifi (trim (ssid it))), (escapeWifi (trim (password it))).
  repeat split.
  - apply escapeWifi_Escaped.
  - apply escapeWifi_Escaped.
  - intros s' H. eapply Escaped_functional; [exact H|apply escapeWifi_Escaped].
  - intros p' H. eapply Escaped_functional; [exact H|apply escapeWifi_Escaped].
Qed.

Lemma greedyToDot_split s taken rest :
  greedyToDot s = Some (taken, rest) -> s = taken ++ DOT :: rest.
Proof.
  revert taken rest. induction s as [|c s IH]; intros taken rest; simpl.
  - discriminate.
  - destruct (isLineTerminator c); [discriminate|].
    destruct (greedyToDot s) as [[t r]|] eqn:E.
    + intros H; inversion H; subst. simpl. f_equal. now apply IH.
    + destruct (c =? DOT)%N eqn:D; [|discriminate].
      intros H; inversion H; subst. apply N.eqb_eq in D. now subst.
Qed.

(** The second replace only removes code units. *)
Lemma dropClosingDots_In s c : In c (dropClosingDots s) -> In c s.
Proof.
  funelim (dropClosingDots s); simp dropClosingDots; try easy.
  - simpl. intros [->|H']; [now left | right; auto].
  - simpl. pose proof (greedyToDot_split _ _ _ e) as ->.
    intros [->|H']; [now left|right].
    apply in_app_or in H'. apply in_or_app.
    destruct H' as [H'|H']; [now left|right; right; auto].
  - simpl. intros [->|H']; [now left | right; auto].
Qed.

(** The result of [sanitizeNumericDot] holds digits and periods only. *)
Lemma sanitizeNumericDot_alphabet value :
  Forall (fun c => isDigit c || (c =? DOT)%N = true)
    (sanitizeNumericDot value).
Proof.
  apply Forall_forall. intros c H.
  apply dropClosingDots_In in H.
  unfold replaceClass in H. apply in_flat_map in H.
  destruct H as [x [_ H]]. unfold notDigitOrDot in H.
  destruct (isDigit x || (x =? DOT)%N) eqn:E; simpl in H; [|contradiction].
  destruct H as [->|[]]. exact E.
Qed.

Lemma countDots_cons c s :
  countDots (c :: s) = ((if (c =? DOT)%N then 1 else 0) + countDots s)%nat.
Proof.
  unfold countDots. cbn [filter]. rewrite N.eqb_sym.
  destruct (c =? DOT)%N; reflexivity.
Qed.

Lemma countDots_app s t : countDots (s ++ t) = (countDots s + countDots t)%nat.
Proof. unfold countDots. now rewrite filter_app, length_app. Qed.

(** On a string without line terminators the greedy run ends at the last
    dot: what follows the match has no dot. *)
Lemma greedyToDot_last s :
  Forall (fun c => isLineTerminator c = false) s ->
  match greedyToDot s with
  | Some (taken, rest) =>
      countDots rest = 0%nat /\ S (countDots taken) = countDots s
  | None => countDots s = 0%nat
  end.
Proof.
  induction 1 as [|c s Hc Hs IH]; [reflexivity|].
  cbn [greedyToDot]. rewrite Hc, countDots_cons.
  destruct (greedyToDot s) as [[taken rest]|].
  - destruct IH as [Hr Ht]. split; [exact Hr|].
    rewrite countDots_cons. lia.
  - rewrite IH. destruct (c =? DOT)%N; [|reflexivity].
    split; [exact IH|reflexivity].
Qed.

Lemma dropClosingDots_without_dots s :
  countDots s = 0%nat -> dropClosingDots s = s.
Proof.
  funelim (dropClosingDots s); try easy; rewrite countDots_cons;
    match goal with E : (_ =? DOT)%N = _ |- _ => rewrite E end;
    try discriminate.
  cbn [Nat.add]. intros H0. f_equal. now apply H.
Qed.

(** The second replace removes one dot, the last, when there are two or
    more, and none otherwise. *)
Lemma dropClosingDots_count s :
  Forall (fun c => isLineTerminator c = false) s ->
  countDots (dropClosingDots s)
  = if (2 <=? countDots s)%nat then (countDots s - 1)%nat else countDots s.
Proof.
  funelim (dropClosingDots s); intros Hlt; [reflexivity| | |];
    inversion Hlt as [|? ? _ Hs']; subst;
    rewrite ?countDots_cons, ?countDots_app;
    match goal with E : (_ =? DOT)%N = _ |- _ => rewrite E end.
  - cbn [Nat.add]. now apply H.
  - pose proof (greedyToDot_last s' Hs') as Hg. rewrite e in Hg.
    destruct Hg as [Hr Ht].
    rewrite (dropClosingDots_without_dots rest Hr), Hr, <- Ht.
    destruct (2 <=? 1 + S (countDots taken))%nat eqn:E;
      [lia | apply Nat.leb_gt in E; lia].
  - pose proof (greedyToDot_last s' Hs') as Hg. rewrite e in Hg.
    rewrite (dropClosingDots_without_dots s' Hg), Hg. reflexivity.
Qed.

Lemma cleaned_without_terminators value :
  Forall (fun c => isLineTerminator c = false)
    (replaceClass notDigitOrDot (fun _ => []) value).
Proof.
  apply Forall_forall. intros c H.
  unfold replaceClass in H. apply in_flat_map in H.
  destruct H as [x [_ H]]. unfold notDigitOrDot in H.
  destruct (isDigit x || (x =? DOT)%N) eqn:E; simpl in H; [|contradiction].
  destruct H as [->|[]].
  unfold isDigit, DOT in E. unfold isLineTerminator. cbn [existsb].
  repeat match goal with
         | |- context [(c =? ?k)%N] =>
             let F := fresh in destruct (c =? k)%N eqn:F;
               [apply N.eqb_eq in F; subst; discriminate|]
         end.
  reflexivity.
Qed.

(** The periods of the result of [sanitizeNumericDot]: with [n] periods
    in the input, [n - 1] when [n] is at least two, and [n] otherwise. *)
Lemma sanitizeNumericDot_periods value :
  let n := countDots (replaceClass notDigitOrDot (fun _ => []) value) in
  countDots (sanitizeNumericDot value)
  = if (2 <=? n)%nat then (n - 1)%nat else n.
Proof.
  cbv zeta. unfold sanitizeNumericDot. cbv zeta.
  apply dropClosingDots_count, cleaned_without_terminators.
Qed.

(** C10. On the input [1.2.3.4] the result of [sanitizeNumericDot] is
    [1.2.34]: only the last period is removed, and two periods are
    left. *)
Theorem sanitizeNumericDot_leaves_two_periods :
  sanitizeNumericDot (lit "1.2.3.4") = lit "1.2.34" /\
  countDots (sanitizeNumericDot (lit "1.2.3.4")) = 2%nat.
Proof. split; reflexivity. Qed.

End StringFacts.

(* ===================================================================== *)
(** * Properties of the text fitting *)
(* ===================================================================== *)

Section FitFacts.

Variable measureText : Font -> jsstring -> Q.
Variables (text : jsstring) (weight minPx : Z).

Let loop := fun maxWidth => fitLoop measureText text maxWidth weight minPx.
Let fits := fun maxWidth => fitsAt measureText text maxWidth weight.

(** The loop, one iteration unfolded. *)
Lemma fitLoop_unfold maxWidth ctx sizePx :
  loop maxWidth ctx sizePx =
    if sizePx >? minPx then
      if fits maxWidth sizePx
      then (setFont ctx weight sizePx, sizePx)
      else loop maxWidth (setFont ctx weight sizePx) (sizePx - 2)
    else (ctx, minPx).
Proof.
  unfold loop, fits, fitsAt.
  funelim (fitLoop measureText text maxWidth weight minPx ctx sizePx);
    rewrite e; reflexivity.
Qed.

(** Induction along the sizes the loop visits. *)
Lemma size_ind (P : Z -> Prop) :
  (forall sizePx, (sizePx > minPx -> P (sizePx - 2)) -> P sizePx) ->
  forall sizePx, P sizePx.
Proof.
  intros step sizePx.
  remember (Z.to_nat (sizePx - minPx)) as n eqn:Hn.
  revert sizePx Hn.
  induction n as [n IH] using lt_wf_ind. intros sizePx Hn.
  apply step. intros Hgt.
  apply (IH (Z.to_nat (sizePx - 2 - minPx))); [lia | reflexivity].
Qed.

(** What the loop returns: the first size of its descent above the floor
    at which the text fits, and the floor when there is none. *)
Lemma fitLoop_first_fit maxWidth sizePx : forall ctx,
  let r := snd (loop maxWidth ctx sizePx) in
  (r = minPx /\
   forall k, 0 <= k -> sizePx - 2 * k > minPx ->
             fits maxWidth (sizePx - 2 * k) = false)
  \/
  (exists k, 0 <= k /\ r = sizePx - 2 * k /\ r > minPx /\
     fits maxWidth r = true /\
     forall j, 0 <= j < k -> fits maxWidth (sizePx - 2 * j) = false).
Proof.
  pattern sizePx. apply size_ind. clear sizePx. intros sizePx IH ctx.
  cbv zeta. rewrite fitLoop_unfold.
  destruct (sizePx >? minPx) eqn:Hgt.
  - destruct (fits maxWidth sizePx) eqn:Hfit.
    + right. exists 0. cbn [snd].
      repeat split; try lia; try exact Hfit.
    + destruct (IH ltac:(lia) (setFont ctx weight sizePx))
        as [[Hr Hno]|[k [Hk [Hr [Hgt' [Hfit' Hno]]]]]].
      * left. split; [exact Hr|].
        intros k Hk Hsz.
        destruct (Z.eq_dec k 0) as [->|Hk0].
        -- rewrite Z.sub_0_r. exact Hfit.
        -- replace (sizePx - 2 * k) with (sizePx - 2 - 2 * (k - 1)) by lia.
           apply Hno; lia.
      * right. exists (k + 1). repeat split; try lia.
        -- exact Hfit'.
        -- intros j Hj.
           destruct (Z.eq_dec j 0) as [->|Hj0].
           ++ rewrite Z.sub_0_r. exact Hfit.
           ++ replace (sizePx - 2 * j) with (sizePx - 2 - 2 * (j - 1))
                by lia.
              apply Hno; lia.
  - left. cbn [snd]. split; [reflexivity|]. intros k Hk Hsz. lia.
Qed.

(** The loop touches the font of the context only. *)
Lemma fitLoop_frame maxWidth sizePx : forall ctx,
  sameButFont ctx (fst (loop maxWidth ctx sizePx)).
Proof.
  pattern sizePx. apply size_ind. clear sizePx. intros sizePx IH ctx.
  rewrite fitLoop_unfold.
  destruct (sizePx >? minPx) eqn:Hgt; [|repeat split].
  destruct (fits maxWidth sizePx); [repeat split|].
  specialize (IH ltac:(lia) (setFont ctx weight sizePx)).
  unfold sameButFont in *. simpl in IH. exact IH.
Qed.

(** The size it returns does not depend on the context. *)
Lemma fitLoop_size_any_ctx maxWidth sizePx : forall ctx ctx',
  snd (loop maxWidth ctx sizePx) = snd (loop maxWidth ctx' sizePx).
Proof.
  pattern sizePx. apply size_ind. clear sizePx. intros sizePx IH ctx ctx'.
  rewrite (fitLoop_unfold _ ctx), (fitLoop_unfold _ ctx').
  destruct (sizePx >? minPx) eqn:Hgt; [|reflexivity].
  destruct (fits maxWidth sizePx); [reflexivity|].
  apply IH. lia.
Qed.

Lemma fitLoop_ge_floor maxWidth ctx sizePx :
  minPx <= snd (loop maxWidth ctx sizePx).
Proof.
  destruct (fitLoop_first_fit maxWidth sizePx ctx)
    as [[Hr _]|[k [_ [_ [Hgt _]]]]]; lia.
Qed.

Lemma fitLoop_le_start maxWidth ctx sizePx :
  minPx <= sizePx -> snd (loop maxWidth ctx sizePx) <= sizePx.
Proof.
  destruct (fitLoop_first_fit maxWidth sizePx ctx)
    as [[Hr _]|[k [Hk [Hr _]]]]; lia.
Qed.

Lemma fits_wider w1 w2 sizePx :
  (w1 <= w2)%Q -> fits w1 sizePx = true -> fits w2 sizePx = true.
Proof.
  unfold fits, fitsAt. intros Hw H.
  apply Qle_bool_iff in H. apply Qle_bool_iff.
  eapply Qle_trans; eassumption.
Qed.

Lemma fitLoop_mono_width w1 w2 ctx1 ctx2 sizePx :
  (w1 <= w2)%Q ->
  snd (loop w1 ctx1 sizePx) <= snd (loop w2 ctx2 sizePx).
Proof.
  intros Hw.
  destruct (fitLoop_first_fit w1 sizePx ctx1)
    as [[Hr1 _]|[k1 [Hk1 [Hr1 [Hgt1 [Hfit1 _]]]]]].
  - cbv zeta in Hr1. rewrite Hr1. apply fitLoop_ge_floor.
  - cbv zeta in *. apply (fits_wider _ _ _ Hw) in Hfit1.
    destruct (fitLoop_first_fit w2 sizePx ctx2)
      as [[Hr2 Hno]|[k2 [Hk2 [Hr2 [Hgt2 [_ Hno]]]]]]; cbv zeta in *.
    + rewrite Hr1 in Hfit1. rewrite Hno in Hfit1; [discriminate|lia|lia].
    + destruct (Z_lt_le_dec k1 k2) as [Hlt|Hle]; [|lia].
      rewrite Hr1 in Hfit1. rewrite Hno in Hfit1; [discriminate|lia].
Qed.

End FitFacts.

Section FitTheorems.

Variable measureText : Font -> jsstring -> Q.

(** C3, as the code has it. For every text line [fitTextSize] returns
    the first size of the descent [startPx], [startPx - 2],
    [startPx - 4], ... above the floor at which the measured width is
    within the available width, and the floor when there is none; it
    always returns, and [drawCenteredText] draws the text at the
    returned size, whether it fits or not. *)
Theorem fitTextSize_first_fit_of_descent
    (ctx : Ctx) (text : jsstring) (maxWidth : Q)
    (weight startPx minPx : Z) (centerX y : num) :
  let r := snd (fitTextSize measureText ctx text maxWidth weight startPx
                  minPx) in
  let fits := fitsAt measureText text maxWidth weight in
  ((r = minPx /\
    forall k, 0 <= k -> startPx - 2 * k > minPx ->
              fits (startPx - 2 * k) = false)
   \/
   (exists k, 0 <= k /\ r = startPx - 2 * k /\ r > minPx /\
      fits r = true /\
      forall j, 0 <= j < k -> fits (startPx - 2 * j) = false))
  /\
  let d := drawCenteredText measureText ctx text centerX y maxWidth weight
             startPx minPx in
  snd d = r /\
  calls (fst d) =
    calls ctx ++
    [FillText text {| weight := weight; sizePx := r |} "center" "top"
       centerX y].
Proof.
  cbv zeta. split.
  - apply (fitLoop_first_fit measureText text weight minPx maxWidth startPx
             ctx).
  - unfold drawCenteredText, fitTextSize.
    pose proof (fitLoop_frame measureText text weight minPx maxWidth
                  startPx ctx) as Hf.
    destruct (fitLoop measureText text maxWidth weight minPx ctx startPx)
      as [ctx' r] eqn:E.
    simpl in *. split; [reflexivity|].
    destruct Hf as (_ & _ & _ & _ & _ & Hc). rewrite Hc. reflexivity.
Qed.

(** C6. For a fixed text line, the size chosen at the available width
    [w1] is at most the size chosen at any width [w2] with
    [w1 <= w2]. *)
Theorem fitTextSize_monotone_in_width
    (ctx : Ctx) (text : jsstring) (weight startPx minPx : Z) (w1 w2 : Q) :
  (w1 <= w2)%Q ->
  snd (fitTextSize measureText ctx text w1 weight startPx minPx)
  <= snd (fitTextSize measureText ctx text w2 weight startPx minPx).
Proof.
  intros Hw. unfold fitTextSize. now apply fitLoop_mono_width.
Qed.

End FitTheorems.

Lemma proportional_monotone weight text s1 s2 :
  s1 <= s2 ->
  (Samples.proportional {| weight := weight; sizePx := s1 |} text
   <= Samples.proportional {| weight := weight; sizePx := s2 |} text)%Q.
Proof.
  intros H. unfold Samples.proportional. simpl.
  apply Qmult_le_compat_r.
  - apply Qmult_le_l; [reflexivity|]. now rewrite <- Zle_Qle.
  - replace 0%Q with (inject_Z 0) by reflexivity. rewrite <- Zle_Qle. lia.
Qed.

(** C3, as it is stated, fails. With text metrics proportional to the font
    size, the eight code units of [password] are 492.8 pixels wide at
    88 px and 487.2 pixels at 87 px. Within 490 pixels, from the candidate
    88 and the floor 42, the largest size at which the text fits is 87;
    [fitTextSize] steps from 88 to 86 and returns 86. *)
Lemma fitTextSize_steps_over_87 :
  (forall weight text s1 s2, s1 <= s2 ->
     (Samples.proportional {| weight := weight; sizePx := s1 |} text
      <= Samples.proportional {| weight := weight; sizePx := s2 |} text)%Q)
  /\ snd (fitTextSize Samples.proportional freshCtx (lit "password")
            490 900 88 42) = 86
  /\ fitsAt Samples.proportional (lit "password") 490 900 87 = true
  /\ 42 <= 87 <= 88
  /\ 86 < 87.
Proof.
  split; [exact proportional_monotone|].
  repeat split; try reflexivity; try lia; discriminate.
Qed.

(** The monotonicity at the widths 487 and 490, for the password line. *)
Lemma fitTextSize_monotone_in_width_witness :
  (487 <= 490)%Q /\
  snd (fitTextSize Samples.proportional freshCtx (lit "password")
         487 900 88 42)
  <= snd (fitTextSize Samples.proportional freshCtx (lit "password")
            490 900 88 42).
Proof.
  split; [discriminate|].
  apply (fitTextSize_monotone_in_width Samples.proportional freshCtx
           (lit "password") 900 88 42 487 490).
  discriminate.
Defined.

(* ===================================================================== *)
(** * Properties of the sticker *)
(* ===================================================================== *)

Lemma shrink_inv st : packInv st -> packInv (shrink st).
Proof.
  unfold packInv, shrink. intros H.
  destruct (qrSize st >? 360) eqn:Hq; [|destruct (gapQrText st >? 26) eqn:Hg];
    cbn [qrSize gapQrText passStartPx ssidStartPx netStartPx];
    Z.div_mod_to_equations; lia.
Qed.

Lemma initPack_inv : packInv initPack.
Proof. unfold packInv, initPack. cbn. repeat split; lia. Qed.

Lemma iter_shrink_inv k : packInv (Nat.iter k shrink initPack).
Proof.
  induction k as [|k IH]; [apply initPack_inv|].
  cbn [Nat.iter]. now apply shrink_inv.
Qed.

Section PackFacts.

Variable measureText : Font -> jsstring -> Q.
Variables (passText ssidText netText : jsstring).
Variables (logoH wifiH : num).

Let loop := packLoop measureText passText ssidText netText logoH wifiH.
Let fit := fitAll measureText passText ssidText netText.

(** The loop, one iteration unfolded. *)
Lemma packLoop_unfold i ctx st :
  loop i ctx st =
    if i <? 18 then
      if layoutFits logoH wifiH st (snd (fit ctx st))
      then {| end_ctx := fst (fit ctx st); end_pack := st; end_i := i;
              end_break := true |}
      else loop (i + 1) (fst (fit ctx st)) (shrink st)
    else {| end_ctx := ctx; end_pack := st; end_i := i;
            end_break := false |}.
Proof.
  unfold loop, fit.
  funelim (packLoop measureText passText ssidText netText logoH wifiH
             i ctx st); rewrite e; reflexivity.
Qed.

(** Induction along the iterations that are left. *)
Lemma iter_ind (P : Z -> Prop) :
  (forall i, (i < 18 -> P (i + 1)) -> P i) -> forall i, P i.
Proof.
  intros step i.
  remember (remaining i) as n eqn:Hn. revert i Hn.
  induction n as [n IH] using lt_wf_ind. intros i Hn.
  apply step. intros Hlt.
  apply (IH (remaining (i + 1))); [unfold remaining in *; lia|reflexivity].
Qed.

Lemma packLoop_inv i : forall ctx st,
  packInv st -> packInv (end_pack (loop i ctx st)).
Proof.
  pattern i. apply iter_ind. clear i. intros i IH ctx st Hst.
  rewrite packLoop_unfold.
  destruct (i <? 18) eqn:Hi; [|exact Hst].
  destruct (layoutFits logoH wifiH st (snd (fit ctx st))); [exact Hst|].
  apply IH; [lia|]. now apply shrink_inv.
Qed.

(** The loop is left with [i] at most 18, and at 18 unless by [break]. *)
Lemma packLoop_counts i : forall ctx st,
  i <= 18 ->
  let e := loop i ctx st in
  i <= end_i e <= 18 /\
  (end_break e = true -> end_i e < 18) /\
  (end_break e = false -> end_i e = 18).
Proof.
  pattern i. apply iter_ind. clear i. intros i IH ctx st Hi. cbv zeta.
  rewrite packLoop_unfold.
  destruct (i <? 18) eqn:Hlt.
  - destruct (layoutFits logoH wifiH st (snd (fit ctx st))).
    + cbn. repeat split; intros; try lia; try discriminate.
    + specialize (IH ltac:(lia) (fst (fit ctx st)) (shrink st) ltac:(lia)).
      cbv zeta in IH. destruct IH as (H1 & H2 & H3).
      repeat split; try lia; auto.
  - cbn. repeat split; intros; try lia; try discriminate.
Qed.

End PackFacts.

Section CtxFacts.

Variable ctx : Ctx.

Lemma calls_withAlpha a : calls (withAlpha ctx a) = calls ctx.
Proof. reflexivity. Qed.

Lemma calls_withSmoothing b : calls (withSmoothing ctx b) = calls ctx.
Proof. reflexivity. Qed.

Lemma smoothing_withSmoothing b :
  imageSmoothingEnabled (withSmoothing ctx b) = b.
Proof. reflexivity. Qed.

Lemma calls_drawImage img x y w h :
  calls (drawImage ctx img x y w h) =
    calls ctx ++
    [DrawImage img x y w h (imageSmoothingEnabled ctx) (globalAlpha ctx)].
Proof. reflexivity. Qed.

End CtxFacts.

Section StickerFacts.

Variable measureText : Font -> jsstring -> Q.

Lemma fitTextSize_calls ctx text maxWidth weight startPx minPx :
  calls (fst (fitTextSize measureText ctx text maxWidth weight startPx
                minPx)) = calls ctx.
Proof.
  unfold fitTextSize.
  destruct (fitLoop_frame measureText text weight minPx maxWidth startPx ctx)
    as (_ & _ & _ & _ & _ & H).
  exact H.
Qed.

Lemma fitTextSize_any_ctx ctx ctx' text maxWidth weight startPx minPx :
  snd (fitTextSize measureText ctx text maxWidth weight startPx minPx)
  = snd (fitTextSize measureText ctx' text maxWidth weight startPx minPx).
Proof. apply fitLoop_size_any_ctx. Qed.

Lemma fitTextSize_ge_floor ctx text maxWidth weight startPx minPx :
  minPx
  <= snd (fitTextSize measureText ctx text maxWidth weight startPx minPx).
Proof. apply fitLoop_ge_floor. Qed.

(** [drawCenteredText] adds one call, at the fitted size. *)
Lemma drawCenteredText_calls ctx text centerX y maxWidth weight startPx
    minPx :
  let r := snd (fitTextSize measureText ctx text maxWidth weight startPx
                  minPx) in
  let d := drawCenteredText measureText ctx text centerX y maxWidth weight
             startPx minPx in
  snd d = r /\
  calls (fst d) =
    calls ctx ++
    [FillText text {| weight := weight; sizePx := r |} "center" "top"
       centerX y].
Proof.
  cbv zeta. unfold drawCenteredText.
  pose proof (fitTextSize_calls ctx text maxWidth weight startPx minPx)
    as Hc.
  destruct (fitTextSize measureText ctx text maxWidth weight startPx minPx)
    as [ctx' r].
  cbn [fst snd] in *. split; [reflexivity|].
  unfold fillText, record. cbn [calls]. rewrite <- Hc. reflexivity.
Qed.

Lemma In_FillText_size text weight size size' align baseline x y cs :
  size = size' ->
  In (FillText text {| weight := weight; sizePx := size' |} align baseline
        x y) cs ->
  In (FillText text {| weight := weight; sizePx := size |} align baseline
        x y) cs.
Proof. intros ->. exact (fun H => H). Qed.

(** What [paint] adds to the calls of the context: the QR code at the
    size of the loop, and the three lines at the sizes fitted from its
    starting sizes. *)
Lemma paint_calls item logoImg wifiImg qrImg ctx st :
  let maxW := inject_Z maxTextW in
  let cs := calls (paint measureText item logoImg wifiImg qrImg ctx st) in
  paintsQr qrImg (qrSize st) cs /\
  paintsText (passTextOf item) 900
    (snd (fitTextSize measureText freshCtx (passTextOf item) maxW 900
            (passStartPx st) 42)) cs /\
  paintsText (field ssid item) 800
    (snd (fitTextSize measureText freshCtx (field ssid item) maxW 800
            (ssidStartPx st) 28)) cs /\
  paintsText (field networkType item) 900
    (snd (fitTextSize measureText freshCtx (field networkType item) maxW 900
            (netStartPx st) 34)) cs.
Proof.
  cbv zeta. unfold paint. cbv zeta.
  rewrite calls_withAlpha, calls_drawImage, calls_withSmoothing,
    calls_withAlpha.
  rewrite !(proj2 (drawCenteredText_calls _ _ _ _ _ _ _ _)).
  rewrite !fitTextSize_calls.
  rewrite calls_drawImage, calls_withSmoothing, smoothing_withSmoothing.
  rewrite calls_drawImage, calls_withSmoothing.
  repeat rewrite <- app_assoc. cbn [app].
  split; [|split; [|split]].
  - do 3 eexists. apply in_or_app. right. right. left. reflexivity.
  - do 2 eexists. eapply In_FillText_size; [apply fitTextSize_any_ctx|].
    apply in_or_app. right. do 2 right. left. reflexivity.
  - do 2 eexists. eapply In_FillText_size; [apply fitTextSize_any_ctx|].
    apply in_or_app. right. do 3 right. left. reflexivity.
  - do 2 eexists. eapply In_FillText_size; [apply fitTextSize_any_ctx|].
    apply in_or_app. right. do 4 right. left. reflexivity.
Qed.

(** The sizes of [resolvedSizes], each fitted on its own. *)
Lemma resolvedSizes_fitted item logoImg wifiImg :
  let maxW := inject_Z maxTextW in
  let st := end_pack (pack measureText item logoImg wifiImg whiteLabel) in
  resolvedSizes measureText item logoImg wifiImg =
    (qrSize st,
     {| passPx := snd (fitTextSize measureText freshCtx (passTextOf item)
                         maxW 900 (passStartPx st) 42);
        ssidPx := snd (fitTextSize measureText freshCtx (field ssid item)
                         maxW 800 (ssidStartPx st) 28);
        netPx := snd (fitTextSize measureText freshCtx
                        (field networkType item) maxW 900 (netStartPx st)
                        34) |}).
Proof.
  cbv zeta. unfold resolvedSizes, fitAll.
  set (e := pack measureText item logoImg wifiImg whiteLabel).
  cbn [snd].
  rewrite (fitTextSize_any_ctx (end_ctx e) freshCtx (passTextOf item)).
  rewrite (fitTextSize_any_ctx _ freshCtx (field ssid item)).
  rewrite (fitTextSize_any_ctx _ freshCtx (field networkType item)).
  reflexivity.
Qed.

(** The resolved sizes of every sticker: the QR code is at least 356
    pixels, the three lines of text are at least at their floors. *)
Lemma resolvedSizes_lower_bounds item logoImg wifiImg :
  let r := resolvedSizes measureText item logoImg wifiImg in
  356 <= fst r /\
  42 <= passPx (snd r) /\ 28 <= ssidPx (snd r) /\ 34 <= netPx (snd r).
Proof.
  cbv zeta. rewrite resolvedSizes_fitted.
  cbn [fst snd passPx ssidPx netPx]. split.
  - assert (H : packInv (end_pack (pack measureText item logoImg wifiImg
                                     whiteLabel)))
      by (unfold pack; apply packLoop_inv, initPack_inv).
    destruct H as ([Hq _] & _). exact Hq.
  - repeat split; apply fitTextSize_ge_floor.
Qed.

(** The sums and the differences of integers are exact up to
    [2 ^ 53]. *)
Lemma nadd_ofZ a b :
  Z.abs (a + b) <= 9007199254740992 -> (ofZ a + ofZ b)%num = ofZ (a + b).
Proof.
  intros H. unfold nadd, ofZ, fadd. f_equal.
  rewrite <- (round53_Z (a + b) H). apply round53_comp.
  now rewrite inject_Z_plus.
Qed.

Lemma nsub_ofZ a b :
  Z.abs (a - b) <= 9007199254740992 -> (ofZ a - ofZ b)%num = ofZ (a - b).
Proof.
  intros H. unfold nsub, nopp, nadd, ofZ, fadd. f_equal.
  rewrite <- (round53_Z (a - b) H). apply round53_comp.
  unfold Z.sub. now rewrite inject_Z_plus, inject_Z_opp.
Qed.

Lemma nle_ofZ a b : (ofZ a <=? ofZ b)%num = (a <=? b).
Proof.
  unfold nle, ofZ. apply eq_true_iff_eq.
  now rewrite Qle_bool_iff, Z.leb_le, <- Zle_Qle.
Qed.

Lemma nround_ofZ z : nround (ofZ z) = ofZ z.
Proof.
  unfold nround, ofZ. do 2 f_equal.
  unfold Qfloor, Qplus, inject_Z. cbn [Qnum Qden Pos.mul].
  Z.div_mod_to_equations. lia.
Qed.

Lemma inject_Z_pos d : 0 < d -> (0 < inject_Z d)%Q.
Proof. intros H. change 0%Q with (inject_Z 0). now rewrite <- Zlt_Qlt. Qed.

Lemma inject_Z_nonneg d : 0 <= d -> (0 <= inject_Z d)%Q.
Proof. intros H. change 0%Q with (inject_Z 0). now rewrite <- Zle_Qle. Qed.

(** The quotient of two sizes, within the error of its rounding. *)
Lemma ndiv_ofZ_sized T d :
  0 <= T -> 0 < d ->
  exists q, (ofZ T / ofZ d)%num = Fin q /\
    (inject_Z T / inject_Z d * (1 - eps) <= q)%Q /\
    (q <= inject_Z T / inject_Z d * (1 + eps))%Q.
Proof.
  intros HT Hd. unfold ndiv, ofZ. pose proof (inject_Z_pos d Hd) as Hp.
  destruct (Qeq_bool (inject_Z d) 0) eqn:E.
  - apply Qeq_bool_eq in E. rewrite E in Hp. now apply Qlt_irrefl in Hp.
  - eexists. split; [reflexivity|]. apply round53_near.
    apply Qle_shift_div_l; [exact Hp|]. rewrite Qmult_0_l.
    now apply inject_Z_nonneg.
Qed.

(** The integer that [Math.round] gives, from bounds on the number. *)
Lemma floor_half_between (s : Q) (k : Z) :
  (inject_Z k - (1 # 2) <= s)%Q -> (s < inject_Z k + (1 # 2))%Q ->
  Qfloor (s + (1 # 2)) = k.
Proof.
  intros H1 H2.
  assert (A : (k <= Qfloor (s + (1 # 2)))%Z).
  { rewrite <- (Qfloor_Z k). apply Qfloor_resp_le. lra. }
  assert (B : (Qfloor (s + (1 # 2)) < k + 1)%Z).
  { rewrite Zlt_Qlt. apply Qle_lt_trans with (s + (1 # 2))%Q;
      [apply Qfloor_le|]. rewrite inject_Z_plus. change (inject_Z 1) with 1%Q.
    lra. }
  lia.
Qed.

(** A side of [d] pixels scaled by a factor of at most [T / d], up to
    the rounding of the factor, is rounded to at most [T] pixels. *)
Lemma round_scaled d T m :
  0 < d -> 0 <= T <= 1000000 -> (0 <= m)%Q ->
  (m <= inject_Z T / inject_Z d * (1 + eps))%Q ->
  exists k, nround (ofZ d * Fin m)%num = ofZ k /\ 0 <= k <= T.
Proof.
  intros Hd HT Hm Hle. pose proof (inject_Z_pos d Hd) as Hp.
  unfold nmul, ofZ, nround, fmul. eexists. split; [reflexivity|].
  set (p := (inject_Z d * m)%Q).
  assert (Hp0 : (0 <= p)%Q).
  { unfold p. apply Qmult_le_0_compat; [lra|exact Hm]. }
  assert (HpT : (p <= inject_Z T * (1 + eps))%Q).
  { unfold p.
    apply Qle_trans
      with (inject_Z d * (inject_Z T / inject_Z d * (1 + eps)))%Q.
    - apply Qmult_le_l; assumption.
    - apply Qle_lteq. right. field. lra. }
  destruct (round53_near p Hp0) as [N1 N2].
  assert (HT0 : (0 <= inject_Z T)%Q) by (apply inject_Z_nonneg; lia).
  assert (HT1 : (inject_Z T <= 1000000)%Q).
  { change 1000000%Q with (inject_Z 1000000). rewrite <- Zle_Qle. lia. }
  unfold eps in *. set (s := round53 p) in *. set (t := inject_Z T) in *.
  split.
  - change 0 with (Qfloor 0). apply Qfloor_resp_le. lra.
  - assert (B : (Qfloor (s + (1 # 2)) < T + 1)%Z).
    { rewrite Zlt_Qlt. apply Qle_lt_trans with (s + (1 # 2))%Q;
        [apply Qfloor_le|]. rewrite inject_Z_plus.
      change (inject_Z 1) with 1%Q. fold t. lra. }
    lia.
Qed.

(** A side of [d] pixels scaled by the rounded [T / d] is rounded to
    [T] pixels. *)
Lemma round_scaled_exact d T m :
  0 < d -> 0 <= T <= 1000000 ->
  (inject_Z T / inject_Z d * (1 - eps) <= m)%Q ->
  (m <= inject_Z T / inject_Z d * (1 + eps))%Q ->
  nround (ofZ d * Fin m)%num = ofZ T.
Proof.
  intros Hd HT Hge Hle. pose proof (inject_Z_pos d Hd) as Hp.
  unfold nmul, ofZ, nround, fmul. do 2 f_equal.
  set (p := (inject_Z d * m)%Q).
  assert (HT0 : (0 <= inject_Z T)%Q) by (apply inject_Z_nonneg; lia).
  assert (HT1 : (inject_Z T <= 1000000)%Q).
  { change 1000000%Q with (inject_Z 1000000). rewrite <- Zle_Qle. lia. }
  assert (HpT : (p <= inject_Z T * (1 + eps))%Q).
  { unfold p.
    apply Qle_trans
      with (inject_Z d * (inject_Z T / inject_Z d * (1 + eps)))%Q.
    - apply Qmult_le_l; assumption.
    - apply Qle_lteq. right. field. lra. }
  assert (HpT' : (inject_Z T * (1 - eps) <= p)%Q).
  { unfold p.
    apply Qle_trans
      with (inject_Z d * (inject_Z T / inject_Z d * (1 - eps)))%Q.
    - apply Qle_lteq. right. field. lra.
    - apply Qmult_le_l; assumption. }
  assert (Hp0 : (0 <= p)%Q) by (unfold eps in HpT'; lra).
  destruct (round53_near p Hp0) as [N1 N2].
  unfold eps in *. set (s := round53 p) in *. set (t := inject_Z T) in *.
  apply floor_half_between; fold t; lra.
Qed.

(** The scale of an image of [w] by [h] pixels towards a square of side
    [T]. *)
Lemma scale_towards T w h :
  0 <= T -> 0 < w -> 0 < h ->
  exists m, nmin (ofZ T / ofZ w)%num (ofZ T / ofZ h)%num = Fin m /\
    (0 <= m)%Q /\
    (m <= inject_Z T / inject_Z w * (1 + eps))%Q /\
    (m <= inject_Z T / inject_Z h * (1 + eps))%Q /\
    (w = h -> (inject_Z T / inject_Z w * (1 - eps) <= m)%Q).
Proof.
  intros HT Hw Hh.
  destruct (ndiv_ofZ_sized T w HT Hw) as (a & -> & A1 & A2).
  destruct (ndiv_ofZ_sized T h HT Hh) as (b & -> & B1 & B2).
  assert (Hq : forall d, 0 < d -> (0 <= inject_Z T / inject_Z d)%Q).
  { intros d Hd. apply Qle_shift_div_l; [now apply inject_Z_pos|].
    rewrite Qmult_0_l. now apply inject_Z_nonneg. }
  pose proof (Hq w Hw) as Qw. pose proof (Hq h Hh) as Qh.
  unfold eps in *.
  unfold nmin, nle. destruct (Qle_bool a b) eqn:E;
    eexists; (split; [reflexivity|]).
  - apply Qle_bool_iff in E. repeat split; try lra.
    all: intros _; exact A1.
  - assert (E' : ~ (a <= b)%Q) by (rewrite <- Qle_bool_iff; congruence).
    apply Qnot_le_lt in E'. repeat split; try lra.
    all: intros ->; exact B1.
Qed.

Lemma fitTextSize_le_start ctx text maxWidth weight startPx minPx :
  minPx <= startPx ->
  snd (fitTextSize measureText ctx text maxWidth weight startPx minPx)
  <= startPx.
Proof. apply fitLoop_le_start. Qed.

(** The footer icon of an image with a height is scaled to 56 pixels. *)
Lemma wifiH_of_sized wifiImg :
  0 < img_height wifiImg -> wifiH wifiImg = Fin (inject_Z 56).
Proof.
  intros Hh. unfold wifiH, wifiScale, wifiTargetH.
  destruct (ndiv_ofZ_sized 56 (img_height wifiImg) ltac:(lia) Hh)
    as (q & -> & Q1 & Q2).
  apply round_scaled_exact; [exact Hh|lia|exact Q1|exact Q2].
Qed.

(** The logo of an image with a width and a height is scaled to at most
    92 pixels of height. *)
Lemma logoH_of_sized logoImg :
  0 < img_width logoImg -> 0 < img_height logoImg ->
  exists k, logoH logoImg = Fin (inject_Z k) /\ 0 <= k <= 92.
Proof.
  intros Hw Hh. unfold logoH, logoScale, logoTargetH, logoMaxW.
  change (labelW - padX * 2) with 490.
  destruct (ndiv_ofZ_sized 490 (img_width logoImg) ltac:(lia) Hw)
    as (a & -> & A1 & A2).
  destruct (ndiv_ofZ_sized 92 (img_height logoImg) ltac:(lia) Hh)
    as (b & -> & B1 & B2).
  assert (Ha : (0 <= a)%Q).
  { apply Qle_trans with (2 := A1). apply Qmult_le_0_compat; [|discriminate].
    apply Qle_shift_div_l; [now apply inject_Z_pos|]. rewrite Qmult_0_l.
    discriminate. }
  assert (Hb : (0 <= b)%Q).
  { apply Qle_trans with (2 := B1). apply Qmult_le_0_compat; [|discriminate].
    apply Qle_shift_div_l; [now apply inject_Z_pos|]. rewrite Qmult_0_l.
    discriminate. }
  assert (Hmin : exists m, nmin (Fin a) (Fin b) = Fin m /\
                           (0 <= m)%Q /\ (m <= b)%Q).
  { unfold nmin, nle. destruct (Qle_bool a b) eqn:E.
    - exists a. split; [reflexivity|]. split; [exact Ha|].
      now apply Qle_bool_iff.
    - exists b. split; [reflexivity|]. split; [exact Hb|apply Qle_refl]. }
  destruct Hmin as (m & -> & Hm0 & Hm).
  apply (round_scaled (img_height logoImg) 92 m Hh); [lia|exact Hm0|].
  now apply Qle_trans with b.
Qed.

(** With a logo of at most 92 pixels and the footer icon at 56, the
    initial sizes fit whatever the fitted font sizes are. *)
Lemma layoutFits_initially k f :
  0 <= k <= 92 -> 42 <= passPx f <= 88 -> 28 <= ssidPx f <= 56 ->
  34 <= netPx f <= 74 ->
  layoutFits (ofZ k) (ofZ 56) initPack f = true.
Proof.
  intros Hk Hp Hs Hn. unfold layoutFits, nge.
  cbn [qrSize gapQrText initPack].
  unfold labelH, labelW, makeStickerCanvas, padTop, padBottom, gapNetFooter,
    gapSsidNet, gapPassSsid, gapLogoQr.
  cbn [ROTATE_CONTENT_FOR_HORIZONTAL_LABEL negb snd LABEL_OUT_PX_w
       LABEL_OUT_PX_h].
  unfold LABEL_OUT_PX_w.
  repeat ((rewrite nadd_ofZ by lia) || (rewrite nsub_ofZ by lia)
          || rewrite nle_ofZ).
  rewrite !andb_true_iff, !Z.leb_le. lia.
Qed.

(** With images that have a size the packing loop is left at its first
    iteration, with the initial sizes: the QR code stays at 440. *)
Lemma pack_fits_at_once item logoImg wifiImg ctx :
  0 < img_width logoImg -> 0 < img_height logoImg ->
  0 < img_height wifiImg ->
  let e := pack measureText item logoImg wifiImg ctx in
  end_pack e = initPack /\ end_i e = 0 /\ end_break e = true.
Proof.
  intros Hw Hh Hf. cbv zeta. unfold pack.
  rewrite packLoop_unfold. cbn [Z.ltb Z.compare].
  destruct (logoH_of_sized logoImg Hw Hh) as [k [-> Hk]].
  rewrite (wifiH_of_sized wifiImg Hf).
  change (Fin (inject_Z k)) with (ofZ k).
  change (Fin (inject_Z 56)) with (ofZ 56).
  rewrite layoutFits_initially; [repeat split| exact Hk | | |];
    unfold fitAll; cbn [snd passPx ssidPx netPx initPack
                        passStartPx ssidStartPx netStartPx];
    (split; [apply fitTextSize_ge_floor|apply fitTextSize_le_start; lia]).
Qed.

(** The order of the shrinking, over a whole run of the loop: the gap is
    below 38 only with the QR code at or below 360, and a starting font
    size is below its initial value only with the QR code at or below
    360 and the gap at 26. The gap stays within 26 and 38, the starting
    font sizes stay at or above 60, 40 and 52. *)
Lemma pack_priority_invariant item logoImg wifiImg ctx :
  packInv (end_pack (pack measureText item logoImg wifiImg ctx)).
Proof. unfold pack. apply packLoop_inv. apply initPack_inv. Qed.

End StickerFacts.

Section LoopFacts.

Variable measureText : Font -> jsstring -> Q.
Variables (passText ssidText netText : jsstring).
Variables (logoH wifiH : num).

Let loop := packLoop measureText passText ssidText netText logoH wifiH.
Let fit := fitAll measureText passText ssidText netText.

(** The fitted sizes do not depend on the context they are measured
    in. *)
Lemma fitAll_any_ctx ctx ctx' st : snd (fit ctx st) = snd (fit ctx' st).
Proof.
  unfold fit, fitAll. cbn [snd]. f_equal; apply fitTextSize_any_ctx.
Qed.

Lemma iter_shrink_shift k st :
  Nat.iter k shrink (shrink st) = Nat.iter (S k) shrink st.
Proof. symmetry. apply Nat.iter_succ_r. Qed.

(** The loop shrinks once for each iteration that does not fit, and
    stops at the first one that fits, or after the last. *)
Lemma packLoop_iterates i : forall ctx st,
  i <= 18 ->
  let fits := fun s => layoutFits logoH wifiH s (snd (fit ctx s)) in
  let e := loop i ctx st in
  exists k : nat,
    end_i e = i + Z.of_nat k /\
    end_pack e = Nat.iter k shrink st /\
    (forall j, (j < k)%nat -> fits (Nat.iter j shrink st) = false) /\
    (end_break e = true -> fits (end_pack e) = true) /\
    (end_break e = false -> end_i e = 18).
Proof.
  pattern i. apply iter_ind. clear i. intros i IH ctx st Hi. cbv zeta.
  unfold loop. rewrite packLoop_unfold. fold loop fit.
  destruct (i <? 18) eqn:Hlt.
  - destruct (layoutFits logoH wifiH st (snd (fit ctx st))) eqn:Hfit.
    + exists 0%nat. cbn [end_i end_pack end_break Nat.iter].
      repeat split; try lia; try discriminate. intros _. exact Hfit.
    + destruct (IH ltac:(lia) (fst (fit ctx st)) (shrink st) ltac:(lia))
        as (k & Ei & Ep & Hno & Hb & Hnb).
      cbv zeta in Ei, Ep, Hno, Hb, Hnb.
      exists (S k). split; [lia|]. split; [now rewrite <- iter_shrink_shift|].
      split; [|split].
      * intros [|j] Hj; [exact Hfit|].
        rewrite <- iter_shrink_shift.
        rewrite (fitAll_any_ctx ctx (fst (fit ctx st))). apply Hno. lia.
      * intros Hbreak.
        rewrite (fitAll_any_ctx ctx (fst (fit ctx st))). now apply Hb.
      * exact Hnb.
  - exists 0%nat. cbn [end_i end_pack end_break Nat.iter].
    repeat split; try lia; discriminate.
Qed.

End LoopFacts.


Section StickerTheorems.

Variable measureText : Font -> jsstring -> Q.

(** C4. The packing loop runs at most 18 iterations and is always left;
    when it is left without a layout that fits, the sticker is painted
    all the same, with the sizes the loop ended on, and the promise
    resolves to the PNG. *)
Theorem pack_is_bounded_and_best_effort
    (env : Env) (item : option Item) (qrDataUrl : jsstring)
    (logoImg wifiImg qrImg : Image) :
  has2d env = true ->
  logoLoad env = Some logoImg ->
  wifiLoad env = Some wifiImg ->
  qrLoad env = Some qrImg ->
  let e := pack measureText item logoImg wifiImg whiteLabel in
  let sizes := resolvedSizes measureText item logoImg wifiImg in
  1 <= iterations e <= 18 /\
  (end_break e = false -> iterations e = 18) /\
  exists png,
    buildWifiStickerPng measureText env item qrDataUrl
      = Resolved (Some png) /\
    fst sizes = qrSize (end_pack e) /\
    paintsQr qrImg (fst sizes) (png_calls png) /\
    paintsText (passTextOf item) 900 (passPx (snd sizes)) (png_calls png) /\
    paintsText (field ssid item) 800 (ssidPx (snd sizes)) (png_calls png) /\
    paintsText (field networkType item) 900 (netPx (snd sizes))
      (png_calls png).
Proof.
  intros H2d Hlogo Hwifi Hqr. cbv zeta.
  pose proof (packLoop_counts measureText (passTextOf item)
                (field ssid item) (field networkType item)
                (logoH logoImg) (wifiH wifiImg) 0 whiteLabel initPack
                ltac:(lia)) as Hc.
  cbv zeta in Hc. fold (pack measureText item logoImg wifiImg whiteLabel)
    in Hc.
  destruct Hc as (Hi & Hb & Hnb).
  split; [|split].
  - unfold iterations.
    destruct (end_break (pack measureText item logoImg wifiImg whiteLabel));
      [specialize (Hb eq_refl)|]; lia.
  - intros Hf. unfold iterations. rewrite Hf. auto.
  - unfold buildWifiStickerPng, loadAll.
    rewrite H2d, Hlogo, Hwifi, Hqr. cbn [negb].
    eexists. split; [reflexivity|].
    rewrite resolvedSizes_fitted. cbn [fst snd passPx ssidPx netPx].
    split; [reflexivity|].
    assert (Hcalls : forall ctx, png_calls (encode env ctx) = calls ctx).
    { intros c. unfold encode.
      destruct (negb ROTATE_CONTENT_FOR_HORIZONTAL_LABEL); [reflexivity|].
      destruct (rotate2d env); reflexivity. }
    rewrite Hcalls. apply paint_calls.
Qed.

(** C5, as the code has it. Whenever the base canvas gives no 2D
    context, [buildWifiStickerPng] resolves to null: nothing is thrown,
    no image is loaded and nothing is painted. *)
Theorem buildWifiStickerPng_without_context
    (env : Env) (item : option Item) (qrDataUrl : jsstring) :
  has2d env = false ->
  buildWifiStickerPng measureText env item qrDataUrl = Resolved None.
Proof. intros H. unfold buildWifiStickerPng. rewrite H. reflexivity. Qed.

End StickerTheorems.

(** C1. With a footer icon that reports no natural size, no iteration of
    the packing loop fits, and the QR code of the sticker is resolved at
    356 pixels, below the 360 of its floor; the three lines of text are
    at 60, 40 and 52 pixels. *)
Theorem qr_code_resolves_below_its_floor :
  resolvedSizes Samples.proportional (Some Samples.clientNetwork)
    Samples.logo Samples.footerIconNoSize
  = (356, {| passPx := 60; ssidPx := 40; netPx := 52 |}).
Proof. vm_compute. reflexivity. Qed.

(** C2. The packing loop shrinks once in every iteration that does not
    fit, and tries the fitting again in the next one: it is left at the
    first iteration that fits, or after the 18th. A shrinking follows a
    strict order: with the QR code above 360 only its size is reduced,
    by 12; with the QR code through and the gap above 26 only the gap is
    reduced, by 4; only with both through are the three starting font
    sizes reduced, by 4, 3 and 3, and clamped at 60, 40 and 52. From the
    initial sizes the gap is therefore below 38 only with the QR code at
    or below 360, and a starting font size below its initial value only
    with the QR code at or below 360 and the gap at 26. The QR code is
    not clamped: the step of 12 from 368 passes the 360 of the floor and
    leaves 356, as on the sticker whose footer icon has no size, where
    no iteration fits and the 18 shrinkings end on 356, 26, 60, 40 and
    52. *)
Theorem shrink_follows_priority_order :
  (forall measureText passText ssidText netText logoH wifiH i ctx st,
     i <= 18 ->
     let fits := fun s =>
       layoutFits logoH wifiH s
         (snd (fitAll measureText passText ssidText netText ctx s)) in
     let e := packLoop measureText passText ssidText netText logoH wifiH
                i ctx st in
     exists k : nat,
       end_i e = i + Z.of_nat k /\
       end_pack e = Nat.iter k shrink st /\
       (forall j, (j < k)%nat -> fits (Nat.iter j shrink st) = false) /\
       (end_break e = true -> fits (end_pack e) = true) /\
       (end_break e = false -> end_i e = 18))
  /\
  (forall st,
     (qrSize st > 360 ->
      shrink st =
        {| qrSize := qrSize st - 12; gapQrText := gapQrText st;
           passStartPx := passStartPx st; ssidStartPx := ssidStartPx st;
           netStartPx := netStartPx st |}) /\
     (qrSize st <= 360 -> gapQrText st > 26 ->
      shrink st =
        {| qrSize := qrSize st; gapQrText := gapQrText st - 4;
           passStartPx := passStartPx st; ssidStartPx := ssidStartPx st;
           netStartPx := netStartPx st |}) /\
     (qrSize st <= 360 -> gapQrText st <= 26 ->
      shrink st =
        {| qrSize := qrSize st; gapQrText := gapQrText st;
           passStartPx := Z.max 60 (passStartPx st - 4);
           ssidStartPx := Z.max 40 (ssidStartPx st - 3);
           netStartPx := Z.max 52 (netStartPx st - 3) |}))
  /\
  (forall k,
     let st := Nat.iter k shrink initPack in
     (gapQrText st < 38 -> qrSize st <= 360) /\
     (passStartPx st < 88 \/ ssidStartPx st < 56 \/ netStartPx st < 74 ->
      qrSize st <= 360 /\ gapQrText st <= 26) /\
     26 <= gapQrText st /\
     60 <= passStartPx st /\ 40 <= ssidStartPx st /\ 52 <= netStartPx st)
  /\
  (Nat.iter 6 shrink initPack =
     {| qrSize := 368; gapQrText := 38; passStartPx := 88;
        ssidStartPx := 56; netStartPx := 74 |} /\
   Nat.iter 7 shrink initPack =
     {| qrSize := 356; gapQrText := 38; passStartPx := 88;
        ssidStartPx := 56; netStartPx := 74 |} /\
   356 < 360 /\
   end_break (pack Samples.proportional (Some Samples.clientNetwork)
                Samples.logo Samples.footerIconNoSize whiteLabel)
   = false /\
   end_pack (pack Samples.proportional (Some Samples.clientNetwork)
               Samples.logo Samples.footerIconNoSize whiteLabel)
   = Nat.iter 18 shrink initPack /\
   Nat.iter 18 shrink initPack =
     {| qrSize := 356; gapQrText := 26; passStartPx := 60;
        ssidStartPx := 40; netStartPx := 52 |}).
Proof.
  split; [|split; [|split]].
  - intros measureText passText ssidText netText logoH wifiH i ctx st Hi.
    now apply packLoop_iterates.
  - intros st. unfold shrink.
    destruct (qrSize st >? 360) eqn:Hq;
      [|destruct (gapQrText st >? 26) eqn:Hg];
      repeat split; intros; try reflexivity; lia.
  - intros k. cbv zeta. pose proof (iter_shrink_inv k) as H.
    unfold packInv in H. tauto.
  - split; [reflexivity|]. split; [reflexivity|]. split; [lia|].
    split; [|split]; vm_compute; reflexivity.
Qed.

(** The sticker of the sample network with a footer icon without
    natural size: the loop is left after 18 shrinkings. *)
Lemma shrink_follows_priority_order_witness :
  0 <= 18 /\
  exists k : nat,
    end_i (pack Samples.proportional (Some Samples.clientNetwork)
             Samples.logo Samples.footerIconNoSize whiteLabel)
    = 0 + Z.of_nat k /\
    end_pack (pack Samples.proportional (Some Samples.clientNetwork)
                Samples.logo Samples.footerIconNoSize whiteLabel)
    = Nat.iter k shrink initPack.
Proof.
  split; [lia|].
  destruct shrink_follows_priority_order as (H & _).
  destruct (H Samples.proportional
              (passTextOf (Some Samples.clientNetwork))
              (field ssid (Some Samples.clientNetwork))
              (field networkType (Some Samples.clientNetwork))
              (logoH Samples.logo) (wifiH Samples.footerIconNoSize)
              0 whiteLabel initPack ltac:(lia))
    as (k & Ei & Ep & _).
  exists k. split; [exact Ei|exact Ep].
Defined.

(** The sticker whose footer icon has no size: the loop runs its 18
    iterations without a break, and the promise resolves to a PNG. *)
Lemma pack_is_bounded_and_best_effort_witness :
  end_break (pack Samples.proportional (Some Samples.clientNetwork)
               Samples.logo Samples.footerIconNoSize whiteLabel) = false /\
  iterations (pack Samples.proportional (Some Samples.clientNetwork)
                Samples.logo Samples.footerIconNoSize whiteLabel) = 18 /\
  exists png,
    buildWifiStickerPng Samples.proportional
      (Samples.browser Samples.footerIconNoSize)
      (Some Samples.clientNetwork) [] = Resolved (Some png).
Proof.
  destruct (pack_is_bounded_and_best_effort Samples.proportional
              (Samples.browser Samples.footerIconNoSize)
              (Some Samples.clientNetwork) []
              Samples.logo Samples.footerIconNoSize Samples.qrCode
              eq_refl eq_refl eq_refl eq_refl)
    as (_ & Hex & png & Hpng & _).
  split; [vm_compute; reflexivity|].
  split; [apply Hex; vm_compute; reflexivity|].
  exists png. exact Hpng.
Defined.

(** C5, as it is stated, fails. Without a 2D context the promise of
    [buildWifiStickerPng] resolves to null; it is not rejected with any
    error. *)
Lemma no_context_resolves_to_null :
  buildWifiStickerPng Samples.proportional Samples.noContext
    (Some Samples.clientNetwork) [] = Resolved None
  /\ forall message,
       buildWifiStickerPng Samples.proportional Samples.noContext
         (Some Samples.clientNetwork) [] <> Rejected message.
Proof. split; [reflexivity|]. intros message. discriminate. Qed.

(** The sticker of a browser that gives no 2D context. *)
Lemma buildWifiStickerPng_without_context_witness :
  has2d Samples.noContext = false /\
  buildWifiStickerPng Samples.proportional Samples.noContext
    (Some Samples.clientNetwork) [] = Resolved None.
Proof.
  split; [reflexivity|].
  apply (buildWifiStickerPng_without_context Samples.proportional
           Samples.noContext (Some Samples.clientNetwork) []).
  reflexivity.
Defined.

(* ===================================================================== *)
(** * Properties of the rotation *)
(* ===================================================================== *)

Section RotationFacts.

Import Rotation.

(** The pixels of the rotated canvas: the pixel [(X, Y)] of the output
    is the pixel [(Y, outW - 1 - X)] of the source. *)
Lemma rotateCanvas90CWTo_pixels outW X Y :
  sourceOf (rotate (translate identity outW 0) HalfPi) X Y
  = (Y, outW - 1 - X).
Proof.
  unfold sourceOf, rotate, translate, identity, cosine, sine.
  cbn [ma mb mc md me mf]. f_equal; Z.div_mod_to_equations; lia.
Qed.

Lemma rotateCanvas90CCWTo_pixels outH X Y :
  sourceOf (rotate (translate identity 0 outH) MinusHalfPi) X Y
  = (outH - 1 - Y, X).
Proof.
  unfold sourceOf, rotate, translate, identity, cosine, sine.
  cbn [ma mb mc md me mf]. f_equal; Z.div_mod_to_equations; lia.
Qed.

Lemma drawImage_width m srcCanvas outW outH :
  bmp_width (drawImage m srcCanvas outW outH) = outW.
Proof. reflexivity. Qed.

Lemma drawImage_height m srcCanvas outW outH :
  bmp_height (drawImage m srcCanvas outW outH) = outH.
Proof. reflexivity. Qed.

Lemma drawImage_at m srcCanvas outW outH X Y :
  bmp_at (drawImage m srcCanvas outW outH) X Y =
    if inside outW outH X Y
    then pixelAt srcCanvas (fst (sourceOf m X Y)) (snd (sourceOf m X Y))
    else transparent.
Proof. reflexivity. Qed.

(** C7. For every composed bitmap of width [w] and height [h], rotating
    it 90 degrees clockwise onto an output of [h] by [w] (as
    [rotateCanvas90CWTo] does) and rotating the result 90 degrees
    counter-clockwise onto [w] by [h] gives a bitmap of the size of the
    original with the same pixel at every position. *)
Theorem rotate_cw_then_ccw_restores (srcCanvas : Bitmap) :
  0 < bmp_width srcCanvas ->
  0 < bmp_height srcCanvas ->
  let w := bmp_width srcCanvas in
  let h := bmp_height srcCanvas in
  exists out back,
    rotateCanvas90CWTo true srcCanvas h w = Ok (Some out) /\
    rotateCanvas90CCWTo true out w h = Ok (Some back) /\
    bmp_width out = h /\ bmp_height out = w /\
    bmp_width back = w /\ bmp_height back = h /\
    forall x y, pixelAt back x y = pixelAt srcCanvas x y.
Proof.
  intros Hw Hh. cbv zeta.
  assert (Hd : drawable srcCanvas = true).
  { unfold drawable. destruct (bmp_width srcCanvas =? 0) eqn:E1; [lia|].
    destruct (bmp_height srcCanvas =? 0) eqn:E2; [lia|]. reflexivity. }
  unfold rotateCanvas90CWTo, rotateCanvas90CCWTo. cbn [negb]. cbv zeta.
  rewrite Hd.
  eexists. eexists. split; [reflexivity|].
  match goal with
  | |- context [drawable ?c] => assert (Hd' : drawable c = true)
  end.
  { unfold drawable, drawImage. cbn [bmp_width bmp_height].
    destruct (bmp_height srcCanvas =? 0) eqn:E1; [lia|].
    destruct (bmp_width srcCanvas =? 0) eqn:E2; [lia|]. reflexivity. }
  rewrite Hd'. split; [reflexivity|].
  repeat split.
  intros x y. unfold pixelAt at 1.
  rewrite drawImage_width, drawImage_height, drawImage_at.
  destruct (inside (bmp_width srcCanvas) (bmp_height srcCanvas) x y) eqn:Hin.
  - rewrite rotateCanvas90CCWTo_pixels. cbn [fst snd].
    assert (Hin' : inside (bmp_height srcCanvas) (bmp_width srcCanvas)
                     (bmp_height srcCanvas - 1 - y) x = true).
    { unfold inside in *. lia. }
    unfold pixelAt at 1.
    rewrite drawImage_width, drawImage_height, drawImage_at, Hin'.
    rewrite rotateCanvas90CWTo_pixels. cbn [fst snd].
    replace (bmp_height srcCanvas - 1 - (bmp_height srcCanvas - 1 - y))
      with y by lia.
    reflexivity.
  - unfold pixelAt. rewrite Hin. reflexivity.
Qed.

End RotationFacts.

(** The round trip of a bitmap of 3 by 2 pixels. *)
Lemma rotate_cw_then_ccw_restores_witness :
  0 < bmp_width (Samples.gradient 3 2) /\
  0 < bmp_height (Samples.gradient 3 2) /\
  exists out back,
    Rotation.rotateCanvas90CWTo true (Samples.gradient 3 2) 2 3
      = Ok (Some out) /\
    Rotation.rotateCanvas90CCWTo true out 3 2 = Ok (Some back) /\
    pixelAt back 2 1 = pixelAt (Samples.gradient 3 2) 2 1.
Proof.
  split; [reflexivity|]. split; [reflexivity|].
  destruct (rotate_cw_then_ccw_restores (Samples.gradient 3 2)
              eq_refl eq_refl)
    as (out & back & H1 & H2 & _ & _ & _ & _ & Hpix).
  exists out, back. split; [exact H1|]. split; [exact H2|]. apply Hpix.
Defined.

(* ===================================================================== *)
(** * Properties of the background bounds *)
(* ===================================================================== *)

Section BoundsFacts.

Import Bounds.

Lemma nth_flat_map_4 {A} (f : A -> list Z) (l : list A) (a0 : A) :
  (forall a, length (f a) = 4%nat) ->
  forall k j, (k < length l)%nat -> (j < 4)%nat ->
    nth (4 * k + j) (flat_map f l) 0 = nth j (f (nth k l a0)) 0.
Proof.
  intros Hlen. induction l as [|a l IH]; intros k j Hk Hj;
    [simpl in Hk; lia|].
  cbn [flat_map]. destruct k as [|k].
  - rewrite app_nth1 by (rewrite Hlen; lia).
    replace (4 * 0 + j)%nat with j by lia. reflexivity.
  - rewrite app_nth2 by (rewrite Hlen; lia). rewrite Hlen.
    replace (4 * S k + j - 4)%nat with (4 * k + j)%nat by lia.
    simpl in Hk. cbn [nth]. apply IH; lia.
Qed.

Lemma range_In n x : In x (range n) <-> 0 <= x < n.
Proof.
  unfold range. rewrite in_map_iff. split.
  - intros [k [<- Hk]]. apply in_seq in Hk. lia.
  - intros H. exists (Z.to_nat x). split; [lia|]. apply in_seq. lia.
Qed.

Lemma coords_In w h x y : In (x, y) (coords w h) <-> 0 <= x < w /\ 0 <= y < h.
Proof.
  unfold coords. rewrite in_flat_map. split.
  - intros [y' [Hy Hx]]. apply in_map_iff in Hx.
    destruct Hx as [x' [E Hx]]. inversion E; subst.
    apply range_In in Hy. apply range_In in Hx. lia.
  - intros [Hx Hy]. exists y. split; [now apply range_In|].
    apply in_map_iff. exists x. split; [reflexivity|now apply range_In].
Qed.

(** The bytes of the pixel at [(x, y)] in the data of a rectangle. *)
Lemma getImageData_at c sx sy sw sh x y j :
  0 <= x < sw -> 0 <= y < sh -> 0 <= j < 4 ->
  at_ (getImageData c sx sy sw sh) (y * sw * 4 + x * 4 + j)
  = nth (Z.to_nat j) (bytes (pixelAt c (sx + x) (sy + y))) 0.
Proof.
  intros Hx Hy Hj. unfold at_, getImageData.
  assert (Hys : 0 <= y * sw) by nia.
  replace (Z.to_nat (y * sw * 4 + x * 4 + j))
    with (4 * Z.to_nat (y * sw + x) + Z.to_nat j)%nat by lia.
  assert (Hk : (Z.to_nat (y * sw + x) < Z.to_nat (sw * sh))%nat) by nia.
  rewrite (nth_flat_map_4 _ _ 0%nat); [|reflexivity|now rewrite length_seq|lia].
  rewrite seq_nth by exact Hk. cbn [Nat.add].
  rewrite Z2Nat.id by nia.
  replace ((y * sw + x) mod sw) with x
    by (rewrite Z.add_comm, Z.mod_add by lia; now rewrite Z.mod_small).
  replace ((y * sw + x) / sw) with y
    by (rewrite Z.add_comm, Z.div_add by lia;
        now rewrite Z.div_small, Z.add_0_l).
  reflexivity.
Qed.

Section Scan.

Variable content : Z -> Z -> bool.
Variables w h : Z.

Let start : Extent := {| minX := w; minY := h; maxX := -1; maxY := -1 |}.

Let step (e : Extent) (p : Z * Z) : Extent :=
  if content (fst p) (snd p) then extend e (fst p) (snd p) else e.

(** The extremes are those of the content among the positions
    [pts]. *)
Let tight (pts : list (Z * Z)) (e : Extent) : Prop :=
  (forall x y, In (x, y) pts -> content x y = true ->
     minX e <= x <= maxX e /\ minY e <= y <= maxY e) /\
  ((e = start /\ forall x y, In (x, y) pts -> content x y = false)
   \/
   ((exists y, In (minX e, y) pts /\ content (minX e) y = true) /\
    (exists y, In (maxX e, y) pts /\ content (maxX e) y = true) /\
    (exists x, In (x, minY e) pts /\ content x (minY e) = true) /\
    (exists x, In (x, maxY e) pts /\ content x (maxY e) = true))).

Lemma step_tight pts e x y :
  0 <= x < w -> 0 <= y < h ->
  tight pts e -> tight (pts ++ [(x, y)]) (step e (x, y)).
Proof.
  intros Hx Hy [Hin Hside]. unfold step. cbn [fst snd].
  destruct (content x y) eqn:Hc.
  - split.
    + intros x' y' H' Hc'. apply in_app_or in H'.
      unfold extend. cbn [minX minY maxX maxY].
      destruct H' as [H'|[E|[]]].
      * specialize (Hin _ _ H' Hc').
        destruct (x <? minX e) eqn:E1, (y <? minY e) eqn:E2,
          (x >? maxX e) eqn:E3, (y >? maxY e) eqn:E4; lia.
      * inversion E; subst.
        destruct (x' <? minX e) eqn:E1, (y' <? minY e) eqn:E2,
          (x' >? maxX e) eqn:E3, (y' >? maxY e) eqn:E4; lia.
    + right.
      assert (Hnew : In (x, y) (pts ++ [(x, y)]))
        by (apply in_or_app; right; now left).
      assert (Hold : forall p, In p pts -> In p (pts ++ [(x, y)]))
        by (intros p Hp; apply in_or_app; now left).
      unfold extend. cbn [minX minY maxX maxY].
      destruct Hside as [[-> _]|(H1 & H2 & H3 & H4)].
      * unfold start. cbn [minX minY maxX maxY].
        destruct (x <? w) eqn:E1; [|lia].
        destruct (y <? h) eqn:E2; [|lia].
        destruct (x >? -1) eqn:E3; [|lia].
        destruct (y >? -1) eqn:E4; [|lia].
        repeat split; eexists; split; eauto.
      * destruct H1 as [y1 [H1 C1]], H2 as [y2 [H2 C2]],
          H3 as [x3 [H3 C3]], H4 as [x4 [H4 C4]].
        repeat split.
        -- destruct (x <? minX e); eexists; split; eauto.
        -- destruct (x >? maxX e); eexists; split; eauto.
        -- destruct (y <? minY e); eexists; split; eauto.
        -- destruct (y >? maxY e); eexists; split; eauto.
  - split.
    + intros x' y' H' Hc'. apply in_app_or in H'.
      destruct H' as [H'|[E|[]]]; [now apply Hin|].
      inversion E; subst. congruence.
    + destruct Hside as [[-> Hnone]|(H1 & H2 & H3 & H4)].
      * left. split; [reflexivity|].
        intros x' y' H'. apply in_app_or in H'.
        destruct H' as [H'|[E|[]]]; [now apply Hnone|].
        inversion E; subst. exact Hc.
      * right.
        destruct H1 as [y1 [H1 C1]], H2 as [y2 [H2 C2]],
          H3 as [x3 [H3 C3]], H4 as [x4 [H4 C4]].
        repeat split; eexists; (split; [apply in_or_app; left|]);
          eassumption.
Qed.

Lemma fold_tight l : forall pts e,
  (forall x y, In (x, y) l -> 0 <= x < w /\ 0 <= y < h) ->
  tight pts e -> tight (pts ++ l) (fold_left step l e).
Proof.
  induction l as [|[x y] l IH]; intros pts e Hl Ht.
  - now rewrite app_nil_r.
  - cbn [fold_left].
    replace (pts ++ (x, y) :: l) with ((pts ++ [(x, y)]) ++ l)
      by (now rewrite <- app_assoc).
    apply IH.
    + intros x' y' H'. apply Hl. now right.
    + destruct (Hl x y (or_introl eq_refl)). now apply step_tight.
Qed.

(** The scan of all the positions ends on the extremes of the
    content. *)
Lemma scan_tight :
  let e := fold_left step (coords w h) start in
  (forall x y, 0 <= x < w -> 0 <= y < h -> content x y = true ->
     minX e <= x <= maxX e /\ minY e <= y <= maxY e) /\
  ((e = start /\
    forall x y, 0 <= x < w -> 0 <= y < h -> content x y = false)
   \/
   ((exists y, (0 <= minX e < w /\ 0 <= y < h) /\
       content (minX e) y = true) /\
    (exists y, (0 <= maxX e < w /\ 0 <= y < h) /\
       content (maxX e) y = true) /\
    (exists x, (0 <= x < w /\ 0 <= minY e < h) /\
       content x (minY e) = true) /\
    (exists x, (0 <= x < w /\ 0 <= maxY e < h) /\
       content x (maxY e) = true))).
Proof.
  cbv zeta.
  assert (Ht : tight ([] ++ coords w h)
                 (fold_left step (coords w h) start)).
  { apply fold_tight.
    - intros x y H. now apply coords_In.
    - split; [intros x y []|]. left. split; [reflexivity|].
      intros x y []. }
  cbn [app] in Ht. destruct Ht as [Hin Hside]. split.
  - intros x y Hx Hy. apply Hin. now apply coords_In.
  - destruct Hside as [[He Hnone]|(H1 & H2 & H3 & H4)].
    + left. split; [exact He|]. intros x y Hx Hy. apply Hnone.
      now apply coords_In.
    + right.
      destruct H1 as [y1 [H1 C1]], H2 as [y2 [H2 C2]],
        H3 as [x3 [H3 C3]], H4 as [x4 [H4 C4]].
      apply coords_In in H1, H2, H3, H4.
      repeat split; eexists; (split; [|eassumption]); assumption.
Qed.

End Scan.

Lemma fold_left_map {A B C} (f : A -> B -> A) (g : C -> B) l : forall a,
  fold_left f (map g l) a = fold_left (fun a c => f a (g c)) l a.
Proof. induction l as [|c l IH]; intros a; [reflexivity|apply IH]. Qed.

Lemma fold_left_flat_map {A B C} (f : A -> B -> A) (g : C -> list B) l :
  forall a,
    fold_left f (flat_map g l) a
    = fold_left (fun a c => fold_left f (g c) a) l a.
Proof.
  induction l as [|c l IH]; intros a; [reflexivity|].
  cbn [flat_map fold_left]. rewrite fold_left_app. apply IH.
Qed.

Lemma fold_left_ext_in {A B} (f g : A -> B -> A) l :
  (forall a b, In b l -> f a b = g a b) ->
  forall a, fold_left f l a = fold_left g l a.
Proof.
  induction l as [|b l IH]; intros H a; [reflexivity|].
  cbn [fold_left]. rewrite H by now left.
  apply IH. intros a' b' Hb. apply H. now right.
Qed.

(** The two loops of the scan visit the positions in their order. *)
Lemma scan_coords o bg data w h :
  scan o bg data w h
  = fold_left (fun e p => scanPixel o bg data w (snd p) e (fst p))
      (coords w h) {| minX := w; minY := h; maxX := -1; maxY := -1 |}.
Proof.
  unfold scan, coords, scanRow. rewrite fold_left_flat_map.
  apply fold_left_ext_in. intros e y _. now rewrite fold_left_map.
Qed.

(** On the data of the whole canvas the scan reads the pixel of the
    image at its position. *)
Lemma scanPixel_raster img o bg x y e :
  let w := canvasWidth img in
  let h := canvasHeight img in
  let p := img_raster img x y in
  0 <= x < w -> 0 <= y < h ->
  scanPixel o bg (getImageData (canvasOf img) 0 0 w h) w y e x
  = if isContent o bg (byte (red p)) (byte (green p)) (byte (blue p))
         (byte (alpha p))
    then extend e x y else e.
Proof.
  cbv zeta. intros Hx Hy. unfold scanPixel. cbv zeta.
  rewrite <- (Z.add_0_r (y * canvasWidth img * 4 + x * 4)) at 1.
  rewrite !getImageData_at by lia.
  unfold pixelAt, canvasOf, inside. cbn [bmp_width bmp_height bmp_at].
  destruct (0 <=? 0 + x) eqn:E1; [|lia].
  destruct (0 + x <? canvasWidth img) eqn:E2; [|lia].
  destruct (0 <=? 0 + y) eqn:E3; [|lia].
  destruct (0 + y <? canvasHeight img) eqn:E4; [|lia].
  cbn [andb]. rewrite !Z.add_0_l. reflexivity.
Qed.

Lemma canvas_positive img : 1 <= canvasWidth img /\ 1 <= canvasHeight img.
Proof. unfold canvasWidth, canvasHeight. lia. Qed.

(** Corners that could be sampled are corners that could be read. *)
Lemma sampled_readable img o :
  0 < count (sampleCorners img o) -> img_readable img = true.
Proof.
  unfold sampleCorners, cornerRects, read. cbn [fold_left fst snd].
  destruct (img_readable img); [reflexivity|]. cbn. lia.
Qed.

(** What [getBackgroundBoundsFromImage] returns once the corners gave a
    background: the box of the extremes of the content, or the whole
    image when there is no content. *)
Lemma bounds_of_content img o :
  0 < count (sampleCorners img o) ->
  let b := getBackgroundBoundsFromImage true img o in
  let w := canvasWidth img in
  let h := canvasHeight img in
  ((exists x y, 0 <= x < w /\ 0 <= y < h /\ contentAt img o x y = true) ->
   tightBox img o b) /\
  ((forall x y, 0 <= x < w -> 0 <= y < h -> contentAt img o x y = false) ->
   b = whole img).
Proof.
  intros Hcount. cbv zeta.
  pose proof (sampled_readable img o Hcount) as Hread.
  pose proof (canvas_positive img) as [Hw Hh].
  unfold getBackgroundBoundsFromImage. cbn [negb]. cbv zeta.
  destruct (count (sampleCorners img o) <=? 0) eqn:Hc; [lia|].
  unfold read. rewrite Hread.
  destruct (canvasWidth img =? 0) eqn:E1; [lia|].
  destruct (canvasHeight img =? 0) eqn:E2; [lia|].
  cbn [orb negb andb].
  rewrite scan_coords.
  rewrite (fold_left_ext_in _
             (fun e p =>
                if contentAt img o (fst p) (snd p)
                then extend e (fst p) (snd p) else e)).
  2:{ intros e [x y] Hp. apply coords_In in Hp. cbn [fst snd].
      rewrite scanPixel_raster by lia. reflexivity. }
  pose proof (scan_tight (contentAt img o) (canvasWidth img)
                (canvasHeight img)) as Ht.
  cbv zeta in Ht.
  set (e := fold_left _ (coords (canvasWidth img) (canvasHeight img)) _)
    in *.
  destruct Ht as [Hin Hside]. split.
  - intros (x & y & Hx & Hy & Hxy).
    destruct Hside as [[_ Hnone]|(H1 & H2 & H3 & H4)];
      [rewrite Hnone in Hxy by assumption; discriminate|].
    destruct (Hin x y Hx Hy Hxy) as [Hbx Hby].
    destruct (maxX e <? minX e) eqn:E3; [lia|].
    destruct (maxY e <? minY e) eqn:E4; [lia|].
    cbn [orb]. unfold tightBox. cbv zeta.
    cbn [box_x box_y box_w box_h].
    replace (minX e + (maxX e - minX e + 1) - 1) with (maxX e) by lia.
    replace (minY e + (maxY e - minY e + 1) - 1) with (maxY e) by lia.
    repeat split; try assumption;
      try (intros; match goal with
                   | H : contentAt _ _ ?a ?b = true |- _ =>
                       destruct (Hin a b ltac:(assumption) ltac:(assumption)
                                   H); lia
                   end).
  - intros Hnone.
    destruct Hside as [[He _]|([y1 [[Hx1 Hy1] C1]] & _)].
    + rewrite He. cbn [minX minY maxX maxY].
      destruct (-1 <? canvasWidth img) eqn:E3; [|lia]. reflexivity.
    + rewrite Hnone in C1 by assumption. discriminate.
Qed.

(** A corner whose pixels are all opaque white adds 255 to each sum for
    each of them. *)
Lemma sample_white (pix : nat -> Rgba) l : forall acc,
  (forall k, In k l -> pix k = white) ->
  sample 10 (flat_map (fun k => bytes (pix k)) l) acc
  = {| sumR := sumR acc + 255 * Z.of_nat (length l);
       sumG := sumG acc + 255 * Z.of_nat (length l);
       sumB := sumB acc + 255 * Z.of_nat (length l);
       count := count acc + Z.of_nat (length l) |}.
Proof.
  induction l as [|k l IH]; intros acc Hw.
  - cbn. destruct acc; cbn. f_equal; lia.
  - cbn [flat_map]. rewrite (Hw k (or_introl eq_refl)).
    change (bytes white) with [255; 255; 255; 255].
    cbn [app sample].
    destruct (255 <=? 10) eqn:E; [lia|].
    rewrite IH by (intros k' Hk'; apply Hw; now right).
    cbn [sumR sumG sumB count length]. f_equal; lia.
Qed.

Section Square.

Variables x0 y0 : Z.
Hypothesis Hx0 : 1 <= x0.
Hypothesis Hy0 : 1 <= y0.

Let w := 2 * x0 + 10.
Let h := 2 * y0 + 10.
Let img := squareOnWhite w h x0 y0.
Let bg := backgroundOf (sampleCorners img defaults).

Lemma square_canvas : canvasWidth img = w /\ canvasHeight img = h.
Proof.
  unfold canvasWidth, canvasHeight, orElse, img, squareOnWhite.
  cbn [naturalWidth naturalHeight width height].
  destruct (w =? 0) eqn:E1; [unfold w in *; lia|].
  destruct (h =? 0) eqn:E2; [unfold h in *; lia|].
  unfold w, h in *. rewrite ?E1, ?E2. lia.
Qed.

(** The pixels of the image are those of the square, which are black,
    and those around it, which are white. *)
Lemma square_content x y :
  contentAt img defaults x y
  = if inside 10 10 (x - x0) (y - y0)
    then isContent defaults bg 0 0 0 255
    else isContent defaults bg 255 255 255 255.
Proof.
  unfold contentAt. cbv zeta. fold bg.
  unfold img, squareOnWhite. cbn [img_raster].
  destruct (inside 10 10 (x - x0) (y - y0)); reflexivity.
Qed.

(** The bounds, from what counts as content: the square when the white
    does not, the whole canvas when it does. *)
Lemma square_bounds_of_content :
  0 < count (sampleCorners img defaults) ->
  isContent defaults bg 0 0 0 255 = true ->
  getBackgroundBoundsFromImage true img defaults
  = if isContent defaults bg 255 255 255 255
    then {| box_x := 0; box_y := 0; box_w := w; box_h := h |}
    else {| box_x := x0; box_y := y0; box_w := 10; box_h := 10 |}.
Proof.
  intros Hcount Hblack. destruct square_canvas as [Ew Eh].
  destruct (bounds_of_content img defaults Hcount) as [Htight _].
  cbv zeta in Htight. rewrite Ew, Eh in Htight.
  assert (Hlo : contentAt img defaults x0 y0 = true).
  { rewrite square_content.
    assert (E : inside 10 10 (x0 - x0) (y0 - y0) = true)
      by (unfold inside; lia).
    now rewrite E. }
  assert (Hhi : contentAt img defaults (x0 + 9) (y0 + 9) = true).
  { rewrite square_content.
    assert (E : inside 10 10 (x0 + 9 - x0) (y0 + 9 - y0) = true)
      by (unfold inside; lia).
    now rewrite E. }
  assert (Hex : exists x y,
             0 <= x < w /\ 0 <= y < h /\
             contentAt img defaults x y = true).
  { exists x0, y0. unfold w, h. repeat split; try lia. exact Hlo. }
  specialize (Htight Hex).
  destruct (getBackgroundBoundsFromImage true img defaults)
    as [bx by_ bw bh].
  unfold tightBox in Htight. cbv zeta in Htight.
  cbn [box_x box_y box_w box_h] in Htight. rewrite Ew, Eh in Htight.
  destruct Htight as (Hall & [y1 [R1 C1]] & [y2 [R2 C2]] & [x3 [R3 C3]]
                      & [x4 [R4 C4]]).
  destruct (isContent defaults bg 255 255 255 255) eqn:Hwhite.
  - assert (H00 : contentAt img defaults 0 0 = true).
    { rewrite square_content.
      assert (E : inside 10 10 (0 - x0) (0 - y0) = false)
        by (unfold inside; lia).
      now rewrite E. }
    assert (Hwh : contentAt img defaults (w - 1) (h - 1) = true).
    { rewrite square_content.
      assert (E : inside 10 10 (w - 1 - x0) (h - 1 - y0) = false)
        by (unfold inside, w, h; lia).
      now rewrite E. }
    apply Hall in H00; [|unfold w; lia|unfold h; lia].
    apply Hall in Hwh; [|unfold w; lia|unfold h; lia].
    f_equal; lia.
  - rewrite square_content in C1, C2, C3, C4.
    assert (In1 : inside 10 10 (bx - x0) (y1 - y0) = true)
      by (destruct (inside 10 10 (bx - x0) (y1 - y0)); congruence).
    assert (In2 : inside 10 10 (bx + bw - 1 - x0) (y2 - y0) = true)
      by (destruct (inside 10 10 (bx + bw - 1 - x0) (y2 - y0)); congruence).
    assert (In3 : inside 10 10 (x3 - x0) (by_ - y0) = true)
      by (destruct (inside 10 10 (x3 - x0) (by_ - y0)); congruence).
    assert (In4 : inside 10 10 (x4 - x0) (by_ + bh - 1 - y0) = true)
      by (destruct (inside 10 10 (x4 - x0) (by_ + bh - 1 - y0)); congruence).
    apply Hall in Hlo; [|unfold w; lia|unfold h; lia].
    apply Hall in Hhi; [|unfold w; lia|unfold h; lia].
    unfold inside in In1, In2, In3, In4.
    f_equal; lia.
Qed.

Lemma square_sampleSize :
  clamp (sampleSize defaults) 1 (Z.min w h) = 12.
Proof. unfold clamp, defaults, w, h. cbn [sampleSize]. lia. Qed.

(** With a margin of at least 12 pixels beside the square or above it,
    a sampled corner holds white pixels only. *)
Lemma square_corner sx sy acc :
  12 <= x0 \/ 12 <= y0 ->
  sx = 0 \/ sx = w - 12 -> sy = 0 \/ sy = h - 12 ->
  sample 10 (getImageData (canvasOf img) sx sy 12 12) acc
  = {| sumR := sumR acc + 255 * 144; sumG := sumG acc + 255 * 144;
       sumB := sumB acc + 255 * 144; count := count acc + 144 |}.
Proof.
  intros Hfar Hsx Hsy. unfold getImageData.
  rewrite (sample_white
             (fun k => pixelAt (canvasOf img) (sx + Z.of_nat k mod 12)
                         (sy + Z.of_nat k / 12))).
  - rewrite length_seq. reflexivity.
  - intros k Hk. apply in_seq in Hk.
    destruct square_canvas as [Ew Eh].
    unfold pixelAt, canvasOf. cbn [bmp_width bmp_height bmp_at].
    rewrite Ew, Eh.
    assert (Hm : 0 <= Z.of_nat k mod 12 < 12)
      by (apply Z.mod_pos_bound; lia).
    assert (Hd : 0 <= Z.of_nat k / 12 < 12).
    { split; [apply Z.div_pos; lia|].
      apply Z.div_lt_upper_bound; lia. }
    set (i := Z.of_nat k mod 12) in *. set (j := Z.of_nat k / 12) in *.
    assert (Hin : inside w h (sx + i) (sy + j) = true)
      by (unfold inside, w, h in *; lia).
    rewrite Hin. unfold img, squareOnWhite. cbn [img_raster].
    assert (Hout : inside 10 10 (sx + i - x0) (sy + j - y0) = false)
      by (unfold inside, w, h in *; lia).
    rewrite Hout. reflexivity.
Qed.

(** The background of such a square on white is white. *)
Lemma square_background :
  12 <= x0 \/ 12 <= y0 ->
  sampleCorners img defaults
  = {| sumR := 146880; sumG := 146880; sumB := 146880; count := 576 |}.
Proof.
  intros Hfar. destruct square_canvas as [Ew Eh].
  unfold sampleCorners. rewrite Ew, Eh, square_sampleSize.
  unfold cornerRects, read.
  change (img_readable img) with true.
  cbn [fold_left fst snd andb negb orb Z.eqb alphaThreshold defaults].
  rewrite !square_corner by (auto; unfold w, h in *; lia).
  cbn [sumR sumG sumB count]. reflexivity.
Qed.

(** The margins below 12 pixels, one by one. *)
Lemma square_near_sampled :
  forallb (fun a => forallb (squareSampled a) [1; 2; 3; 4; 5; 6; 7; 8; 9; 10; 11])
    [1; 2; 3; 4; 5; 6; 7; 8; 9; 10; 11] = true.
Proof. vm_compute. reflexivity. Qed.

Lemma square_sampled : squareSampled x0 y0 = true.
Proof.
  destruct (Z_lt_le_dec x0 12) as [Hx|Hx];
    [destruct (Z_lt_le_dec y0 12) as [Hy|Hy]|].
  - pose proof square_near_sampled as H.
    rewrite forallb_forall in H.
    assert (Ix : In x0 [1; 2; 3; 4; 5; 6; 7; 8; 9; 10; 11]) by (cbn; lia).
    assert (Iy : In y0 [1; 2; 3; 4; 5; 6; 7; 8; 9; 10; 11]) by (cbn; lia).
    specialize (H x0 Ix). rewrite forallb_forall in H. exact (H y0 Iy).
  - unfold squareSampled. cbv zeta. fold w h img.
    rewrite (square_background (or_intror Hy)).
    replace (cornerOverlap y0) with 0 by (unfold cornerOverlap; lia).
    rewrite Z.mul_0_r. vm_compute. reflexivity.
  - unfold squareSampled. cbv zeta. fold w h img.
    rewrite (square_background (or_introl Hx)).
    replace (cornerOverlap x0) with 0 by (unfold cornerOverlap; lia).
    rewrite Z.mul_0_l. vm_compute. reflexivity.
Qed.

(** The bounds of the square on white: the square when no sampled
    corner holds more than 15 of its pixels, the whole canvas
    otherwise. *)
Lemma square_bounds :
  getBackgroundBoundsFromImage true img defaults
  = if cornerOverlap x0 * cornerOverlap y0 <=? 15
    then {| box_x := x0; box_y := y0; box_w := 10; box_h := 10 |}
    else {| box_x := 0; box_y := 0; box_w := w; box_h := h |}.
Proof.
  pose proof square_sampled as H. unfold squareSampled in H.
  cbv zeta in H. fold w h img bg in H.
  apply andb_true_iff in H. destruct H as [H Hwhite].
  apply andb_true_iff in H. destruct H as [Hcount Hblack].
  apply Z.ltb_lt in Hcount. apply eqb_prop in Hwhite.
  rewrite (square_bounds_of_content Hcount Hblack), Hwhite.
  destruct (cornerOverlap x0 * cornerOverlap y0 <=? 15); reflexivity.
Qed.

End Square.

End BoundsFacts.

Section BoundsTheorems.

Import Bounds.

(** C8, as the code has it. [getBackgroundBoundsFromImage] returns the
    whole image when the corners give no opaque pixel (or the canvas no
    context); otherwise, when the image has content (pixels that are too
    far from the background estimated from the corners, beyond the
    leniency for bright pixels), it returns the tight bounding box of the
    content, and the whole image when it has none. For the white image
    with a centred black square of side 10, at margins of [x0] and [y0]
    pixels, the box is the square exactly when no sampled corner of 12 by
    12 pixels holds more than 15 pixels of the square, as with margins of
    9 pixels and more, or of 12 pixels and more on one axis; it is the
    whole canvas otherwise. *)
Theorem getBackgroundBoundsFromImage_tight_box :
  (forall has2d img o,
     has2d = false \/ count (sampleCorners img o) <= 0 ->
     getBackgroundBoundsFromImage has2d img o = whole img)
  /\
  (forall img o,
     0 < count (sampleCorners img o) ->
     (exists x y,
        0 <= x < canvasWidth img /\ 0 <= y < canvasHeight img /\
        contentAt img o x y = true) ->
     tightBox img o (getBackgroundBoundsFromImage true img o))
  /\
  (forall img o,
     0 < count (sampleCorners img o) ->
     (forall x y,
        0 <= x < canvasWidth img -> 0 <= y < canvasHeight img ->
        contentAt img o x y = false) ->
     getBackgroundBoundsFromImage true img o = whole img)
  /\
  (forall x0 y0,
     1 <= x0 -> 1 <= y0 ->
     getBackgroundBoundsFromImage true
       (squareOnWhite (2 * x0 + 10) (2 * y0 + 10) x0 y0) defaults
     = if cornerOverlap x0 * cornerOverlap y0 <=? 15
       then {| box_x := x0; box_y := y0; box_w := 10; box_h := 10 |}
       else {| box_x := 0; box_y := 0;
               box_w := 2 * x0 + 10; box_h := 2 * y0 + 10 |})
  /\
  (forall x0 y0,
     9 <= x0 -> 9 <= y0 ->
     getBackgroundBoundsFromImage true
       (squareOnWhite (2 * x0 + 10) (2 * y0 + 10) x0 y0) defaults
     = {| box_x := x0; box_y := y0; box_w := 10; box_h := 10 |}).
Proof.
  split; [|split; [|split; [|split]]].
  - intros has2d img o H. unfold getBackgroundBoundsFromImage, whole.
    destruct has2d; cbn [negb]; [|reflexivity].
    destruct H as [H|H]; [discriminate|].
    destruct (count (sampleCorners img o) <=? 0) eqn:E; [reflexivity|lia].
  - intros img o Hcount Hex.
    now apply (proj1 (bounds_of_content img o Hcount)).
  - intros img o Hcount Hnone.
    now apply (proj2 (bounds_of_content img o Hcount)).
  - exact square_bounds.
  - intros x0 y0 Hx Hy. rewrite square_bounds by lia.
    assert (E : (cornerOverlap x0 * cornerOverlap y0 <=? 15) = true)
      by (unfold cornerOverlap; nia).
    now rewrite E.
Qed.

End BoundsTheorems.

(** C8, as it is stated, fails. On a canvas of 20 by 20 pixels the centred
    black square of side 10 has its corner at (5, 5); the four sampled
    corners of 12 by 12 pixels reach into it, the estimated background is a
    grey that the white pixels are too far from, and the function
    returns the whole canvas instead of the square. *)
Lemma square_on_small_canvas_gives_whole_canvas :
  Bounds.getBackgroundBoundsFromImage true
    (Bounds.squareOnWhite 20 20 5 5) Bounds.defaults
  = {| Bounds.box_x := 0; Bounds.box_y := 0;
       Bounds.box_w := 20; Bounds.box_h := 20 |}
  /\
  Bounds.getBackgroundBoundsFromImage true
    (Bounds.squareOnWhite 20 20 5 5) Bounds.defaults
  <> {| Bounds.box_x := 5; Bounds.box_y := 5;
        Bounds.box_w := 10; Bounds.box_h := 10 |}.
Proof.
  assert (H : Bounds.getBackgroundBoundsFromImage true
                (Bounds.squareOnWhite 20 20 5 5) Bounds.defaults
              = {| Bounds.box_x := 0; Bounds.box_y := 0;
                   Bounds.box_w := 20; Bounds.box_h := 20 |})
    by (vm_compute; reflexivity).
  split; [exact H|]. rewrite H. discriminate.
Qed.

(** The square on a canvas of 28 by 28 pixels, with margins of 9
    pixels. *)
Lemma getBackgroundBoundsFromImage_tight_box_witness :
  9 <= 9 /\
  Bounds.getBackgroundBoundsFromImage true
    (Bounds.squareOnWhite 28 28 9 9) Bounds.defaults
  = {| Bounds.box_x := 9; Bounds.box_y := 9;
       Bounds.box_w := 10; Bounds.box_h := 10 |}.
Proof.
  split; [lia|].
  destruct getBackgroundBoundsFromImage_tight_box as (_ & _ & _ & _ & H).
  apply (H 9 9); lia.
Defined.

(** The rounding of the colour arithmetic decides the bounds of a square
    of the grey 5 on the grey 15: the luma of the square is the binary64
    number just below 5, under the 15 - 10 of the first test, and the
    square is found. In exact arithmetic the luma would be 5 and the
    whole image would be returned. *)
Lemma grey_square_is_found :
  Bounds.lumaOf 5 5 5 = (5629499534213119 # 1125899906842624)%Q /\
  Bounds.bgL (Bounds.backgroundOf
                (Bounds.sampleCorners Samples.greySquare Bounds.defaults))
  = 15%Q /\
  Bounds.getBackgroundBoundsFromImage true Samples.greySquare
    Bounds.defaults
  = {| Bounds.box_x := 12; Bounds.box_y := 12;
       Bounds.box_w := 10; Bounds.box_h := 10 |}.
Proof. split; [|split]; vm_compute; reflexivity. Qed.

(* ===================================================================== *)
(** * Further properties of the strings *)
(* ===================================================================== *)

Section DropWhileFacts.

Variable p : N -> bool.

Lemma dropWhile_suffix s : exists pre, s = pre ++ dropWhile p s.
Proof.
  induction s as [|c s [pre IH]]; [now exists []|].
  cbn [dropWhile]. destruct (p c).
  - exists (c :: pre). cbn [app]. now f_equal.
  - now exists [].
Qed.

Lemma dropWhile_head s c r : dropWhile p s = c :: r -> p c = false.
Proof.
  induction s as [|a s IH]; [discriminate|].
  cbn [dropWhile]. destruct (p a) eqn:E; [exact IH|].
  intros H. inversion H; subst. exact E.
Qed.

Lemma dropWhile_kept s :
  match s with [] => True | c :: _ => p c = false end -> dropWhile p s = s.
Proof. destruct s as [|c s]; [reflexivity|]. cbn. now intros ->. Qed.

Lemma dropWhile_In s c : In c (dropWhile p s) -> In c s.
Proof.
  destruct (dropWhile_suffix s) as [pre E]. intros H.
  rewrite E. apply in_or_app. now right.
Qed.

End DropWhileFacts.

Lemma trim_In s c : In c (trim s) -> In c s.
Proof.
  unfold trim. intros H. apply in_rev in H.
  apply dropWhile_In in H. apply in_rev in H.
  now apply dropWhile_In in H.
Qed.

(** A string whose first and last code units are not white space is
    left as it is. *)
Lemma trim_kept s :
  match s with [] => True | c :: _ => isTrimmed c = false end ->
  match rev s with [] => True | c :: _ => isTrimmed c = false end ->
  trim s = s.
Proof.
  intros H1 H2. unfold trim.
  rewrite (dropWhile_kept _ s H1), (dropWhile_kept _ (rev s) H2).
  apply rev_involutive.
Qed.

(** What [trim] returns has no white space at either end. *)
Lemma trim_ends s :
  match trim s with [] => True | c :: _ => isTrimmed c = false end /\
  match rev (trim s) with [] => True | c :: _ => isTrimmed c = false end.
Proof.
  unfold trim. rewrite rev_involutive.
  set (a := dropWhile isTrimmed s).
  set (b := dropWhile isTrimmed (rev a)). split.
  - destruct (dropWhile_suffix isTrimmed (rev a)) as [pre E].
    fold b in E.
    assert (Ea : a = rev b ++ rev pre)
      by (rewrite <- rev_app_distr, <- E; symmetry; apply rev_involutive).
    destruct (rev b) as [|c t] eqn:Eb; [exact I|].
    cbn [app] in Ea. now apply (dropWhile_head isTrimmed s c (t ++ rev pre)).
  - destruct b as [|c t] eqn:Eb; [exact I|].
    now apply (dropWhile_head isTrimmed (rev a) c t).
Qed.

Lemma trim_idempotent s : trim (trim s) = trim s.
Proof. apply trim_kept; apply trim_ends. Qed.

Lemma Forall_trim_kept (P : N -> Prop) s :
  (forall c, P c -> isTrimmed c = false) -> Forall P s -> trim s = s.
Proof.
  intros HP Hs. apply trim_kept.
  - destruct s as [|c s]; [exact I|]. inversion Hs; subst. now apply HP.
  - destruct (rev s) as [|c t] eqn:E; [exact I|].
    apply HP. rewrite Forall_forall in Hs. apply Hs.
    apply in_rev. rewrite E. now left.
Qed.

Section EscapeFacts.

Lemma escapeWifi_cons c s :
  escapeWifi (c :: s) =
    if isWifiSpecial c then BACKSLASH :: c :: escapeWifi s
    else c :: escapeWifi s.
Proof.
  unfold escapeWifi, replaceClass. cbn [flat_map].
  destruct (isWifiSpecial c); reflexivity.
Qed.

(** An escaped field that is closed by a semicolon is read back in one
    way only: the field and what follows the semicolon are determined. *)
Lemma escapeWifi_delimited s : forall s' r r',
  escapeWifi s ++ 59%N :: r = escapeWifi s' ++ 59%N :: r' ->
  s = s' /\ r = r'.
Proof.
  induction s as [|c s IH]; intros [|c' s'] r r'.
  - cbn. intros H. inversion H. now split.
  - rewrite escapeWifi_cons. change (escapeWifi []) with (@nil N).
    destruct (isWifiSpecial c') eqn:E; cbn [app]; intros H; inversion H.
    subst c'. discriminate.
  - rewrite escapeWifi_cons. change (escapeWifi []) with (@nil N).
    destruct (isWifiSpecial c) eqn:E; cbn [app]; intros H; inversion H.
    subst c. discriminate.
  - rewrite !escapeWifi_cons.
    destruct (isWifiSpecial c) eqn:E, (isWifiSpecial c') eqn:E';
      cbn [app]; intros H.
    + injection H as Hc H. subst c'.
      destruct (IH _ _ _ H) as [-> ->]. now split.
    + injection H as Hc _. subst c'. discriminate.
    + injection H as Hc _. subst c. discriminate.
    + injection H as Hc H. subst c'.
      destruct (IH _ _ _ H) as [-> ->]. now split.
Qed.

End EscapeFacts.

(** [escapeWifi] loses nothing: two different values have different
    escaped forms. *)
Theorem escapeWifi_injective (s s' : jsstring) :
  s <> s' -> escapeWifi s <> escapeWifi s'.
Proof.
  intros Hne H. apply Hne.
  apply (escapeWifi_delimited s s' [] []). now rewrite H.
Qed.

(** The payload of [generateValue] determines the network: two entries
    with the same payload are both open or both closed, have the same
    SSID up to surrounding white space and, when they are closed, the
    same password up to surrounding white space. Neither a semicolon nor
    a backslash in a field can make two networks collide. *)
Theorem generateValue_injective (a b : Item) :
  generateValue (Some a) = generateValue (Some b) ->
  isOpen a = isOpen b /\
  trim (ssid a) = trim (ssid b) /\
  (isOpen a = false -> trim (password a) = trim (password b)).
Proof.
  unfold generateValue. cbn [itemIsOpen field].
  destruct (isOpen a), (isOpen b); intros H.
  - apply app_inv_head in H.
    apply (escapeWifi_delimited _ _ [59%N] [59%N]) in H.
    destruct H as [H _]. repeat split; [exact H|discriminate].
  - cbn in H. inversion H.
  - cbn in H. inversion H.
  - apply app_inv_head in H.
    change (lit ";P:") with (59%N :: lit "P:") in H.
    change (lit ";;") with (59%N :: [59%N]) in H.
    cbn [app] in H.
    apply escapeWifi_delimited in H. destruct H as [Hs H].
    cbn [lit list_ascii_of_string map app] in H.
    inversion H as [H'].
    apply (escapeWifi_delimited _ _ [59%N] [59%N]) in H'.
    destruct H' as [Hp _]. split; [reflexivity|]. split; [exact Hs|].
    intros _. exact Hp.
Qed.

(** The values [a;b] and [;ab], whose special code unit moves. *)
Lemma escapeWifi_injective_witness :
  lit "a;b" <> lit ";ab" /\
  escapeWifi (lit "a;b") <> escapeWifi (lit ";ab").
Proof.
  split; [discriminate|].
  apply (escapeWifi_injective (lit "a;b") (lit ";ab")). discriminate.
Defined.

(** Two entries that differ in the white space around their fields. *)
Lemma generateValue_injective_witness :
  generateValue
    (Some {| ssid := lit " Red 7 "; password := lit "a;b";
             isOpen := false; networkType := lit "5.0" |})
  = generateValue
      (Some {| ssid := lit "Red 7"; password := lit "a;b ";
               isOpen := false; networkType := lit "2.4" |})
  /\ trim (lit " Red 7 ") = trim (lit "Red 7")
  /\ trim (lit "a;b") = trim (lit "a;b ").
Proof.
  split; [reflexivity|].
  destruct (generateValue_injective
              {| ssid := lit " Red 7 "; password := lit "a;b";
                 isOpen := false; networkType := lit "5.0" |}
              {| ssid := lit "Red 7"; password := lit "a;b ";
                 isOpen := false; networkType := lit "2.4" |}
              eq_refl) as (_ & Hs & Hp).
  split; [exact Hs|]. apply Hp. reflexivity.
Defined.

Section ReplaceFacts.

Variables (cls : N -> bool) (f : N -> jsstring).

Lemma replaceClass_kept s :
  Forall (fun c => cls c = false) s -> replaceClass cls f s = s.
Proof.
  induction 1 as [|c s Hc _ IH]; [reflexivity|].
  unfold replaceClass in *. cbn [flat_map]. rewrite Hc, IH. reflexivity.
Qed.

Lemma replaceClass_length s :
  (forall c, length (f c) = 1%nat) ->
  length (replaceClass cls f s) = length s.
Proof.
  intros Hf. induction s as [|c s IH]; [reflexivity|].
  unfold replaceClass in *. cbn [flat_map]. rewrite length_app, IH.
  destruct (cls c); [rewrite Hf|]; reflexivity.
Qed.

End ReplaceFacts.

Section FilenameFacts.

Import Page.

Lemma isSafeChar_not_trimmed c : isSafeChar c = true -> isTrimmed c = false.
Proof.
  intros H. unfold isSafeChar in H.
  unfold isTrimmed, isLineTerminator. cbn [existsb].
  repeat match goal with
         | |- context [(c =? ?k)%N] =>
             let F := fresh in destruct (c =? k)%N eqn:F;
               [apply N.eqb_eq in F; subst; discriminate|]
         end.
  reflexivity.
Qed.

Lemma safe_replaced s :
  Forall (fun c => isSafeChar c = true)
    (replaceClass (fun c => negb (isSafeChar c)) (fun _ => lit "_") s).
Proof.
  induction s as [|c s IH]; [constructor|].
  unfold replaceClass in *. cbn [flat_map].
  destruct (isSafeChar c) eqn:E; cbn [negb app].
  - constructor; assumption.
  - constructor; [reflexivity|assumption].
Qed.

(** A name that is not empty and holds letters, digits, hyphens and
    underscores only is its own file name. *)
Lemma safe_name_kept v :
  v <> [] -> Forall (fun c => isSafeChar c = true) v ->
  safeFilename (Some v) = v.
Proof.
  intros Hne Hs. unfold safeFilename. cbv zeta.
  rewrite (Forall_trim_kept _ v isSafeChar_not_trimmed Hs).
  destruct v as [|c v]; [congruence|].
  apply replaceClass_kept. revert Hs. apply Forall_impl.
  intros a Ha. now rewrite Ha.
Qed.

Lemma safeFilename_length v :
  length (safeFilename v)
  = match trim (match v with Some s => s | None => [] end) with
    | [] => 2%nat
    | t => length t
    end.
Proof.
  unfold safeFilename. cbv zeta.
  rewrite replaceClass_length by reflexivity.
  destruct (trim _); reflexivity.
Qed.

End FilenameFacts.

(** The file name of a download is never empty, holds letters, digits,
    hyphens and underscores only, is as long as the trimmed value (two
    code units when that is empty), and is its own file name. *)
Theorem safeFilename_safe (value : option jsstring) :
  Page.safeFilename value <> [] /\
  Forall (fun c => Page.isSafeChar c = true) (Page.safeFilename value) /\
  length (Page.safeFilename value)
  = match trim (match value with Some s => s | None => [] end) with
    | [] => 2%nat
    | t => length t
    end /\
  Page.safeFilename (Some (Page.safeFilename value))
  = Page.safeFilename value.
Proof.
  assert (Hne : Page.safeFilename value <> []).
  { intros E. apply (f_equal (@length N)) in E.
    rewrite safeFilename_length in E.
    destruct (trim _); discriminate. }
  split; [exact Hne|]. split; [apply safe_replaced|].
  split; [apply safeFilename_length|].
  apply safe_name_kept; [exact Hne|apply safe_replaced].
Qed.

(** A value that is not empty and holds letters, digits, hyphens and
    underscores only is used as the file name as it is. *)
Theorem safeFilename_keeps_safe_names (value : jsstring) :
  value <> [] ->
  Forall (fun c => Page.isSafeChar c = true) value ->
  Page.safeFilename (Some value) = value.
Proof. apply safe_name_kept. Qed.

(** The SSID of the placeholder of the form. *)
Lemma safeFilename_keeps_safe_names_witness :
  lit "Red_Cliente_23" <> [] /\
  Forall (fun c => Page.isSafeChar c = true) (lit "Red_Cliente_23") /\
  Page.safeFilename (Some (lit "Red_Cliente_23")) = lit "Red_Cliente_23".
Proof.
  assert (Hs : Forall (fun c => Page.isSafeChar c = true)
                 (lit "Red_Cliente_23"))
    by (repeat constructor).
  split; [discriminate|]. split; [exact Hs|].
  apply (safeFilename_keeps_safe_names (lit "Red_Cliente_23"));
    [discriminate|exact Hs].
Defined.

Section SanitizeFacts.

Lemma dropClosingDots_single_dot s :
  (countDots s <= 1)%nat -> dropClosingDots s = s.
Proof.
  funelim (dropClosingDots s); try easy; rewrite countDots_cons;
    match goal with E : (_ =? DOT)%N = _ |- _ => rewrite E end.
  - cbn [Nat.add]. intros Hd. f_equal. now apply H.
  - pose proof (greedyToDot_split _ _ _ e) as ->.
    rewrite countDots_app, countDots_cons, N.eqb_refl. lia.
  - intros Hd. f_equal. apply H. lia.
Qed.

Lemma countDots_cleaned s :
  countDots (replaceClass notDigitOrDot (fun _ => []) s) = countDots s.
Proof.
  induction s as [|c s IH]; [reflexivity|].
  unfold replaceClass in *. cbn [flat_map].
  rewrite countDots_app, IH, countDots_cons. f_equal.
  unfold notDigitOrDot. destruct (c =? DOT)%N eqn:E.
  - rewrite orb_true_r. cbn [negb]. rewrite countDots_cons, E. reflexivity.
  - destruct (isDigit c); cbn [orb negb]; [|reflexivity].
    rewrite countDots_cons, E. reflexivity.
Qed.

Lemma sanitizeNumericDot_two_periods value :
  (countDots value <= 2)%nat ->
  (countDots (sanitizeNumericDot value) <= 1)%nat.
Proof.
  intros H. pose proof (sanitizeNumericDot_periods value) as Hp.
  cbv zeta in Hp. rewrite countDots_cleaned in Hp. rewrite Hp.
  destruct (2 <=? countDots value)%nat eqn:E; [lia|].
  apply Nat.leb_gt in E. lia.
Qed.

End SanitizeFacts.

(** A value of digits with at most one period is left as it is by
    [sanitizeNumericDot]: the handler of the field and [handleAdd], which
    sanitises the stored value once more, agree on it. *)
Theorem sanitizeNumericDot_keeps_decimals (value : jsstring) :
  Forall (fun c => isDigit c || (c =? DOT)%N = true) value ->
  (countDots value <= 1)%nat ->
  sanitizeNumericDot value = value.
Proof.
  intros Ha Hd. unfold sanitizeNumericDot. cbv zeta.
  rewrite replaceClass_kept.
  - now apply dropClosingDots_single_dot.
  - revert Ha. apply Forall_impl. intros c Hc.
    unfold notDigitOrDot. now rewrite Hc.
Qed.

(** The default network type. *)
Lemma sanitizeNumericDot_keeps_decimals_witness :
  Forall (fun c => isDigit c || (c =? DOT)%N = true) (lit "5.0") /\
  (countDots (lit "5.0") <= 1)%nat /\
  sanitizeNumericDot (lit "5.0") = lit "5.0".
Proof.
  assert (Ha : Forall (fun c => isDigit c || (c =? DOT)%N = true)
                 (lit "5.0")) by (repeat constructor).
  assert (Hd : (countDots (lit "5.0") <= 1)%nat) by (vm_compute; lia).
  split; [exact Ha|]. split; [exact Hd|].
  apply (sanitizeNumericDot_keeps_decimals (lit "5.0") Ha Hd).
Defined.

(** Typing keeps the network type at one period at most: when the field
    holds at most one period and one code unit is inserted anywhere, the
    value that the handler of the field stores has at most one period
    again (and digits and periods only). More than one period is only
    reached by inserting several at once. *)
Theorem sanitizeNumericDot_typing (old : jsstring) (i : nat) (c : N) :
  (countDots old <= 1)%nat ->
  let typed := firstn i old ++ c :: skipn i old in
  (countDots (sanitizeNumericDot typed) <= 1)%nat /\
  Forall (fun c => isDigit c || (c =? DOT)%N = true)
    (sanitizeNumericDot typed).
Proof.
  intros H. cbv zeta. split; [|apply sanitizeNumericDot_alphabet].
  apply sanitizeNumericDot_two_periods.
  rewrite countDots_app, countDots_cons.
  rewrite <- (firstn_skipn i old), countDots_app in H.
  destruct (c =? DOT)%N; lia.
Qed.

(** A second period typed behind [5.0]. *)
Lemma sanitizeNumericDot_typing_witness :
  (countDots (lit "5.0") <= 1)%nat /\
  sanitizeNumericDot (firstn 3 (lit "5.0") ++ DOT :: skipn 3 (lit "5.0"))
  = lit "5.0" /\
  (countDots
     (sanitizeNumericDot
        (firstn 3 (lit "5.0") ++ DOT :: skipn 3 (lit "5.0"))) <= 1)%nat.
Proof.
  assert (Hd : (countDots (lit "5.0") <= 1)%nat) by (vm_compute; lia).
  split; [exact Hd|]. split; [reflexivity|].
  apply (sanitizeNumericDot_typing (lit "5.0") 3 DOT Hd).
Defined.

Section LastPeriodFacts.

Lemma greedyToDot_without_dots s :
  countDots s = 0%nat -> greedyToDot s = None.
Proof.
  intros H. destruct (greedyToDot s) as [[taken rest]|] eqn:E;
    [|reflexivity].
  apply greedyToDot_split in E. subst s.
  rewrite countDots_app, countDots_cons, N.eqb_refl in H. lia.
Qed.

(** The greedy run ends at the last dot. *)
Lemma greedyToDot_to_last a : forall b,
  Forall (fun c => isLineTerminator c = false) a ->
  countDots b = 0%nat ->
  greedyToDot (a ++ DOT :: b) = Some (a, b).
Proof.
  induction a as [|c a IH]; intros b Ha Hb.
  - cbn [app greedyToDot]. rewrite (greedyToDot_without_dots b Hb).
    reflexivity.
  - inversion Ha as [|? ? Hc Ha']; subst.
    cbn [app greedyToDot]. rewrite Hc, (IH b Ha' Hb). reflexivity.
Qed.

(** With two dots or more, the second replace removes the last one and
    nothing else. *)
Lemma dropClosingDots_last s : forall a b,
  s = a ++ DOT :: b ->
  Forall (fun c => isLineTerminator c = false) a ->
  (1 <= countDots a)%nat -> countDots b = 0%nat ->
  dropClosingDots s = a ++ b.
Proof.
  funelim (dropClosingDots s); intros a b Es Ha Hda Hb.
  - destruct a; discriminate.
  - destruct a as [|x a]; [cbn in Hda; lia|].
    cbn [app] in Es. injection Es as <- ->.
    inversion Ha as [|? ? _ Ha']; subst.
    rewrite countDots_cons in Hda.
    match goal with E : (_ =? DOT)%N = _ |- _ => rewrite E in Hda end.
    cbn [app]. f_equal. apply H; auto.
  - destruct a as [|x a]; [cbn in Hda; lia|].
    cbn [app] in Es. injection Es as <- ->.
    inversion Ha as [|? ? _ Ha']; subst.
    pose proof e as e'.
    rewrite (greedyToDot_to_last a b Ha' Hb) in e'.
    injection e' as <- <-.
    rewrite (dropClosingDots_without_dots b Hb). reflexivity.
  - destruct a as [|x a]; [cbn in Hda; lia|].
    cbn [app] in Es. injection Es as <- ->.
    inversion Ha as [|? ? _ Ha']; subst.
    pose proof e as e'.
    rewrite (greedyToDot_to_last a b Ha' Hb) in e'. discriminate.
Qed.

Lemma decimal_not_terminator c :
  isDigit c || (c =? DOT)%N = true -> isLineTerminator c = false.
Proof.
  intros H. unfold isDigit, DOT in H. unfold isLineTerminator.
  cbn [existsb].
  repeat match goal with
         | |- context [(c =? ?k)%N] =>
             let F := fresh in destruct (c =? k)%N eqn:F;
               [apply N.eqb_eq in F; subst; discriminate|]
         end.
  reflexivity.
Qed.

End LastPeriodFacts.

(** What [sanitizeNumericDot] does to a value of digits and periods
    with two periods or more: it removes the last period and nothing
    else, so that all the periods but one are left. With [a] the value
    up to its last period and [b] the digits behind it, the result is
    [a] followed by [b]. *)
Theorem sanitizeNumericDot_removes_the_last_period (a b : jsstring) :
  Forall (fun c => isDigit c || (c =? DOT)%N = true) a ->
  Forall (fun c => isDigit c = true) b ->
  (1 <= countDots a)%nat ->
  sanitizeNumericDot (a ++ DOT :: b) = a ++ b.
Proof.
  intros Ha Hb Hd.
  assert (Hb' : Forall (fun c => isDigit c || (c =? DOT)%N = true) b)
    by (revert Hb; apply Forall_impl; intros c ->; reflexivity).
  assert (Hb0 : countDots b = 0%nat).
  { clear Hb'. induction Hb as [|c b Hc _ IH]; [reflexivity|].
    rewrite countDots_cons, IH.
    destruct (c =? DOT)%N eqn:E; [|reflexivity].
    apply N.eqb_eq in E. subst c. discriminate. }
  unfold sanitizeNumericDot. cbv zeta.
  rewrite replaceClass_kept.
  - apply (dropClosingDots_last _ a b eq_refl); try assumption.
    revert Ha. apply Forall_impl. exact decimal_not_terminator.
  - apply Forall_app. split; [|constructor; [reflexivity|]].
    + revert Ha. apply Forall_impl. intros c Hc.
      unfold notDigitOrDot. now rewrite Hc.
    + revert Hb'. apply Forall_impl. intros c Hc.
      unfold notDigitOrDot. now rewrite Hc.
Qed.

(** The value [1.2.3.4]: up to its last period [1.2.3], behind it
    [4]. *)
Lemma sanitizeNumericDot_removes_the_last_period_witness :
  Forall (fun c => isDigit c || (c =? DOT)%N = true) (lit "1.2.3") /\
  Forall (fun c => isDigit c = true) (lit "4") /\
  (1 <= countDots (lit "1.2.3"))%nat /\
  sanitizeNumericDot (lit "1.2.3" ++ DOT :: lit "4") = lit "1.2.34".
Proof.
  assert (Ha : Forall (fun c => isDigit c || (c =? DOT)%N = true)
                 (lit "1.2.3")) by (repeat constructor).
  assert (Hb : Forall (fun c => isDigit c = true) (lit "4"))
    by (repeat constructor).
  assert (Hd : (1 <= countDots (lit "1.2.3"))%nat) by (vm_compute; lia).
  split; [exact Ha|]. split; [exact Hb|]. split; [exact Hd|].
  rewrite (sanitizeNumericDot_removes_the_last_period
             (lit "1.2.3") (lit "4") Ha Hb Hd).
  reflexivity.
Defined.

(* ===================================================================== *)
(** * Properties of the form *)
(* ===================================================================== *)

Section FormFacts.

Import Page.

Lemma decimal_not_trimmed c :
  isDigit c || (c =? DOT)%N = true -> isTrimmed c = false.
Proof.
  intros H. unfold isDigit, DOT in H.
  unfold isTrimmed, isLineTerminator. cbn [existsb].
  repeat match goal with
         | |- context [(c =? ?k)%N] =>
             let F := fresh in destruct (c =? k)%N eqn:F;
               [apply N.eqb_eq in F; subst; discriminate|]
         end.
  reflexivity.
Qed.

(** Filtering by index keeps values of the list only. *)
Lemma filterIdx_In {A} (keep : A -> nat -> bool) (l : list A) a :
  In a (filterIdx keep l) -> In a l.
Proof.
  unfold filterIdx. intros H. apply in_map_iff in H.
  destruct H as [[a' k] [<- H]]. apply filter_In in H.
  destruct H as [H _]. now apply in_combine_l in H.
Qed.

Lemma removeAt_from {A} (i : nat) (l : list A) : forall k,
  map fst
    (filter (fun p : A * nat => negb (snd p =? i)%nat)
       (combine l (seq k (length l))))
  = if (i <? k)%nat then l
    else firstn (i - k) l ++ skipn (S (i - k)) l.
Proof.
  induction l as [|a l IH]; intros k.
  - cbn [length seq combine filter map].
    destruct (i <? k)%nat; [reflexivity|].
    now rewrite firstn_nil, skipn_nil.
  - cbn [length seq combine filter snd].
    destruct (k =? i)%nat eqn:E; cbn [negb map fst]; rewrite IH.
    + apply Nat.eqb_eq in E. subst k.
      destruct (i <? S i)%nat eqn:E1; [|apply Nat.ltb_ge in E1; lia].
      rewrite Nat.ltb_irrefl, Nat.sub_diag. reflexivity.
    + apply Nat.eqb_neq in E.
      destruct (i <? k)%nat eqn:E1.
      * apply Nat.ltb_lt in E1.
        destruct (i <? S k)%nat eqn:E2; [reflexivity|].
        apply Nat.ltb_ge in E2. lia.
      * apply Nat.ltb_ge in E1.
        destruct (i <? S k)%nat eqn:E2; [apply Nat.ltb_lt in E2; lia|].
        replace (i - k)%nat with (S (i - S k)) by lia. reflexivity.
Qed.

(** The type of network that [handleAdd] stores. *)
Lemma finalNetworkType_decimal nt :
  Forall (fun c => isDigit c || (c =? DOT)%N = true) nt ->
  let cleaned := orString (trim nt) (lit "5.0") in
  let final := orString (sanitizeNumericDot cleaned) cleaned in
  final <> [] /\ Forall (fun c => isDigit c || (c =? DOT)%N = true) final.
Proof.
  intros Hnt. cbv zeta.
  set (cleaned := orString (trim nt) (lit "5.0")).
  assert (Hc : cleaned <> [] /\
               Forall (fun c => isDigit c || (c =? DOT)%N = true) cleaned).
  { unfold cleaned, orString. destruct (trim nt) as [|c t] eqn:E.
    - split; [discriminate|repeat constructor].
    - split; [discriminate|]. rewrite <- E.
      apply Forall_forall. intros x Hx. apply trim_In in Hx.
      rewrite Forall_forall in Hnt. now apply Hnt. }
  pose proof (sanitizeNumericDot_alphabet cleaned) as Ha.
  clearbody cleaned. unfold orString.
  destruct (sanitizeNumericDot cleaned) as [|c t]; [exact Hc|].
  split; [discriminate|exact Ha].
Qed.

(** What the handlers keep: the entries of the list are well formed, and
    the field of the type of network holds digits and periods only. *)
Let formInv (st : Form) : Prop :=
  Forall wellStored (f_qrs st) /\
  Forall (fun c => isDigit c || (c =? DOT)%N = true) (f_networkType st).

Lemma handleAdd_inv st : formInv st -> formInv (handleAdd st).
Proof.
  intros [Hq Hn]. unfold handleAdd. cbv zeta.
  destruct (trim (f_ssid st)) as [|c t] eqn:Es; [split; assumption|].
  destruct (negb (f_isOpen st)
            && match trim (f_password st) with [] => true | _ => false end)
    eqn:Ep; [split; assumption|].
  split; [|repeat constructor].
  cbn [f_qrs]. apply Forall_app. split; [exact Hq|].
  constructor; [|constructor].
  destruct (finalNetworkType_decimal (f_networkType st) Hn) as [Hne Hdec].
  unfold wellStored. cbn [ssid password isOpen networkType].
  repeat split.
  - discriminate.
  - rewrite <- Es. apply trim_idempotent.
  - apply trim_idempotent.
  - intros Ho. rewrite Ho in Ep. cbn [negb andb] in Ep.
    destruct (trim (f_password st)); [discriminate|discriminate].
  - exact Hne.
  - exact Hdec.
Qed.

Lemma act_inv st a : formInv st -> formInv (act st a).
Proof.
  intros [Hq Hn]. destruct a; try (split; assumption).
  - split; [exact Hq|]. cbn [act f_networkType].
    apply sanitizeNumericDot_alphabet.
  - now apply handleAdd_inv.
  - split; [|exact Hn]. cbn [act f_qrs].
    apply Forall_forall. intros x Hx. apply filterIdx_In in Hx.
    rewrite Forall_forall in Hq. now apply Hq.
Qed.

Lemma run_inv actions : formInv (run actions).
Proof.
  unfold run.
  assert (H : forall st, formInv st -> formInv (fold_left act actions st)).
  { induction actions as [|a l IH]; intros st Hst; [exact Hst|].
    cbn [fold_left]. apply IH. now apply act_inv. }
  apply H. split; [constructor|repeat constructor].
Qed.

End FormFacts.

(** The button that adds an entry and the check of [handleAdd] agree:
    when [canAdd] holds, [handleAdd] appends the entry of the trimmed
    inputs to the list and resets the form; when it does not, the list
    and the inputs are left as they are and an error is shown. *)
Theorem handleAdd_agrees_with_canAdd (st : Page.Form) :
  let st' := Page.handleAdd st in
  if Page.canAdd st then
    exists net,
      st' = {| Page.f_ssid := []; Page.f_password := [];
               Page.f_isOpen := false; Page.f_networkType := lit "5.0";
               Page.f_error := [];
               Page.f_qrs :=
                 Page.f_qrs st ++
                 [{| ssid := trim (Page.f_ssid st);
                     password := trim (Page.f_password st);
                     isOpen := Page.f_isOpen st;
                     networkType := net |}];
               Page.f_printIndex := Page.f_printIndex st |}
  else
    Page.f_qrs st' = Page.f_qrs st /\
    Page.f_error st' <> [] /\
    Page.f_ssid st' = Page.f_ssid st /\
    Page.f_password st' = Page.f_password st /\
    Page.f_isOpen st' = Page.f_isOpen st /\
    Page.f_networkType st' = Page.f_networkType st.
Proof.
  cbv zeta. unfold Page.canAdd, Page.handleAdd. cbv zeta.
  destruct (trim (Page.f_ssid st)) as [|c t] eqn:Es.
  - repeat split. discriminate.
  - destruct (Page.f_isOpen st) eqn:Eo; cbn [negb andb].
    + eexists. reflexivity.
    + destruct (trim (Page.f_password st)) as [|c' t'] eqn:Ep;
        cbn [length Nat.ltb Nat.leb].
      * repeat split. discriminate.
      * eexists. reflexivity.
Qed.

(** Whatever the user does on the page, every entry of the list is well
    formed: its SSID is not empty and has no white space around it, its
    password has no white space around it and is not empty unless the
    network is open, and its type of network is not empty and holds
    digits and periods only. *)
Theorem stored_items_are_well_formed (actions : list Page.Action) :
  Forall Page.wellStored (Page.f_qrs (Page.run actions)).
Proof. apply (run_inv actions). Qed.

(** The button that removes the entry at [i] leaves the entries before
    [i] and the entries behind it, in their order; an index beyond the
    list removes nothing. *)
Theorem removeAt_splice (A : Type) (i : nat) (l : list A) :
  Page.removeAt i l = firstn i l ++ skipn (S i) l.
Proof.
  unfold Page.removeAt, Page.filterIdx.
  rewrite (removeAt_from i l 0). cbn [Nat.ltb Nat.leb].
  now rewrite Nat.sub_0_r.
Qed.

(** The payload of an entry of the list is built from its fields as
    they are stored: the trimming of [generateValue] finds nothing to
    remove. *)
Theorem generateValue_of_stored_item
    (actions : list Page.Action) (item : Item) :
  In item (Page.f_qrs (Page.run actions)) ->
  generateValue (Some item) =
    if isOpen item
    then lit "WIFI:T:nopass;S:" ++ escapeWifi (ssid item) ++ lit ";;"
    else lit "WIFI:T:WPA;S:" ++ escapeWifi (ssid item) ++ lit ";P:"
           ++ escapeWifi (password item) ++ lit ";;".
Proof.
  intros Hin.
  pose proof (run_inv actions) as [Hq _].
  rewrite Forall_forall in Hq. destruct (Hq item Hin) as (_ & Hs & Hp & _).
  unfold generateValue. cbn [itemIsOpen field]. cbv zeta.
  now rewrite Hs, Hp.
Qed.

(** The entry of the network [ Red 7 ] with the password [a;b], typed
    with white space around them. *)
Lemma generateValue_of_stored_item_witness :
  In {| ssid := lit "Red 7"; password := lit "a;b"; isOpen := false;
        networkType := lit "5.0" |}
     (Page.f_qrs
        (Page.run [Page.SetSsid (lit " Red 7 ");
                   Page.SetPassword (lit " a;b "); Page.Add])) /\
  generateValue
    (Some {| ssid := lit "Red 7"; password := lit "a;b"; isOpen := false;
             networkType := lit "5.0" |})
  = lit "WIFI:T:WPA;S:Red 7;P:a\;b;;".
Proof.
  split; [now left|].
  rewrite (generateValue_of_stored_item
             [Page.SetSsid (lit " Red 7 "); Page.SetPassword (lit " a;b ");
              Page.Add]); [reflexivity|now left].
Defined.

(* ===================================================================== *)
(** * Further properties of the sticker and of its download *)
(* ===================================================================== *)

Section OutcomeFacts.

Variable measureText : Font -> jsstring -> Q.

Lemma png_calls_encode env ctx : png_calls (encode env ctx) = calls ctx.
Proof.
  unfold encode.
  destruct (negb ROTATE_CONTENT_FOR_HORIZONTAL_LABEL); [reflexivity|].
  destruct (rotate2d env); reflexivity.
Qed.

(** When an image fails to load, the load that is taken as the first
    failure is one that failed. *)
Lemma firstFailure_failed env :
  logoLoad env = None \/ wifiLoad env = None \/ qrLoad env = None ->
  loadOf env (firstFailure env) = None.
Proof.
  intros H. unfold firstFailure.
  destruct (filter (failed env) (settleOrder env)) as [|slot l] eqn:E.
  - unfold failed, loadOf.
    destruct (logoLoad env); [|reflexivity].
    destruct (wifiLoad env); [|reflexivity].
    destruct (qrLoad env); [|reflexivity].
    destruct H as [H|[H|H]]; discriminate.
  - assert (Hin : In slot (filter (failed env) (settleOrder env)))
      by (rewrite E; now left).
    apply filter_In in Hin. destruct Hin as [_ Hf]. unfold failed in Hf.
    destruct (loadOf env slot); [discriminate|reflexivity].
Qed.

(** The three ways the promise of [buildWifiStickerPng] settles. *)
Lemma buildWifiStickerPng_cases env item qrDataUrl :
  let p := buildWifiStickerPng measureText env item qrDataUrl in
  (has2d env = false /\ p = Resolved None)
  \/
  (has2d env = true /\
   (logoLoad env = None \/ wifiLoad env = None \/ qrLoad env = None) /\
   exists src, p = Rejected (lit "No se pudo cargar la imagen: " ++ src))
  \/
  (has2d env = true /\
   exists logoImg wifiImg qrImg,
     logoLoad env = Some logoImg /\ wifiLoad env = Some wifiImg /\
     qrLoad env = Some qrImg /\
     p = Resolved
           (Some (encode env
                    (paint measureText item logoImg wifiImg qrImg
                       (end_ctx (pack measureText item logoImg wifiImg
                                   whiteLabel))
                       (end_pack (pack measureText item logoImg wifiImg
                                    whiteLabel)))))).
Proof.
  cbv zeta. unfold buildWifiStickerPng, loadAll.
  destruct (has2d env); cbn [negb]; [right|left; now split].
  generalize (firstFailure env). intros slot.
  destruct (logoLoad env) as [logoImg|].
  - destruct (wifiLoad env) as [wifiImg|].
    + destruct (qrLoad env) as [qrImg|].
      * right. split; [reflexivity|]. now exists logoImg, wifiImg, qrImg.
      * left. split; [reflexivity|]. split; [now right; right|].
        eexists. reflexivity.
    + left. split; [reflexivity|]. split; [now right; left|].
      destruct (qrLoad env); eexists; reflexivity.
  - left. split; [reflexivity|]. split; [now left|].
    destruct (wifiLoad env), (qrLoad env); eexists; reflexivity.
Qed.

End OutcomeFacts.


(** What [handleDownload] does, in every case. Nothing is downloaded
    when the hidden canvas gave no QR code or the index is not one of
    the list. Otherwise one file is downloaded, named after the SSID of
    the entry; it is the bare QR code exactly when the sticker could not
    be built (no 2D context, or an image that fails to load), and the
    sticker that [buildWifiStickerPng] resolves to otherwise. *)
Theorem handleDownload_falls_back_to_the_qr_code
    (measureText : Font -> jsstring -> Q) (env : Env)
    (capture : option jsstring) (qrs : list Item) (index : nat) :
  match Page.handleDownload measureText env capture qrs index with
  | None =>
      Page.falsy capture = true \/ nth_error qrs index = None
  | Some d =>
      exists qrDataUrl item,
        capture = Some qrDataUrl /\ qrDataUrl <> [] /\
        nth_error qrs index = Some item /\
        Page.download d
        = Page.safeFilename (Some (ssid item)) ++ lit ".png" /\
        (Page.href d = Page.Url qrDataUrl <->
         has2d env = false \/ logoLoad env = None \/ wifiLoad env = None
         \/ qrLoad env = None) /\
        (forall png,
           Page.href d = Page.StickerPng png <->
           buildWifiStickerPng measureText env (Some item) qrDataUrl
           = Resolved (Some png))
  end.
Proof.
  unfold Page.handleDownload.
  destruct capture as [[|c url]|]; cbn [Page.falsy].
  - destruct (nth_error qrs index); now left.
  - destruct (nth_error qrs index) as [item|]; [|now right].
    destruct (buildWifiStickerPng_cases measureText env (Some item)
                (c :: url))
      as [[H2d Hp]|[(H2d & Hfail & src & Hp)
                   |(H2d & l & w & q & Hl & Hw & Hq & Hp)]];
      cbv zeta in Hp; rewrite Hp;
      exists (c :: url), item; cbn [Page.href Page.download];
      (split; [reflexivity|]); (split; [discriminate|]);
      (split; [reflexivity|]); (split; [reflexivity|]); split.
    + split; [intros _; now left|reflexivity].
    + intros png. rewrite Hp. split; discriminate.
    + split; [intros _; right; exact Hfail|reflexivity].
    + intros png. rewrite Hp. split; discriminate.
    + split; [discriminate|].
      intros [H|[H|[H|H]]]; congruence.
    + intros png. rewrite Hp.
      split; intros H; injection H as <-; reflexivity.
  - now left.
Qed.

Section FrameFacts.

Variable measureText : Font -> jsstring -> Q.

Lemma sameButFont_trans c1 c2 c3 :
  sameButFont c1 c2 -> sameButFont c2 c3 -> sameButFont c1 c3.
Proof.
  unfold sameButFont. intros (A1 & A2 & A3 & A4 & A5 & A6)
    (B1 & B2 & B3 & B4 & B5 & B6).
  repeat split; congruence.
Qed.

Lemma fitTextSize_frame ctx text maxWidth weight startPx minPx :
  sameButFont ctx
    (fst (fitTextSize measureText ctx text maxWidth weight startPx minPx)).
Proof. apply fitLoop_frame. Qed.

Lemma fitAll_frame passText ssidText netText ctx st :
  sameButFont ctx
    (fst (fitAll measureText passText ssidText netText ctx st)).
Proof.
  unfold fitAll. cbv zeta. cbn [fst].
  eapply sameButFont_trans; [|apply fitTextSize_frame].
  eapply sameButFont_trans; [|apply fitTextSize_frame].
  apply fitTextSize_frame.
Qed.

(** The packing loop touches the font of the context only: nothing is
    painted while the sizes are tried. *)
Lemma packLoop_frame passText ssidText netText logoH wifiH i :
  forall ctx st,
    sameButFont ctx
      (end_ctx (packLoop measureText passText ssidText netText logoH wifiH
                  i ctx st)).
Proof.
  pattern i. apply iter_ind. clear i. intros i IH ctx st.
  rewrite packLoop_unfold.
  destruct (i <? 18) eqn:Hi; [|repeat split].
  destruct (layoutFits logoH wifiH st _).
  - cbn [end_ctx]. apply fitAll_frame.
  - eapply sameButFont_trans; [apply fitAll_frame|].
    apply IH. lia.
Qed.

End FrameFacts.

Section LayoutFacts.

Variable measureText : Font -> jsstring -> Q.

Lemma nmax_ofZ a b : nmax (ofZ a) (ofZ b) = ofZ (Z.max a b).
Proof.
  unfold nmax. change (ofZ a) with (Fin (inject_Z a)) at 1.
  change (ofZ b) with (Fin (inject_Z b)) at 1.
  cbv iota. change (Fin (inject_Z a)) with (ofZ a).
  change (Fin (inject_Z b)) with (ofZ b).
  rewrite nle_ofZ. destruct (a <=? b) eqn:E; f_equal; lia.
Qed.

Lemma nmin_ofZ a b : nmin (ofZ a) (ofZ b) = ofZ (Z.min a b).
Proof.
  unfold nmin. change (ofZ a) with (Fin (inject_Z a)) at 1.
  change (ofZ b) with (Fin (inject_Z b)) at 1.
  cbv iota. change (Fin (inject_Z a)) with (ofZ a).
  change (Fin (inject_Z b)) with (ofZ b).
  rewrite nle_ofZ. destruct (a <=? b) eqn:E; f_equal; lia.
Qed.

Lemma globalAlpha_withSmoothing ctx b :
  globalAlpha (withSmoothing ctx b) = globalAlpha ctx.
Proof. reflexivity. Qed.

Lemma globalAlpha_withAlpha ctx a : globalAlpha (withAlpha ctx a) = a.
Proof. reflexivity. Qed.

Lemma globalAlpha_drawImage ctx img x y w h :
  globalAlpha (drawImage ctx img x y w h) = globalAlpha ctx.
Proof. reflexivity. Qed.

Lemma ofZ_inj a b : ofZ a = ofZ b -> a = b.
Proof. unfold ofZ, inject_Z. intros H. now injection H. Qed.

(** The height of the scaled logo is not negative. *)
Lemma logoH_nonneg logoImg k :
  0 < img_width logoImg -> 0 < img_height logoImg ->
  logoH logoImg = ofZ k -> 0 <= k.
Proof.
  intros Hw Hh H.
  destruct (logoH_of_sized logoImg Hw Hh) as (k' & E & Hk').
  rewrite E in H. change (Fin (inject_Z k')) with (ofZ k') in H.
  apply ofZ_inj in H. lia.
Qed.

(** The width of the scaled logo is at most the 490 pixels between the
    pads. *)
Lemma logoW_of_sized logoImg :
  0 < img_width logoImg -> 0 < img_height logoImg ->
  exists lw, logoW logoImg = ofZ lw /\ 0 <= lw <= 490.
Proof.
  intros Hw Hh. unfold logoW, logoScale, logoTargetH, logoMaxW.
  change (labelW - padX * 2) with 490.
  destruct (ndiv_ofZ_sized 490 (img_width logoImg) ltac:(lia) Hw)
    as (a & -> & A1 & A2).
  destruct (ndiv_ofZ_sized 92 (img_height logoImg) ltac:(lia) Hh)
    as (b & -> & B1 & B2).
  assert (Ha : (0 <= a)%Q).
  { apply Qle_trans with (2 := A1). apply Qmult_le_0_compat; [|discriminate].
    apply Qle_shift_div_l; [now apply inject_Z_pos|]. rewrite Qmult_0_l.
    discriminate. }
  assert (Hb : (0 <= b)%Q).
  { apply Qle_trans with (2 := B1). apply Qmult_le_0_compat; [|discriminate].
    apply Qle_shift_div_l; [now apply inject_Z_pos|]. rewrite Qmult_0_l.
    discriminate. }
  assert (Hmin : exists m, nmin (Fin a) (Fin b) = Fin m /\
                           (0 <= m)%Q /\ (m <= a)%Q).
  { unfold nmin, nle. destruct (Qle_bool a b) eqn:E.
    - exists a. split; [reflexivity|]. split; [exact Ha|apply Qle_refl].
    - exists b. split; [reflexivity|]. split; [exact Hb|].
      assert (E' : ~ (a <= b)%Q) by (rewrite <- Qle_bool_iff; congruence).
      apply Qnot_le_lt in E'. now apply Qlt_le_weak. }
  destruct Hmin as (m & -> & Hm0 & Hm).
  apply (round_scaled (img_width logoImg) 490 m Hw); [lia|exact Hm0|].
  now apply Qle_trans with a.
Qed.

(** The width of the scaled footer icon is a whole number of pixels. *)
Lemma wifiW_of_sized wifiImg :
  0 < img_height wifiImg -> exists ww, wifiW wifiImg = ofZ ww.
Proof.
  intros Hh. unfold wifiW, wifiScale, wifiTargetH.
  destruct (ndiv_ofZ_sized 56 (img_height wifiImg) ltac:(lia) Hh)
    as (q & -> & _). unfold nmul, ofZ, nround. eexists. reflexivity.
Qed.

(** What [paint] adds to the calls of the context at the initial sizes,
    with a logo of [k] pixels of height and the footer icon at 56. *)
Lemma paint_layout item logoImg wifiImg qrImg ctx k p s n :
  logoH logoImg = ofZ k -> wifiH wifiImg = ofZ 56 ->
  0 <= k <= 92 -> 42 <= p <= 88 -> 28 <= s <= 56 -> 34 <= n <= 74 ->
  (forall c, snd (fitTextSize measureText c (passTextOf item)
                    (inject_Z maxTextW) 900 88 42) = p) ->
  (forall c, snd (fitTextSize measureText c (field ssid item)
                    (inject_Z maxTextW) 800 56 28) = s) ->
  (forall c, snd (fitTextSize measureText c (field networkType item)
                    (inject_Z maxTextW) 900 74 34) = n) ->
  let cx := (ofZ labelW / ofZ 2)%num in
  calls (paint measureText item logoImg wifiImg qrImg ctx initPack) =
    calls ctx ++
    [DrawImage logoImg (nround (cx - logoW logoImg / ofZ 2))%num (ofZ 55)
       (logoW logoImg) (ofZ k) true (globalAlpha ctx);
     DrawImage qrImg (nround (cx - ofZ 440 / ofZ 2))%num (ofZ (77 + k))
       (ofZ 440) (ofZ 440) false (globalAlpha ctx);
     FillText (passTextOf item) {| weight := 900; sizePx := p |}
       "center" "top" cx (ofZ (875 - n - 4 - s - 6 - p));
     FillText (field ssid item) {| weight := 800; sizePx := s |}
       "center" "top" cx (ofZ (875 - n - 4 - s));
     FillText (field networkType item) {| weight := 900; sizePx := n |}
       "center" "top" cx (ofZ (875 - n));
     DrawImage wifiImg (nround (cx - wifiW wifiImg / ofZ 2))%num (ofZ 889)
       (wifiW wifiImg) (ofZ 56) true (3 # 4)%Q].
Proof.
  intros HlogoH HwifiH Bk Bp Bs Bn Hp Hs Hn. cbv zeta. unfold paint.
  cbv zeta.
  rewrite HlogoH, HwifiH.
  cbn [initPack qrSize gapQrText passStartPx ssidStartPx netStartPx].
  rewrite calls_withAlpha, calls_drawImage, calls_withSmoothing,
    calls_withAlpha.
  rewrite smoothing_withSmoothing, globalAlpha_withSmoothing,
    globalAlpha_withAlpha.
  rewrite !(proj2 (drawCenteredText_calls _ _ _ _ _ _ _ _ _)).
  rewrite !fitTextSize_calls.
  rewrite calls_drawImage, calls_withSmoothing, smoothing_withSmoothing.
  rewrite globalAlpha_withSmoothing, globalAlpha_drawImage,
    globalAlpha_withSmoothing.
  rewrite calls_drawImage, calls_withSmoothing, smoothing_withSmoothing.
  rewrite globalAlpha_withSmoothing.
  rewrite !Hp, !Hs, !Hn.
  unfold labelH, makeStickerCanvas, padTop, padBottom, gapNetFooter,
    gapSsidNet, gapPassSsid, gapLogoQr.
  cbn [ROTATE_CONTENT_FOR_HORIZONTAL_LABEL negb snd].
  unfold LABEL_OUT_PX_w.
  repeat ((rewrite nadd_ofZ by lia) || (rewrite nsub_ofZ by lia)).
  rewrite nmax_ofZ.
  repeat ((rewrite nadd_ofZ by lia) || (rewrite nsub_ofZ by lia)).
  repeat rewrite <- app_assoc. cbn [app].
  replace (55 + (k + 22)) with (77 + k) by lia.
  replace (Z.max 0 (77 + k + 440 + 38 - (1000 - 55 - 56 - 14 - n - 4 - s - 6 - p)))
    with 0 by lia.
  replace (1000 - 55 - 56 - 14 - n - 4 - s - 6 - p + 0)
    with (875 - n - 4 - s - 6 - p) by lia.
  replace (1000 - 55 - 56 - 14 - n - 4 - s + 0)
    with (875 - n - 4 - s) by lia.
  replace (1000 - 55 - 56 - 14 - n + 0) with (875 - n) by lia.
  reflexivity.
Qed.

End LayoutFacts.

Section LayoutTheorems.

Variable measureText : Font -> jsstring -> Q.

(** With a logo and a footer icon that report a size, the sticker is
    painted at the initial sizes, whatever the texts are, and nothing
    overlaps: from the top the white label, the logo at 55 with a width
    [lw] of at most 490 and a height [k] of at most 92, both whole
    numbers of pixels, the QR code 22 pixels below it at 440; from the
    bottom the footer icon at 889 with a height of 56, above it the
    three lines of text at the sizes fitted from 88, 56 and 74, stacked
    with their gaps of 14, 4 and 6; and the QR code with its gap of 38
    ends at or above the first line. Everything lies between the pads of
    55 pixels of the label of 600 by 1000. *)
Theorem sticker_is_stacked_without_overlap
    (env : Env) (item : option Item) (qrDataUrl : jsstring)
    (logoImg wifiImg qrImg : Image) :
  has2d env = true ->
  logoLoad env = Some logoImg ->
  wifiLoad env = Some wifiImg ->
  qrLoad env = Some qrImg ->
  0 < img_width logoImg -> 0 < img_height logoImg ->
  0 < img_height wifiImg ->
  let cx := (ofZ labelW / ofZ 2)%num in
  exists png lw k ww p s n,
    buildWifiStickerPng measureText env item qrDataUrl
    = Resolved (Some png) /\
    0 <= lw <= 490 /\ 0 <= k <= 92 /\
    42 <= p <= 88 /\ 28 <= s <= 56 /\ 34 <= n <= 74 /\
    png_calls png =
      [FillRect "#ffffff" (ofZ 0) (ofZ 0) (ofZ 600) (ofZ 1000);
       DrawImage logoImg (nround (cx - ofZ lw / ofZ 2))%num (ofZ 55)
         (ofZ lw) (ofZ k) true 1;
       DrawImage qrImg (nround (cx - ofZ 440 / ofZ 2))%num (ofZ (77 + k))
         (ofZ 440) (ofZ 440) false 1;
       FillText (passTextOf item) {| weight := 900; sizePx := p |}
         "center" "top" cx (ofZ (875 - n - 4 - s - 6 - p));
       FillText (field ssid item) {| weight := 800; sizePx := s |}
         "center" "top" cx (ofZ (875 - n - 4 - s));
       FillText (field networkType item) {| weight := 900; sizePx := n |}
         "center" "top" cx (ofZ (875 - n));
       DrawImage wifiImg (nround (cx - ofZ ww / ofZ 2))%num
         (ofZ 889) (ofZ ww) (ofZ 56) true (3 # 4)%Q] /\
    55 + k + 22 = 77 + k /\
    77 + k + 440 + 38 <= 875 - n - 4 - s - 6 - p /\
    889 + 56 = 1000 - 55.
Proof.
  intros H2d Hlogo Hwifi Hqr Hw Hh Hf. cbv zeta.
  destruct (logoH_of_sized logoImg Hw Hh) as [k [Hk Hk92]].
  change (Fin (inject_Z k)) with (ofZ k) in Hk.
  pose proof (wifiH_of_sized wifiImg Hf) as Hwf.
  change (Fin (inject_Z 56)) with (ofZ 56) in Hwf.
  set (maxW := inject_Z maxTextW).
  remember (snd (fitTextSize measureText freshCtx (passTextOf item) maxW
                   900 88 42)) as p eqn:Ep.
  remember (snd (fitTextSize measureText freshCtx (field ssid item) maxW
                   800 56 28)) as s eqn:Es.
  remember (snd (fitTextSize measureText freshCtx (field networkType item)
                   maxW 900 74 34)) as n eqn:En.
  assert (Hp : 42 <= p <= 88)
    by (subst p; split;
        [apply fitTextSize_ge_floor|apply fitTextSize_le_start; lia]).
  assert (Hs : 28 <= s <= 56)
    by (subst s; split;
        [apply fitTextSize_ge_floor|apply fitTextSize_le_start; lia]).
  assert (Hn : 34 <= n <= 74)
    by (subst n; split;
        [apply fitTextSize_ge_floor|apply fitTextSize_le_start; lia]).
  destruct (pack_fits_at_once measureText item logoImg wifiImg whiteLabel
              Hw Hh Hf) as (Hpack & _ & _).
  destruct (logoW_of_sized logoImg Hw Hh) as (lw & Elw & Hlw).
  destruct (wifiW_of_sized wifiImg Hf) as (ww & Eww).
  eexists. exists lw, k, ww, p, s, n.
  split.
  { unfold buildWifiStickerPng, loadAll.
    rewrite H2d, Hlogo, Hwifi, Hqr. cbn [negb]. reflexivity. }
  split; [exact Hlw|]. split; [lia|]. split; [exact Hp|].
  split; [exact Hs|]. split; [exact Hn|]. split; [|lia].
  rewrite <- Elw, <- Eww.
  rewrite png_calls_encode, Hpack.
  rewrite (paint_layout measureText item logoImg wifiImg qrImg _ k p s n
             Hk Hwf ltac:(lia) Hp Hs Hn).
  - destruct (packLoop_frame measureText (passTextOf item)
                (field ssid item) (field networkType item)
                (logoH logoImg) (wifiH wifiImg) 0 whiteLabel initPack)
      as (_ & _ & _ & _ & Ha & Hc).
    fold (pack measureText item logoImg wifiImg whiteLabel) in Ha, Hc.
    rewrite Ha, Hc. reflexivity.
  - intros c. subst p. apply fitTextSize_any_ctx.
  - intros c. subst s. apply fitTextSize_any_ctx.
  - intros c. subst n. apply fitTextSize_any_ctx.
Qed.

(** The sizes every sticker is painted with lie between fixed bounds,
    whatever the texts, the images and the text metrics are: the QR code
    between 356 and 440 on its steps of 12 from 440, the password line
    between 42 and 88, the SSID line between 28 and 56, the line of the
    type of network between 34 and 74. *)
Theorem resolvedSizes_within_bounds
    (item : option Item) (logoImg wifiImg : Image) :
  let r := resolvedSizes measureText item logoImg wifiImg in
  356 <= fst r <= 440 /\ (440 - fst r) mod 12 = 0 /\
  42 <= passPx (snd r) <= 88 /\
  28 <= ssidPx (snd r) <= 56 /\
  34 <= netPx (snd r) <= 74.
Proof.
  cbv zeta. rewrite resolvedSizes_fitted.
  cbn [fst snd passPx ssidPx netPx].
  pose proof (pack_priority_invariant measureText item logoImg wifiImg
                whiteLabel) as Hinv.
  destruct Hinv as (Hq & Hm & _ & _ & Hp & Hs & Hn & _).
  split; [exact Hq|]. split; [Z.div_mod_to_equations; lia|].
  repeat split; try apply fitTextSize_ge_floor;
    (eapply Z.le_trans; [apply fitTextSize_le_start|]); lia.
Qed.

End LayoutTheorems.

(** The sticker of the sample network in a browser that decodes the
    three images. *)
Lemma sticker_is_stacked_without_overlap_witness :
  exists png lw k p s n,
    buildWifiStickerPng Samples.proportional
      (Samples.browser Samples.footerIcon) (Some Samples.clientNetwork) []
    = Resolved (Some png) /\
    0 <= lw <= 490 /\ 0 <= k <= 92 /\
    In (DrawImage Samples.qrCode
          (nround (ofZ labelW / ofZ 2 - ofZ 440 / ofZ 2))%num
          (ofZ (77 + k)) (ofZ 440) (ofZ 440) false 1) (png_calls png) /\
    77 + k + 440 + 38 <= 875 - n - 4 - s - 6 - p.
Proof.
  destruct (sticker_is_stacked_without_overlap Samples.proportional
              (Samples.browser Samples.footerIcon)
              (Some Samples.clientNetwork) []
              Samples.logo Samples.footerIcon Samples.qrCode
              eq_refl eq_refl eq_refl eq_refl eq_refl eq_refl eq_refl)
    as (png & lw & k & ww & p & s & n & Hb & Hlw & Hk & _ & _ & _ & Hc & _
        & Hfit & _).
  exists png, lw, k, p, s, n. split; [exact Hb|]. split; [exact Hlw|].
  split; [exact Hk|].
  split; [|exact Hfit]. rewrite Hc. right. right. left. reflexivity.
Defined.

Section BestFit.

Variable measureText : Font -> jsstring -> Q.

(** With text metrics that grow with the font size, [fitTextSize] is at
    most one pixel below the best size: every size between the floor
    and the starting size at which the text fits is at most the returned
    size plus one. *)
Theorem fitTextSize_within_one_pixel_of_best
    (ctx : Ctx) (text : jsstring) (maxWidth : Q)
    (weight startPx minPx t : Z) :
  (forall s1 s2, s1 <= s2 ->
     (measureText {| weight := weight; sizePx := s1 |} text
      <= measureText {| weight := weight; sizePx := s2 |} text)%Q) ->
  minPx <= t <= startPx ->
  fitsAt measureText text maxWidth weight t = true ->
  t <= snd (fitTextSize measureText ctx text maxWidth weight startPx minPx)
       + 1.
Proof.
  intros Hmono Ht Hfit.
  assert (Hdown : forall s, s <= t ->
            fitsAt measureText text maxWidth weight s = true).
  { intros s Hs. unfold fitsAt in *. apply Qle_bool_iff.
    apply Qle_bool_iff in Hfit.
    eapply Qle_trans; [apply Hmono; exact Hs|exact Hfit]. }
  set (kk := (startPx - t + 1) / 2).
  assert (Hkk : 2 * kk <= startPx - t + 1 < 2 * kk + 2)
    by (unfold kk; Z.div_mod_to_equations; lia).
  unfold fitTextSize.
  destruct (fitLoop_first_fit measureText text weight minPx maxWidth
              startPx ctx)
    as [[Hr Hno]|[k [Hk [Hr [Hgt [_ Hno]]]]]]; cbv zeta in *.
  - destruct (Z_le_gt_dec t (minPx + 1)) as [Hle|Hgt]; [lia|].
    specialize (Hno kk ltac:(lia) ltac:(lia)).
    rewrite Hdown in Hno by lia. discriminate.
  - destruct (Z_le_gt_dec t (startPx - 2 * k + 1)) as [Hle|Hgt']; [lia|].
    specialize (Hno kk ltac:(lia)).
    rewrite Hdown in Hno by lia. discriminate.
Qed.

End BestFit.

(** The password line of eight code units within 490 pixels: 87 fits,
    and 86 is returned. *)
Lemma fitTextSize_within_one_pixel_of_best_witness :
  42 <= 87 <= 88 /\
  fitsAt Samples.proportional (lit "password") 490 900 87 = true /\
  87 <= snd (fitTextSize Samples.proportional freshCtx (lit "password")
               490 900 88 42) + 1.
Proof.
  split; [lia|]. split; [reflexivity|].
  apply (fitTextSize_within_one_pixel_of_best Samples.proportional freshCtx
           (lit "password") 490 900 88 42 87).
  - intros s1 s2 H. now apply proportional_monotone.
  - lia.
  - reflexivity.
Defined.

Section SequenceFacts.

Variable measureText : Font -> jsstring -> Q.

(** What [paint] adds to the calls of the context, in their order. *)
Lemma paint_sequence item logoImg wifiImg qrImg ctx st p s n :
  (forall c, snd (fitTextSize measureText c (passTextOf item)
                    (inject_Z maxTextW) 900 (passStartPx st) 42) = p) ->
  (forall c, snd (fitTextSize measureText c (field ssid item)
                    (inject_Z maxTextW) 800 (ssidStartPx st) 28) = s) ->
  (forall c, snd (fitTextSize measureText c (field networkType item)
                    (inject_Z maxTextW) 900 (netStartPx st) 34) = n) ->
  let cx := (ofZ labelW / ofZ 2)%num in
  exists lx qx qy pY sY nY wx wy,
    calls (paint measureText item logoImg wifiImg qrImg ctx st) =
      calls ctx ++
      [DrawImage logoImg lx (ofZ 55) (logoW logoImg) (logoH logoImg) true
         (globalAlpha ctx);
       DrawImage qrImg qx qy (ofZ (qrSize st)) (ofZ (qrSize st)) false
         (globalAlpha ctx);
       FillText (passTextOf item) {| weight := 900; sizePx := p |}
         "center" "top" cx pY;
       FillText (field ssid item) {| weight := 800; sizePx := s |}
         "center" "top" cx sY;
       FillText (field networkType item) {| weight := 900; sizePx := n |}
         "center" "top" cx nY;
       DrawImage wifiImg wx wy (wifiW wifiImg) (wifiH wifiImg) true
         (3 # 4)%Q].
Proof.
  intros Hp Hs Hn. cbv zeta. unfold paint. cbv zeta.
  do 8 eexists.
  rewrite calls_withAlpha, calls_drawImage, calls_withSmoothing,
    calls_withAlpha.
  rewrite smoothing_withSmoothing, globalAlpha_withSmoothing,
    globalAlpha_withAlpha.
  rewrite !(proj2 (drawCenteredText_calls _ _ _ _ _ _ _ _ _)).
  rewrite !fitTextSize_calls.
  rewrite calls_drawImage, calls_withSmoothing, smoothing_withSmoothing.
  rewrite globalAlpha_withSmoothing, globalAlpha_drawImage,
    globalAlpha_withSmoothing.
  rewrite calls_drawImage, calls_withSmoothing, smoothing_withSmoothing.
  rewrite globalAlpha_withSmoothing.
  rewrite !Hp, !Hs, !Hn.
  repeat rewrite <- app_assoc. cbn [app].
  reflexivity.
Qed.

End SequenceFacts.

(** Every sticker that is built consists of the same seven calls in the
    same order, whatever the entry, the images and the text metrics are:
    the white label, the logo with smoothing at the row 55, the QR code
    as a square of the resolved size without smoothing, the three lines
    of text centred from their top at the resolved sizes, and the footer
    icon with smoothing at an opacity of three quarters. Nothing else is
    painted. The PNG is taken from
    the rotated canvas of 1000 by 600 when the rotation gets a context,
    and from the base canvas of 600 by 1000 otherwise. *)
Theorem sticker_is_painted_by_seven_calls
    (measureText : Font -> jsstring -> Q) (env : Env)
    (item : option Item) (qrDataUrl : jsstring) (png : Png) :
  buildWifiStickerPng measureText env item qrDataUrl = Resolved (Some png) ->
  let cx := (ofZ labelW / ofZ 2)%num in
  exists logoImg wifiImg qrImg lx lw lh qx qy pY sY nY wx wy ww wh,
    logoLoad env = Some logoImg /\ wifiLoad env = Some wifiImg /\
    qrLoad env = Some qrImg /\
    let sizes := resolvedSizes measureText item logoImg wifiImg in
    png_calls png =
      [FillRect "#ffffff" (ofZ 0) (ofZ 0) (ofZ 600) (ofZ 1000);
       DrawImage logoImg lx (ofZ 55) lw lh true 1;
       DrawImage qrImg qx qy (ofZ (fst sizes)) (ofZ (fst sizes)) false 1;
       FillText (passTextOf item)
         {| weight := 900; sizePx := passPx (snd sizes) |}
         "center" "top" cx pY;
       FillText (field ssid item)
         {| weight := 800; sizePx := ssidPx (snd sizes) |}
         "center" "top" cx sY;
       FillText (field networkType item)
         {| weight := 900; sizePx := netPx (snd sizes) |}
         "center" "top" cx nY;
       DrawImage wifiImg wx wy ww wh true (3 # 4)%Q] /\
    (png_width png, png_height png, png_rotated png)
    = if rotate2d env then (1000, 600, true) else (600, 1000, false).
Proof.
  intros Hb. cbv zeta.
  destruct (buildWifiStickerPng_cases measureText env item qrDataUrl)
    as [[_ Hp]|[(_ & _ & src & Hp)
               |(H2d & logoImg & wifiImg & qrImg & Hl & Hw & Hq & Hp)]];
    cbv zeta in Hp; rewrite Hp in Hb; try discriminate.
  injection Hb as <-.
  set (e := pack measureText item logoImg wifiImg whiteLabel).
  destruct (paint_sequence measureText item logoImg wifiImg qrImg
              (end_ctx e) (end_pack e) _ _ _
              (fun c => fitTextSize_any_ctx measureText c freshCtx _ _ _ _ _)
              (fun c => fitTextSize_any_ctx measureText c freshCtx _ _ _ _ _)
              (fun c => fitTextSize_any_ctx measureText c freshCtx _ _ _ _ _))
    as (lx & qx & qy & pY & sY & nY & wx & wy & Hc).
  exists logoImg, wifiImg, qrImg, lx, (logoW logoImg), (logoH logoImg),
    qx, qy, pY, sY, nY, wx, wy, (wifiW wifiImg), (wifiH wifiImg).
  split; [exact Hl|]. split; [exact Hw|]. split; [exact Hq|]. split.
  - rewrite png_calls_encode, Hc, resolvedSizes_fitted.
    cbn [fst snd passPx ssidPx netPx]. fold e.
    destruct (packLoop_frame measureText (passTextOf item)
                (field ssid item) (field networkType item)
                (logoH logoImg) (wifiH wifiImg) 0 whiteLabel initPack)
      as (_ & _ & _ & _ & Ha & Hcalls).
    fold (pack measureText item logoImg wifiImg whiteLabel) in Ha, Hcalls.
    fold e in Ha, Hcalls. rewrite Ha, Hcalls. reflexivity.
  - unfold encode. cbn [ROTATE_CONTENT_FOR_HORIZONTAL_LABEL negb].
    destruct (rotate2d env); reflexivity.
Qed.

(** The sticker of the sample network. *)
Lemma sticker_is_painted_by_seven_calls_witness :
  exists png,
    buildWifiStickerPng Samples.proportional
      (Samples.browser Samples.footerIcon) (Some Samples.clientNetwork) []
    = Resolved (Some png) /\
    length (png_calls png) = 7%nat /\
    (png_width png, png_height png, png_rotated png) = (1000, 600, true).
Proof.
  assert (Hp : buildWifiStickerPng Samples.proportional
                 (Samples.browser Samples.footerIcon)
                 (Some Samples.clientNetwork) []
               = Resolved
                   (Some (encode (Samples.browser Samples.footerIcon)
                            (paint Samples.proportional
                               (Some Samples.clientNetwork) Samples.logo
                               Samples.footerIcon Samples.qrCode
                               (end_ctx
                                  (pack Samples.proportional
                                     (Some Samples.clientNetwork)
                                     Samples.logo Samples.footerIcon
                                     whiteLabel))
                               (end_pack
                                  (pack Samples.proportional
                                     (Some Samples.clientNetwork)
                                     Samples.logo Samples.footerIcon
                                     whiteLabel))))))
    by reflexivity.
  eexists. split; [exact Hp|].
  destruct (sticker_is_painted_by_seven_calls Samples.proportional
              (Samples.browser Samples.footerIcon)
              (Some Samples.clientNetwork) [] _ Hp)
    as (l' & w' & q' & lx & lw & lh & qx & qy & pY & sY & nY & wx & wy
        & ww & wh & _ & _ & _ & Hc & Hsz).
  cbv zeta in Hc. rewrite Hc. split; [reflexivity|exact Hsz].
Defined.

Section NeverFits.

Variable measureText : Font -> jsstring -> Q.

Lemma nadd_NaN_r a : (a + NaN)%num = NaN.
Proof. destruct a; reflexivity. Qed.

Lemma nadd_NaN_l a : (NaN + a)%num = NaN.
Proof. destruct a; reflexivity. Qed.

Lemma nle_NaN_r a : (a <=? NaN)%num = false.
Proof. destruct a; reflexivity. Qed.

(** The footer icon of an image that reports no height has no height
    that is a number. *)
Lemma wifiH_of_unsized wifiImg :
  img_height wifiImg = 0 -> wifiH wifiImg = NaN.
Proof. intros H. unfold wifiH, wifiScale. rewrite H. reflexivity. Qed.

(** With such a footer icon no layout fits. *)
Lemma layoutFits_NaN logoH st f : layoutFits logoH NaN st f = false.
Proof.
  unfold layoutFits. cbv zeta. unfold nsub, nge. cbn [nopp].
  rewrite !nadd_NaN_r. rewrite !nadd_NaN_l. rewrite nle_NaN_r.
  reflexivity.
Qed.

(** A loop in which no layout fits runs all the iterations that are
    left, shrinking at each of them. *)
Lemma packLoop_never_fits passText ssidText netText logoH wifiH i :
  (forall st f, layoutFits logoH wifiH st f = false) ->
  forall ctx st, 0 <= i <= 18 ->
    let e := packLoop measureText passText ssidText netText logoH wifiH
               i ctx st in
    end_pack e = Nat.iter (Z.to_nat (18 - i)) shrink st /\
    end_i e = 18 /\ end_break e = false.
Proof.
  intros Hno. pattern i. apply iter_ind. clear i.
  intros i IH ctx st Hi. cbv zeta. rewrite packLoop_unfold.
  destruct (i <? 18) eqn:E.
  - rewrite Hno.
    specialize (IH ltac:(lia) (fst (fitAll measureText passText ssidText
                                      netText ctx st))
                  (shrink st) ltac:(lia)).
    cbv zeta in IH. destruct IH as (Hp & Hi' & Hb).
    split; [|now split]. rewrite Hp.
    replace (Z.to_nat (18 - i)) with (S (Z.to_nat (18 - (i + 1)))) by lia.
    rewrite Nat.iter_succ_r. reflexivity.
  - cbn [end_pack end_i end_break].
    replace (Z.to_nat (18 - i)) with 0%nat by lia.
    cbn [Nat.iter nat_rect]. repeat split. lia.
Qed.

End NeverFits.

(** With a footer icon that reports no height, whatever the entry, the
    logo and the text metrics are: no iteration of the packing loop
    fits, the loop runs its 18 iterations without a break, and it ends
    on the QR code at 356, the gap at 26 and the starting font sizes at
    their clamps of 60, 40 and 52. The QR code has then taken 7 steps of
    12 from 440, the last of them from 368, above the guard of 360, to
    356. *)
Theorem footer_icon_without_height_shrinks_everything
    (measureText : Font -> jsstring -> Q) (item : option Item)
    (logoImg wifiImg : Image) (ctx : Ctx) :
  img_height wifiImg = 0 ->
  let e := pack measureText item logoImg wifiImg ctx in
  end_pack e = {| qrSize := 356; gapQrText := 26; passStartPx := 60;
                  ssidStartPx := 40; netStartPx := 52 |} /\
  iterations e = 18 /\ end_break e = false /\
  Nat.iter 6 shrink initPack
  = {| qrSize := 368; gapQrText := 38; passStartPx := 88;
       ssidStartPx := 56; netStartPx := 74 |}.
Proof.
  intros Hh. cbv zeta. unfold pack.
  rewrite (wifiH_of_unsized wifiImg Hh).
  destruct (packLoop_never_fits measureText (passTextOf item)
              (field ssid item) (field networkType item)
              (logoH logoImg) NaN 0 (layoutFits_NaN (logoH logoImg))
              ctx initPack ltac:(lia)) as (Hp & Hi & Hb).
  split; [rewrite Hp; reflexivity|].
  split; [unfold iterations; rewrite Hb; exact Hi|].
  split; [exact Hb|reflexivity].
Qed.

(** The sticker of the sample network with a footer icon without
    natural size. *)
Lemma footer_icon_without_height_shrinks_everything_witness :
  img_height Samples.footerIconNoSize = 0 /\
  qrSize (end_pack (pack Samples.proportional (Some Samples.clientNetwork)
                      Samples.logo Samples.footerIconNoSize whiteLabel))
  = 356.
Proof.
  split; [reflexivity|].
  destruct (footer_icon_without_height_shrinks_everything
              Samples.proportional (Some Samples.clientNetwork)
              Samples.logo Samples.footerIconNoSize whiteLabel eq_refl)
    as (Hp & _).
  rewrite Hp. reflexivity.
Defined.

(* ===================================================================== *)
(** * Properties of the sticker of the customer service *)
(* ===================================================================== *)

Section AttentionFacts.

Variable measureText : Font -> jsstring -> Q.

Lemma drawCenteredText_alpha ctx text centerX y maxWidth weight startPx
    minPx :
  globalAlpha (fst (drawCenteredText measureText ctx text centerX y maxWidth
                      weight startPx minPx)) = globalAlpha ctx.
Proof.
  unfold drawCenteredText.
  pose proof (fitTextSize_frame measureText ctx text maxWidth weight startPx
                minPx) as (_ & _ & _ & _ & Ha & _).
  destruct (fitTextSize measureText ctx text maxWidth weight startPx minPx)
    as [ctx' r].
  cbn [fst] in *. exact Ha.
Qed.

(** Below a header that ends at or above the row 455, the side of the QR
    code is the width between the pads. *)
Lemma target_below_header y : y <= 455 -> Attention.target y = 490.
Proof.
  intros H. unfold Attention.target, Attention.qrMaxSize, Attention.padX,
    labelH, labelW, makeStickerCanvas.
  cbn [ROTATE_CONTENT_FOR_HORIZONTAL_LABEL negb fst snd].
  unfold LABEL_OUT_PX_w, LABEL_OUT_PX_h. lia.
Qed.

End AttentionFacts.

(** The sticker of the customer service: the two lines of the header
    are drawn at 65 and below, at sizes between 34 and 54, and whatever
    these sizes are the QR code is scaled to the 490 pixels between the
    pads, never to the 520 or the 260 of its clamp: it is drawn 26
    pixels below the header, its sides are at most 490 (and exactly 490
    when the image is square), and it ends above the pad of 55 pixels at
    the bottom of the label. *)
Theorem attention_qr_code_is_scaled_to_490
    (measureText : Font -> jsstring -> Q) (env : Env) (qrImg : Image) :
  has2d env = true ->
  0 < img_width qrImg -> 0 < img_height qrImg ->
  let cx := (ofZ labelW / ofZ 2)%num in
  exists png l1 l2 qw qh,
    Attention.buildAttentionStickerPng measureText env (Some qrImg)
    = Resolved (Some png) /\
    34 <= l1 <= 54 /\ 34 <= l2 <= 54 /\
    0 <= qw <= 490 /\ 0 <= qh <= 490 /\
    (img_width qrImg = img_height qrImg -> qw = 490 /\ qh = 490) /\
    png_calls png =
      [FillRect "#ffffff" (ofZ 0) (ofZ 0) (ofZ 600) (ofZ 1000);
       FillText Attention.line1 {| weight := 900; sizePx := l1 |}
         "center" "top" cx (ofZ 65);
       FillText Attention.line2 {| weight := 900; sizePx := l2 |}
         "center" "top" cx (ofZ (75 + l1));
       DrawImage qrImg (nround (cx - ofZ qw / ofZ 2))%num
         (ofZ (101 + l1 + l2)) (ofZ qw) (ofZ qh) false 1] /\
    101 + l1 + l2 + qh <= 1000 - 55.
Proof.
  intros H2d Hw Hh. cbv zeta.
  unfold Attention.buildAttentionStickerPng. rewrite H2d. cbn [negb].
  cbv zeta.
  set (maxW := inject_Z (labelW - Attention.padX * 2)).
  set (cx := (ofZ labelW / ofZ 2)%num).
  destruct (drawCenteredText_calls measureText whiteLabel Attention.line1
              cx (ofZ Attention.padTop) maxW 900 54 34) as [Hs1 Hc1].
  cbv zeta in Hs1, Hc1.
  pose proof (drawCenteredText_alpha measureText whiteLabel Attention.line1
                cx (ofZ Attention.padTop) maxW 900 54 34) as Ha1.
  set (d1 := drawCenteredText measureText whiteLabel Attention.line1 cx
               (ofZ Attention.padTop) maxW 900 54 34) in *.
  remember (snd (fitTextSize measureText whiteLabel Attention.line1 maxW
                   900 54 34)) as l1 eqn:El1.
  assert (Hl1 : 34 <= l1 <= 54)
    by (subst l1; split;
        [apply fitTextSize_ge_floor|apply fitTextSize_le_start; lia]).
  rewrite Hs1.
  destruct (drawCenteredText_calls measureText (fst d1) Attention.line2
              cx (ofZ (Attention.padTop + l1 + 10)) maxW 900 54 34)
    as [Hs2 Hc2].
  cbv zeta in Hs2, Hc2.
  pose proof (drawCenteredText_alpha measureText (fst d1) Attention.line2
                cx (ofZ (Attention.padTop + l1 + 10)) maxW 900 54 34)
    as Ha2.
  set (d2 := drawCenteredText measureText (fst d1) Attention.line2 cx
               (ofZ (Attention.padTop + l1 + 10)) maxW 900 54 34) in *.
  remember (snd (fitTextSize measureText (fst d1) Attention.line2 maxW
                   900 54 34)) as l2 eqn:El2.
  assert (Hl2 : 34 <= l2 <= 54)
    by (subst l2; split;
        [apply fitTextSize_ge_floor|apply fitTextSize_le_start; lia]).
  rewrite Hs2.
  rewrite (target_below_header (Attention.padTop + l1 + 10 + l2 + 26))
    by (unfold Attention.padTop; lia).
  destruct (scale_towards 490 (img_width qrImg) (img_height qrImg)
              ltac:(lia) Hw Hh) as (m & -> & Hm0 & Hmw & Hmh & Hsq).
  destruct (round_scaled (img_width qrImg) 490 m Hw ltac:(lia) Hm0 Hmw)
    as (qw & Eqw & Hqw).
  destruct (round_scaled (img_height qrImg) 490 m Hh ltac:(lia) Hm0 Hmh)
    as (qh & Eqh & Hqh).
  exists (encode env
            (drawImage (withSmoothing (fst d2) false) qrImg
               (nround (cx - ofZ qw / ofZ 2))%num
               (ofZ (101 + l1 + l2)) (ofZ qw) (ofZ qh))),
    l1, l2, qw, qh.
  split.
  { rewrite Eqw, Eqh, nround_ofZ. do 5 f_equal.
    unfold Attention.padTop. lia. }
  split; [exact Hl1|]. split; [exact Hl2|]. split; [exact Hqw|].
  split; [exact Hqh|]. split; [|split; [|lia]].
  - intros Hsquare. specialize (Hsq Hsquare).
    rewrite (round_scaled_exact (img_width qrImg) 490 m Hw ltac:(lia)
               Hsq Hmw) in Eqw.
    rewrite Hsquare in Hsq.
    rewrite (round_scaled_exact (img_height qrImg) 490 m Hh ltac:(lia)
               Hsq Hmh) in Eqh.
    apply ofZ_inj in Eqw, Eqh. split; congruence.
  - rewrite png_calls_encode, calls_drawImage, calls_withSmoothing,
      smoothing_withSmoothing, globalAlpha_withSmoothing, Ha2.
    rewrite Ha1, Hc2, Hc1. cbn [whiteLabel app].
    unfold Attention.padTop.
    replace (65 + l1 + 10) with (75 + l1) by lia.
    reflexivity.
Qed.

(** The QR code of the customer service as a square image of 800
    pixels. *)
Lemma attention_qr_code_is_scaled_to_490_witness :
  exists png l1 l2,
    Attention.buildAttentionStickerPng Samples.proportional
      (Samples.browser Samples.footerIcon)
      (Some {| img_width := 800; img_height := 800 |})
    = Resolved (Some png) /\
    In (DrawImage {| img_width := 800; img_height := 800 |}
          (nround (ofZ labelW / ofZ 2 - ofZ 490 / ofZ 2))%num
          (ofZ (101 + l1 + l2)) (ofZ 490) (ofZ 490) false 1)
       (png_calls png) /\
    101 + l1 + l2 + 490 <= 1000 - 55.
Proof.
  destruct (attention_qr_code_is_scaled_to_490 Samples.proportional
              (Samples.browser Samples.footerIcon)
              {| img_width := 800; img_height := 800 |}
              eq_refl eq_refl eq_refl)
    as (png & l1 & l2 & qw & qh & Hb & _ & _ & _ & _ & Hsq & Hc & Hend).
  destruct (Hsq eq_refl) as [Eqw Eqh].
  exists png, l1, l2. split; [exact Hb|].
  rewrite Eqh in Hend. split; [|exact Hend].
  rewrite Hc, Eqw, Eqh. right. right. right. left. reflexivity.
Defined.

(** The three ways the promise of [buildAttentionStickerPng]
    settles. *)
Lemma buildAttentionStickerPng_cases
    (measureText : Font -> jsstring -> Q) (env : Env)
    (red7Load : option Image) :
  let p := Attention.buildAttentionStickerPng measureText env red7Load in
  (has2d env = false /\ p = Resolved None)
  \/
  (has2d env = true /\ red7Load = None /\ exists message, p = Rejected message)
  \/
  (has2d env = true /\ red7Load <> None /\
   exists png, p = Resolved (Some png)).
Proof.
  cbv zeta. unfold Attention.buildAttentionStickerPng.
  destruct (has2d env); cbn [negb]; [right|left; now split].
  destruct red7Load as [qrImg|].
  - right. split; [reflexivity|]. split; [discriminate|].
    eexists. reflexivity.
  - left. split; [reflexivity|]. split; [reflexivity|].
    eexists. reflexivity.
Qed.

(** The button of the customer service always downloads one file, with
    a fixed name: the sticker when it could be built, and the image of
    the QR code as the site serves it when the canvas gives no 2D
    context or the image fails to load. *)
Theorem handlePrintRedQr_falls_back_to_the_image
    (measureText : Font -> jsstring -> Q) (env : Env)
    (red7Load : option Image) :
  let d := Attention.handlePrintRedQr measureText env red7Load in
  Page.download d = lit "atencion-whatsapp.png" /\
  (Page.href d = Page.Url (lit "/Red7QR.png") <->
   has2d env = false \/ red7Load = None) /\
  (forall png,
     Page.href d = Page.StickerPng png <->
     Attention.buildAttentionStickerPng measureText env red7Load
     = Resolved (Some png)).
Proof.
  cbv zeta. unfold Attention.handlePrintRedQr.
  cbn [Page.href Page.download]. split; [reflexivity|].
  destruct (buildAttentionStickerPng_cases measureText env red7Load)
    as [[H2d Hp]|[(H2d & Hl & m & Hp)|(H2d & Hl & png' & Hp)]];
    cbv zeta in Hp; rewrite Hp; split.
  - split; [intros _; now left|reflexivity].
  - intros png. split; discriminate.
  - split; [intros _; now right|reflexivity].
  - intros png. split; discriminate.
  - split; [discriminate|]. intros [H|H]; congruence.
  - intros png. split; intros H; injection H as <-; reflexivity.
Qed.

(* ===================================================================== *)
(** * Properties of the vertical lines of the landscape variant *)
(* ===================================================================== *)

Section StackFacts.

Import Landscape.

Lemma stackLoop_S fuel lineGap maxStackPx floor t1Px t2Px :
  stackLoop (S fuel) lineGap maxStackPx floor t1Px t2Px =
    if t1Px + lineGap + t2Px <=? maxStackPx then (t1Px, t2Px)
    else if (if t1Px >? floor then t1Px - 2 else t1Px) + lineGap + t2Px
            <=? maxStackPx
    then (if t1Px >? floor then t1Px - 2 else t1Px, t2Px)
    else if ((if t1Px >? floor then t1Px - 2 else t1Px) <=? floor)
            && ((if t2Px >? floor then t2Px - 2 else t2Px) <=? floor)
    then (if t1Px >? floor then t1Px - 2 else t1Px,
          if t2Px >? floor then t2Px - 2 else t2Px)
    else stackLoop fuel lineGap maxStackPx floor
           (if t1Px >? floor then t1Px - 2 else t1Px)
           (if t2Px >? floor then t2Px - 2 else t2Px).
Proof. reflexivity. Qed.

(** The loop on the sizes of the last band: between 30 and 62 each. *)
Lemma stackLoop_contact t1Px t2Px :
  30 <= t1Px <= 62 -> 30 <= t2Px <= 62 ->
  let r := stackLoop 60 12 128 30 t1Px t2Px in
  fst r + 12 + snd r <= 128 /\
  t1Px - 4 <= fst r <= t1Px /\ t2Px - 4 <= snd r <= t2Px /\
  30 <= fst r /\ 30 <= snd r /\
  (t1Px + 12 + t2Px <= 128 -> r = (t1Px, t2Px)).
Proof.
  intros H1 H2. cbv zeta.
  change 60%nat with (S (S (S 57))).
  do 3 (rewrite stackLoop_S;
        repeat match goal with
               | |- context [if ?c then _ else _] =>
                   lazymatch c with
                   | context [stackLoop] => fail
                   | _ => destruct c eqn:?
                   end
               end;
        cbn [fst snd andb];
        try (repeat split; intros; try reflexivity; lia)).
Qed.

End StackFacts.

(** The loop that brings the stack of two vertical lines within the
    thickness of its band: when its iterations are enough for the larger
    of the two sizes, it is left by one of its breaks, with the stack
    within [maxStackPx] or both lines at the floor; no line grows, and a
    line above the floor loses a multiple of two pixels and ends at most
    one pixel below the floor. *)
Theorem stackLoop_is_left_by_a_break
    (fuel : nat) (lineGap maxStackPx floor t1Px t2Px : Z) :
  t1Px - floor < Z.of_nat fuel -> t2Px - floor < Z.of_nat fuel ->
  let r := Landscape.stackLoop fuel lineGap maxStackPx floor t1Px t2Px in
  (fst r + lineGap + snd r <= maxStackPx
   \/ (fst r <= floor /\ snd r <= floor)) /\
  Z.min t1Px (floor - 1) <= fst r <= t1Px /\
  Z.min t2Px (floor - 1) <= snd r <= t2Px.
Proof.
  revert t1Px t2Px.
  induction fuel as [|fuel IH]; intros t1Px t2Px H1 H2; cbv zeta.
  - cbn [Landscape.stackLoop fst snd]. lia.
  - rewrite stackLoop_S.
    destruct (t1Px + lineGap + t2Px <=? maxStackPx) eqn:E1;
      [cbn [fst snd]; lia|].
    destruct (t1Px >? floor) eqn:E2;
      (match goal with
       | |- context [if ?c then _ else _] => destruct c eqn:E3
       end; [cbn [fst snd]; lia|]);
      destruct (t2Px >? floor) eqn:E4;
      (match goal with
       | |- context [if ?c then _ else _] => destruct c eqn:E5
       end; [cbn [fst snd]; lia|]);
      match goal with
      | |- context [Landscape.stackLoop fuel _ _ _ ?a ?b] =>
          specialize (IH a b ltac:(lia) ltac:(lia)); cbv zeta in IH; lia
      end.
Qed.

(** Two lines of 62 pixels with a gap of 12 in a band of 128. *)
Lemma stackLoop_is_left_by_a_break_witness :
  62 - 30 < Z.of_nat 60 /\
  Landscape.stackLoop 60 12 128 30 62 62 = (58, 58) /\
  fst (Landscape.stackLoop 60 12 128 30 62 62) + 12
  + snd (Landscape.stackLoop 60 12 128 30 62 62) <= 128.
Proof.
  split; [reflexivity|]. split; [reflexivity|].
  destruct (stackLoop_is_left_by_a_break 60 12 128 30 62 62
              eq_refl eq_refl) as [[H|[H _]] _]; [exact H|].
  vm_compute in H. contradiction H. reflexivity.
Defined.

(** The two bands of text of the landscape sticker, whatever the text
    metrics are. The lines of the first band are drawn at their fitted
    sizes, between 42 and 72: their stack is within the 244 pixels of
    the band and is never shrunk. The lines of the last band, fitted
    between 30 and 62, are shrunk until their stack is within the 128
    pixels of the band: each loses at most 4 pixels and stays at or
    above 30, and nothing is shrunk when the fitted stack is within the
    band already. *)
Theorem landscape_bands_hold_their_lines
    (measureText : Font -> jsstring -> Q) (ctx : Ctx) :
  let fit := fun c text startPx minPx =>
    fitTextSize measureText c text (inject_Z Landscape.innerH) 900
      startPx minPx in
  let a1 := fit ctx Attention.line1 72 42 in
  let a2 := fit (fst a1) Attention.line2 72 42 in
  let c1 := fit ctx Landscape.contactLine1 62 30 in
  let c2 := fit (fst c1) Landscape.contactLine2 62 30 in
  let attention := Landscape.attentionSizes measureText ctx in
  let contact := Landscape.contactSizes measureText ctx in
  attention = (snd a1, snd a2) /\
  fst attention + 18 + snd attention <= Landscape.attentionBandW - 16 /\
  fst contact + 12 + snd contact <= Landscape.contactBandW - 10 /\
  snd c1 - 4 <= fst contact <= snd c1 /\
  snd c2 - 4 <= snd contact <= snd c2 /\
  30 <= fst contact /\ 30 <= snd contact /\
  (snd c1 + 12 + snd c2 <= Landscape.contactBandW - 10 ->
   contact = (snd c1, snd c2)).
Proof.
  cbv zeta.
  unfold Landscape.attentionSizes, Landscape.contactSizes,
    Landscape.twoLineSizes. cbv zeta.
  change (Landscape.attentionBandW - 16) with 244.
  change (Landscape.contactBandW - 10) with 128.
  change (Z.max 18 42) with 42. change (Z.max 18 30) with 30.
  set (a1 := fitTextSize measureText ctx Attention.line1 _ 900 72 42).
  set (a2 := fitTextSize measureText (fst a1) Attention.line2 _ 900 72 42).
  set (c1 := fitTextSize measureText ctx Landscape.contactLine1 _ 900 62
               30).
  set (c2 := fitTextSize measureText (fst c1) Landscape.contactLine2 _ 900
               62 30).
  assert (Ha1 : 42 <= snd a1 <= 72)
    by (split; [apply fitTextSize_ge_floor
               |apply fitTextSize_le_start; lia]).
  assert (Ha2 : 42 <= snd a2 <= 72)
    by (split; [apply fitTextSize_ge_floor
               |apply fitTextSize_le_start; lia]).
  assert (Hc1 : 30 <= snd c1 <= 62)
    by (split; [apply fitTextSize_ge_floor
               |apply fitTextSize_le_start; lia]).
  assert (Hc2 : 30 <= snd c2 <= 62)
    by (split; [apply fitTextSize_ge_floor
               |apply fitTextSize_le_start; lia]).
  assert (Ea : Landscape.stackLoop 60 18 244 42 (snd a1) (snd a2)
               = (snd a1, snd a2)).
  { change 60%nat with (S 59). rewrite stackLoop_S.
    destruct (snd a1 + 18 + snd a2 <=? 244) eqn:E; [reflexivity|lia]. }
  rewrite Ea. cbn [fst snd].
  split; [reflexivity|]. split; [lia|].
  exact (stackLoop_contact (snd c1) (snd c2) Hc1 Hc2).
Qed.

(* ===================================================================== *)
(** * Further properties of the rotation *)
(* ===================================================================== *)

Section TurnFacts.

Import Rotation.

Lemma drawable_sized c :
  0 < bmp_width c -> 0 < bmp_height c -> drawable c = true.
Proof.
  intros Hw Hh. unfold drawable.
  destruct (bmp_width c =? 0) eqn:E1; [lia|].
  destruct (bmp_height c =? 0) eqn:E2; [lia|]. reflexivity.
Qed.

(** A quarter turn clockwise, pixel by pixel. *)
Lemma quarter_turn c outW outH :
  0 < bmp_width c -> 0 < bmp_height c ->
  exists out,
    rotateCanvas90CWTo true c outW outH = Ok (Some out) /\
    bmp_width out = outW /\ bmp_height out = outH /\
    forall x y,
      pixelAt out x y =
        if inside outW outH x y then pixelAt c y (outW - 1 - x)
        else transparent.
Proof.
  intros Hw Hh. unfold rotateCanvas90CWTo. cbn [negb]. cbv zeta.
  rewrite (drawable_sized c Hw Hh). eexists. split; [reflexivity|].
  split; [reflexivity|]. split; [reflexivity|].
  intros x y. unfold pixelAt at 1.
  rewrite drawImage_width, drawImage_height, drawImage_at.
  destruct (inside outW outH x y); [|reflexivity].
  rewrite rotateCanvas90CWTo_pixels. reflexivity.
Qed.

Lemma pixelAt_outside c x y :
  inside (bmp_width c) (bmp_height c) x y = false ->
  pixelAt c x y = transparent.
Proof. unfold pixelAt. now intros ->. Qed.

End TurnFacts.

(** [rotateCanvas90CWTo] onto an output of the swapped size moves every
    pixel and loses none: the pixel [(x, y)] of a source of [w] by [h]
    is the pixel [(h - 1 - y, x)] of the output. Two turns give the
    source upside down, and four turns give it back. *)
Theorem four_quarter_turns_restore (srcCanvas : Bitmap) :
  0 < bmp_width srcCanvas ->
  0 < bmp_height srcCanvas ->
  let w := bmp_width srcCanvas in
  let h := bmp_height srcCanvas in
  exists o1 o2 o3 o4,
    Rotation.rotateCanvas90CWTo true srcCanvas h w = Ok (Some o1) /\
    Rotation.rotateCanvas90CWTo true o1 w h = Ok (Some o2) /\
    Rotation.rotateCanvas90CWTo true o2 h w = Ok (Some o3) /\
    Rotation.rotateCanvas90CWTo true o3 w h = Ok (Some o4) /\
    (forall x y, 0 <= x < w -> 0 <= y < h ->
       inside h w (h - 1 - y) x = true /\
       pixelAt o1 (h - 1 - y) x = pixelAt srcCanvas x y) /\
    (forall x y, pixelAt o2 x y = pixelAt srcCanvas (w - 1 - x) (h - 1 - y))
    /\
    bmp_width o4 = w /\ bmp_height o4 = h /\
    (forall x y, pixelAt o4 x y = pixelAt srcCanvas x y).
Proof.
  intros Hw Hh. cbv zeta.
  set (w := bmp_width srcCanvas) in *. set (h := bmp_height srcCanvas) in *.
  destruct (quarter_turn srcCanvas h w Hw Hh) as (o1 & E1 & W1 & H1 & P1).
  destruct (quarter_turn o1 w h ltac:(lia) ltac:(lia))
    as (o2 & E2 & W2 & H2 & P2).
  destruct (quarter_turn o2 h w ltac:(lia) ltac:(lia))
    as (o3 & E3 & W3 & H3 & P3).
  destruct (quarter_turn o3 w h ltac:(lia) ltac:(lia))
    as (o4 & E4 & W4 & H4 & P4).
  assert (Hhalf : forall c c1 c2,
            bmp_width c = w -> bmp_height c = h ->
            (forall x y, pixelAt c1 x y =
               if inside h w x y then pixelAt c y (h - 1 - x)
               else transparent) ->
            (forall x y, pixelAt c2 x y =
               if inside w h x y then pixelAt c1 y (w - 1 - x)
               else transparent) ->
            forall x y, pixelAt c2 x y = pixelAt c (w - 1 - x) (h - 1 - y)).
  { intros c c1 c2 Wc Hc Q1 Q2 x y. rewrite Q2.
    destruct (inside w h x y) eqn:Hin.
    - rewrite Q1.
      assert (Hin' : inside h w y (w - 1 - x) = true)
        by (unfold inside in *; lia).
      rewrite Hin'. f_equal; lia.
    - symmetry. apply pixelAt_outside. rewrite Wc, Hc.
      unfold inside in *. lia. }
  exists o1, o2, o3, o4.
  split; [exact E1|]. split; [exact E2|]. split; [exact E3|].
  split; [exact E4|]. split; [|split; [|split; [|split]]].
  - intros x y Hx Hy.
    assert (Hin : inside h w (h - 1 - y) x = true)
      by (unfold inside; lia).
    split; [exact Hin|]. rewrite P1, Hin. f_equal; lia.
  - exact (Hhalf srcCanvas o1 o2 eq_refl eq_refl P1 P2).
  - exact W4.
  - exact H4.
  - intros x y.
    rewrite (Hhalf o2 o3 o4 W2 H2 P3 P4 x y).
    rewrite (Hhalf srcCanvas o1 o2 eq_refl eq_refl P1 P2).
    f_equal; lia.
Qed.

(** Four turns of a bitmap of 3 by 2 pixels. *)
Lemma four_quarter_turns_restore_witness :
  0 < bmp_width (Samples.gradient 3 2) /\
  0 < bmp_height (Samples.gradient 3 2) /\
  exists o1 o2 o3 o4,
    Rotation.rotateCanvas90CWTo true (Samples.gradient 3 2) 2 3
    = Ok (Some o1) /\
    Rotation.rotateCanvas90CWTo true o1 3 2 = Ok (Some o2) /\
    Rotation.rotateCanvas90CWTo true o2 2 3 = Ok (Some o3) /\
    Rotation.rotateCanvas90CWTo true o3 3 2 = Ok (Some o4) /\
    pixelAt o1 0 2 = pixelAt (Samples.gradient 3 2) 2 1 /\
    pixelAt o4 2 1 = pixelAt (Samples.gradient 3 2) 2 1.
Proof.
  split; [reflexivity|]. split; [reflexivity|].
  destruct (four_quarter_turns_restore (Samples.gradient 3 2)
              eq_refl eq_refl)
    as (o1 & o2 & o3 & o4 & E1 & E2 & E3 & E4 & P1 & _ & _ & _ & P4).
  exists o1, o2, o3, o4.
  split; [exact E1|]. split; [exact E2|]. split; [exact E3|].
  split; [exact E4|]. split; [|apply P4].
  apply (P1 2 1); cbn; lia.
Defined.

(* ===================================================================== *)
(** * Further properties of the background bounds *)
(* ===================================================================== *)

Section BoundsMore.

Import Bounds.

(** Whether an image has content is decided by looking at its
    pixels. *)
Lemma content_decided img o :
  (exists x y,
     0 <= x < canvasWidth img /\ 0 <= y < canvasHeight img /\
     contentAt img o x y = true)
  \/
  (forall x y,
     0 <= x < canvasWidth img -> 0 <= y < canvasHeight img ->
     contentAt img o x y = false).
Proof.
  destruct (existsb (fun p => contentAt img o (fst p) (snd p))
              (coords (canvasWidth img) (canvasHeight img))) eqn:E.
  - left. apply existsb_exists in E. destruct E as [[x y] [Hin Hc]].
    apply coords_In in Hin. exists x, y. cbn [fst snd] in Hc. tauto.
  - right. intros x y Hx Hy.
    destruct (contentAt img o x y) eqn:C; [|reflexivity].
    assert (E' : existsb (fun p => contentAt img o (fst p) (snd p))
                   (coords (canvasWidth img) (canvasHeight img)) = true).
    { apply existsb_exists. exists (x, y).
      split; [apply coords_In; lia|exact C]. }
    congruence.
Qed.

(** The function returns the whole image, or a box that is tight around
    content that the image has. *)
Lemma bounds_whole_or_tight has2d img o :
  let b := getBackgroundBoundsFromImage has2d img o in
  b = whole img
  \/
  ((exists x y,
      0 <= x < canvasWidth img /\ 0 <= y < canvasHeight img /\
      contentAt img o x y = true) /\
   tightBox img o b).
Proof.
  cbv zeta. destruct has2d; [|left; reflexivity].
  destruct (Z_lt_le_dec 0 (count (sampleCorners img o))) as [Hc|Hc].
  - destruct (bounds_of_content img o Hc) as [Ht Hw]. cbv zeta in Ht, Hw.
    destruct (content_decided img o) as [Hex|Hno].
    + right. split; [exact Hex|]. now apply Ht.
    + left. now apply Hw.
  - left. unfold getBackgroundBoundsFromImage, whole. cbn [negb].
    destruct (count (sampleCorners img o) <=? 0) eqn:E; [reflexivity|lia].
Qed.

Section Uniform.

Variables (img : Img) (o : Options) (p : Rgba).

Hypothesis Hp : forall x y,
  0 <= x < canvasWidth img -> 0 <= y < canvasHeight img ->
  img_raster img x y = p.

(** The sums of pixels of the colour of [p]. *)
Let uniform (t : Sums) : Prop :=
  sumR t = byte (red p) * count t /\ sumG t = byte (green p) * count t /\
  sumB t = byte (blue p) * count t.

Lemma sample_uniform thr (pix : nat -> Rgba) l : forall acc,
  (forall k, In k l -> pix k = p) ->
  uniform acc ->
  uniform (sample thr (flat_map (fun k => bytes (pix k)) l) acc).
Proof.
  induction l as [|k l IH]; intros acc Hl Hu; [exact Hu|].
  cbn [flat_map]. rewrite (Hl k (or_introl eq_refl)).
  cbn [bytes app sample].
  assert (Hl' : forall k', In k' l -> pix k' = p)
    by (intros k' Hk'; apply Hl; now right).
  destruct (byte (alpha p) <=? thr); apply IH; try assumption.
  unfold uniform in *. cbn [sumR sumG sumB count]. lia.
Qed.

Lemma corner_uniform sx sy s acc :
  1 <= s -> 0 <= sx -> sx + s <= canvasWidth img ->
  0 <= sy -> sy + s <= canvasHeight img ->
  uniform acc ->
  uniform (match read img sx sy s s with
           | None => acc
           | Some d => sample (alphaThreshold o) d acc
           end).
Proof.
  intros Hs Hsx Hsx' Hsy Hsy' Hu. unfold read.
  destruct (img_readable img && negb ((s =? 0) || (s =? 0)));
    [|exact Hu].
  unfold getImageData.
  apply (sample_uniform (alphaThreshold o)
           (fun k => pixelAt (canvasOf img) (sx + Z.of_nat k mod s)
                       (sy + Z.of_nat k / s)));
    [|exact Hu].
  intros k Hk. apply in_seq in Hk.
  assert (Hm : 0 <= Z.of_nat k mod s < s) by (apply Z.mod_pos_bound; lia).
  assert (Hd : 0 <= Z.of_nat k / s < s).
  { split; [apply Z.div_pos; lia|].
    apply Z.div_lt_upper_bound; lia. }
  unfold pixelAt, canvasOf. cbn [bmp_width bmp_height bmp_at].
  assert (Hin : inside (canvasWidth img) (canvasHeight img)
                  (sx + Z.of_nat k mod s) (sy + Z.of_nat k / s) = true)
    by (unfold inside; lia).
  rewrite Hin. apply Hp; lia.
Qed.

Lemma sampleCorners_uniform : uniform (sampleCorners img o).
Proof.
  pose proof (canvas_positive img) as [Hw Hh].
  unfold sampleCorners. cbv zeta.
  set (s := clamp (sampleSize o) 1
              (Z.min (canvasWidth img) (canvasHeight img))).
  assert (Hs : 1 <= s <= Z.min (canvasWidth img) (canvasHeight img))
    by (unfold s, clamp; lia).
  unfold cornerRects. cbn [fold_left fst snd].
  repeat apply corner_uniform; try lia.
  unfold uniform. cbn [sumR sumG sumB count]. lia.
Qed.

(** The mean of [n] bytes of the same value is that value: the quotient
    is not rounded. *)
Lemma mean_of_equal_bytes c n :
  0 < n -> fdiv (inject_Z (byte c * n)) (inject_Z n) = inject_Z (byte c).
Proof.
  intros Hn. unfold fdiv.
  rewrite <- (round53_Z (byte c)) by (unfold byte; lia).
  apply round53_comp. rewrite inject_Z_mult. field.
  change 0%Q with (inject_Z 0). rewrite inject_Z_injective. lia.
Qed.

(** A colour is at the distance 0 from itself. *)
Lemma distOf_same c1 c2 c3 :
  distOf (fsub c1 c1) (fsub c2 c2) (fsub c3 c3) = 0%Q.
Proof.
  unfold fsub. rewrite !round53_zero by ring. reflexivity.
Qed.

(** No pixel of an image of one colour counts as content. *)
Lemma uniform_without_content x y :
  0 <= tolerance o -> 0 <= lumaDelta o ->
  0 < count (sampleCorners img o) ->
  0 <= x < canvasWidth img -> 0 <= y < canvasHeight img ->
  contentAt img o x y = false.
Proof.
  intros Ht Hl Hc Hx Hy. unfold contentAt. cbv zeta.
  rewrite (Hp x y Hx Hy).
  destruct sampleCorners_uniform as (HR & HG & HB).
  set (t := sampleCorners img o) in *.
  unfold isContent.
  destruct (byte (alpha p) <=? alphaThreshold o); [reflexivity|].
  cbv zeta. unfold backgroundOf. cbv zeta. cbn [bgR bgG bgB bgL].
  rewrite HR, HG, HB, !mean_of_equal_bytes by exact Hc.
  rewrite distOf_same.
  assert (C1 : Qle_bool 0 (inject_Z (tolerance o)) = true).
  { apply Qle_bool_iff. change 0%Q with (inject_Z 0).
    now rewrite <- Zle_Qle. }
  rewrite C1. cbn [andb].
  set (l := lumaOf (inject_Z (byte (red p))) (inject_Z (byte (green p)))
              (inject_Z (byte (blue p)))).
  assert (C2 : Qle_bool (fsub l (inject_Z (lumaDelta o))) l = true).
  { apply Qle_bool_iff.
    apply Qle_trans with (round53 l).
    - unfold fsub. apply round53_mono.
      assert (H0 : (0 <= inject_Z (lumaDelta o))%Q)
        by (change 0%Q with (inject_Z 0); now rewrite <- Zle_Qle).
      lra.
    - apply Qle_lteq. right. unfold l, lumaOf, fadd. apply round53_idem. }
  rewrite C2. reflexivity.
Qed.

End Uniform.

End BoundsMore.

(** The box that [getBackgroundBoundsFromImage] returns always lies
    within the image and is at least one pixel wide and high. *)
Theorem getBackgroundBoundsFromImage_within_image
    (has2d : bool) (img : Bounds.Img) (o : Bounds.Options) :
  let b := Bounds.getBackgroundBoundsFromImage has2d img o in
  0 <= Bounds.box_x b /\ 0 <= Bounds.box_y b /\
  1 <= Bounds.box_w b /\ 1 <= Bounds.box_h b /\
  Bounds.box_x b + Bounds.box_w b <= Bounds.canvasWidth img /\
  Bounds.box_y b + Bounds.box_h b <= Bounds.canvasHeight img.
Proof.
  cbv zeta. pose proof (canvas_positive img) as [Hw Hh].
  destruct (bounds_whole_or_tight has2d img o)
    as [->|[(x & y & Hx & Hy & Hc) Ht]].
  - unfold Bounds.whole.
    cbn [Bounds.box_x Bounds.box_y Bounds.box_w Bounds.box_h]. lia.
  - cbv zeta in Ht. unfold Bounds.tightBox in Ht. cbv zeta in Ht.
    destruct Ht as (Hall & [y1 [[H1 _] _]] & [y2 [[H2 _] _]]
                    & [x3 [[_ H3] _]] & [x4 [[_ H4] _]]).
    destruct (Hall x y Hx Hy Hc) as [Hbx Hby]. lia.
Qed.

(** An image of a single colour is returned whole: whatever the colour
    is and whether its pixels are opaque or not, no pixel differs from
    the background that the corners give. *)
Theorem uniform_image_is_returned_whole
    (has2d : bool) (img : Bounds.Img) (o : Bounds.Options)
    (p : Rgba) :
  (forall x y,
     0 <= x < Bounds.canvasWidth img -> 0 <= y < Bounds.canvasHeight img ->
     Bounds.img_raster img x y = p) ->
  0 <= Bounds.tolerance o -> 0 <= Bounds.lumaDelta o ->
  Bounds.getBackgroundBoundsFromImage has2d img o = Bounds.whole img.
Proof.
  intros Hp Ht Hl.
  destruct (bounds_whole_or_tight has2d img o)
    as [E|[(x & y & Hx & Hy & Hc) _]]; [exact E|].
  destruct (Z_lt_le_dec 0 (Bounds.count (Bounds.sampleCorners img o)))
    as [Hn|Hn].
  - rewrite (uniform_without_content img o p Hp x y Ht Hl Hn Hx Hy) in Hc.
    discriminate.
  - destruct has2d; [|reflexivity].
    unfold Bounds.getBackgroundBoundsFromImage, Bounds.whole. cbn [negb].
    destruct (Bounds.count (Bounds.sampleCorners img o) <=? 0) eqn:E;
      [reflexivity|lia].
Qed.

(** A grey image of 30 by 20 pixels. *)
Lemma uniform_image_is_returned_whole_witness :
  0 <= Bounds.tolerance Bounds.defaults /\
  0 <= Bounds.lumaDelta Bounds.defaults /\
  Bounds.getBackgroundBoundsFromImage true
    {| Bounds.naturalWidth := 30; Bounds.naturalHeight := 20;
       Bounds.width := 30; Bounds.height := 20;
       Bounds.img_raster := fun _ _ =>
         {| red := 128; green := 128; blue := 128; alpha := 255 |};
       Bounds.img_readable := true |}
    Bounds.defaults
  = {| Bounds.box_x := 0; Bounds.box_y := 0; Bounds.box_w := 30;
       Bounds.box_h := 20 |}.
Proof.
  split; [discriminate|]. split; [discriminate|].
  rewrite (uniform_image_is_returned_whole true _ Bounds.defaults
             {| red := 128; green := 128; blue := 128; alpha := 255 |});
    [reflexivity| |discriminate|discriminate].
  intros x y _ _. reflexivity.
Defined.
